(** * Landmark sampling helpers of the persistent-homology notebook

    Shallow embedding of the three helper functions of
    [Day 2 - Persistent homology.ipynb]: [maxmin], [uniform_sampling] and
    [plot_barcodes].

    Numbers.  The notebook works on [float64] arrays.  [maxmin] and
    [uniform_sampling] never do arithmetic on the entries of the distance
    matrix: they only compare them and select one of them ([np.argmax],
    [np.minimum], [np.min], [np.max]).  Every finite [float64] is a rational
    number and comparison of finite floats is comparison of those rationals,
    so entries are modelled as [Q]; equality of values is [Qeq].

    Randomness.  The global NumPy generator is modelled as an explicit state
    [rng], an infinite tape of raw draws, threaded through the functions.

    Exceptions.  A Python exception is a value [Raise e] of the result type. *)

From Stdlib Require Import List ZArith QArith Qminmax Lia Lqa Permutation Bool Arith.
Import ListNotations.

Local Open Scope nat_scope.

(** ** Python results and exceptions *)

(** The NumPy / Matplotlib operation that raised. *)
Inductive np_op : Type :=
| op_randint | op_choice | op_getitem | op_argmax | op_min | op_max
| op_subplots | op_subscript.

Inductive exn : Type :=
| ValueError (origin : np_op)
| IndexError (origin : np_op)
| TypeError (origin : np_op).

Inductive res (A : Type) : Type :=
| Ok (a : A)
| Raise (e : exn).
Arguments Ok {A} a.
Arguments Raise {A} e.

Definition bind {A B : Type} (c : res A) (k : A -> res B) : res B :=
  match c with
  | Ok a => k a
  | Raise e => Raise e
  end.

Notation "x <- c ;; k" := (bind c (fun x => k))
  (at level 61, c at next level, right associativity).
Notation "' pat <- c ;; k" := (bind c (fun x => match x with pat => k end))
  (at level 61, pat pattern, c at next level, right associativity).

(** ** The random generator *)

Definition rng : Type := nat -> nat.

Definition rng_next (g : rng) : nat * rng := (g 0, fun i => g (S i)).

(** [np.random.randint(low, high)]: one integer of [low, high). *)
Definition randint (low high : nat) (g : rng) : res (nat * rng) :=
  if high <=? low then Raise (ValueError op_randint)
  else let (x, g') := rng_next g in Ok (low + x mod (high - low), g').

Fixpoint draws (k a : nat) (g : rng) : list nat * rng :=
  match k with
  | O => ([], g)
  | S k' =>
      let (x, g1) := rng_next g in
      let (xs, g2) := draws k' a g1 in
      (x mod a :: xs, g2)
  end.

(** [np.random.choice(a, size)] with the defaults [replace=True], [p=None]:
    [size] independent draws from [range(a)]. *)
Definition choice (a : nat) (size : Z) (g : rng) : res (list nat * rng) :=
  if (size <? 0)%Z then Raise (ValueError op_choice)
  else if (a =? 0) && (0 <? size)%Z then Raise (ValueError op_choice)
  else Ok (draws (Z.to_nat size) a g).

(** ** Arrays *)

(** A 2-D array is the list of its rows; in an [ndarray] all rows have one
    length. *)
Definition ndarray : Type := list (list Q).

Definition len (M : ndarray) : nat := length M.

(** [M[i, :]] for an index [i >= 0]. *)
Definition getrow (M : ndarray) (i : nat) : res (list Q) :=
  match nth_error M i with
  | Some r => Ok r
  | None => Raise (IndexError op_getitem)
  end.

(** [M[L, :]] for an integer array [L]. *)
Fixpoint take_rows (M : ndarray) (L : list nat) : res (list (list Q)) :=
  match L with
  | [] => Ok []
  | i :: L' =>
      r <- getrow M i ;;
      rs <- take_rows M L' ;;
      Ok (r :: rs)
  end.

Definition Qltb (x y : Q) : bool :=
  match (x ?= y)%Q with
  | Lt => true
  | _ => false
  end.

Fixpoint argmax_from (best_i : nat) (best : Q) (i : nat) (v : list Q) : nat :=
  match v with
  | [] => best_i
  | x :: t =>
      if Qltb best x then argmax_from i x (S i) t
      else argmax_from best_i best (S i) t
  end.

(** [np.argmax(v)]: index of the first occurrence of the maximum. *)
Definition argmax (v : list Q) : res nat :=
  match v with
  | [] => Raise (ValueError op_argmax)
  | x :: t => Ok (argmax_from 0 x 1 t)
  end.

(** [np.minimum(a, b)] on two rows of one shape. *)
Fixpoint minimum (a b : list Q) : list Q :=
  match a, b with
  | x :: a', y :: b' => Qmin x y :: minimum a' b'
  | _, _ => []
  end.

(** [np.max(v)]. *)
Definition amax (v : list Q) : res Q :=
  match v with
  | [] => Raise (ValueError op_max)
  | x :: t => Ok (fold_left Qmax t x)
  end.

(** [np.min(A, axis=0)]: the column-wise minimum; the reduction has no
    identity, so it raises when [A] has no row. *)
Definition amin_axis0 (A : list (list Q)) : res (list Q) :=
  match A with
  | [] => Raise (ValueError op_min)
  | r :: rs => Ok (fold_left minimum rs r)
  end.

(** Number of iterations of [for i in range(n)]. *)
Definition range (n : Z) : nat := Z.to_nat n.

(** ** maxmin *)

(** The body of the [for] loop, run [k] times. *)
Fixpoint maxmin_loop (dist_matrix : ndarray) (k : nat)
    (L : list nat) (dist_to_L : list Q) : res (list nat * list Q) :=
  match k with
  | O => Ok (L, dist_to_L)
  | S k' =>
      ind <- argmax dist_to_L ;;
      let L := L ++ [ind] in
      row <- getrow dist_matrix (last L 0) ;;
      maxmin_loop dist_matrix k' L (minimum dist_to_L row)
  end.

(** [maxmin] up to the end of the loop: the list and the distance array. *)
Definition maxmin_sweep (dist_matrix : ndarray) (n : Z) (g : rng)
  : res (list nat * list Q * rng) :=
  '(r, g) <- randint 0 (len dist_matrix) g ;;
  let L := [r] in
  dist_to_L <- getrow dist_matrix (last L 0) ;;
  '(L, dist_to_L) <- maxmin_loop dist_matrix (range (n - 1)) L dist_to_L ;;
  Ok (L, dist_to_L, g).

Definition maxmin (dist_matrix : ndarray) (n : Z) (g : rng)
  : res (list nat * Q * rng) :=
  '(L, dist_to_L, g) <- maxmin_sweep dist_matrix n g ;;
  cr <- amax dist_to_L ;;
  Ok (L, cr, g).

(** ** uniform_sampling *)

Definition uniform_sampling (dist_matrix : ndarray) (n : Z) (g : rng)
  : res (list nat * Q * rng) :=
  let num_points := len dist_matrix in
  '(L, g) <- choice num_points n g ;;
  A <- take_rows dist_matrix L ;;
  dist_to_L <- amin_axis0 A ;;
  cr <- amax dist_to_L ;;
  Ok (L, cr, g).

(** ** Distance matrices and the covering radius *)

Definition entry (M : ndarray) (i j : nat) : Q := nth j (nth i M []) 0%Q.

Definition row (M : ndarray) (i : nat) : list Q := nth i M [].

Definition all_pairs (N : nat) (f : nat -> nat -> bool) : bool :=
  forallb (fun i => forallb (f i) (seq 0 N)) (seq 0 N).

Definition squareb (M : ndarray) : bool :=
  forallb (fun r => length r =? len M) M.

Definition symmetricb (M : ndarray) : bool :=
  all_pairs (len M) (fun i j => Qeq_bool (entry M i j) (entry M j i)).

Definition nonnegativeb (M : ndarray) : bool :=
  all_pairs (len M) (fun i j => Qle_bool 0 (entry M i j)).

Definition zero_diagonalb (M : ndarray) : bool :=
  forallb (fun i => Qeq_bool (entry M i i) 0) (seq 0 (len M)).

(** A valid distance matrix: square, symmetric, non-negative, zero on the
    diagonal. *)
Definition validb (M : ndarray) : bool :=
  squareb M && symmetricb M && nonnegativeb M && zero_diagonalb M.

Definition valid (M : ndarray) : Prop := validb M = true.

(** Distinct points are at positive distance. *)
Definition separatedb (M : ndarray) : bool :=
  all_pairs (len M) (fun i j => (i =? j) || Qltb 0 (entry M i j)).

Definition separated (M : ndarray) : Prop := separatedb M = true.

(** Minimum distance from point [p] to the points of [S], read off the
    matrix entry by entry. *)
Definition dist_to_set (M : ndarray) (S : list nat) (p : nat) : Q :=
  match S with
  | [] => 0%Q
  | l :: ls => fold_left Qmin (map (entry M p) ls) (entry M p l)
  end.

(** The covering radius recomputed by brute force: the maximum over all
    points of the minimum distance to [S]. *)
Definition covering_radius (M : ndarray) (S : list nat) : option Q :=
  match S with
  | [] => None
  | _ :: _ =>
      match map (dist_to_set M S) (seq 0 (len M)) with
      | [] => None
      | x :: t => Some (fold_left Qmax t x)
      end
  end.

(** [i] is the first position of a maximum of [f] on [0, N). *)
Definition first_argmax (N : nat) (f : nat -> Q) (i : nat) : Prop :=
  i < N /\
  (forall k, k < N -> (f k <= f i)%Q) /\
  (forall k, k < i -> (f k < f i)%Q).

(** The column-wise minimum of the rows of [M] listed in [S], which is what
    the distance array of both functions holds. *)
Definition colmin (M : ndarray) (S : list nat) : list Q :=
  match S with
  | [] => []
  | l :: ls => fold_left minimum (map (row M) ls) (row M l)
  end.

(** Every element after the first is the first maximum of the distance array
    of the elements before it. *)
Definition greedy (M : ndarray) (L : list nat) : Prop :=
  forall j, 1 <= j < length L ->
            argmax (colmin M (firstn j L)) = Ok (nth j L 0).

(** ** Arrays as objects in memory

    For the question of what the helpers write to, arrays are objects: the
    memory is the list of the buffers allocated so far, an array is named by
    the position of its buffer, and a 1-D array can be a view of a row of a
    2-D buffer, sharing its storage. *)

Definition stm (S A : Type) : Type := S -> res A * S.

Definition ret {S A : Type} (a : A) : stm S A := fun s => (Ok a, s).

Definition lift {S A : Type} (r : res A) : stm S A := fun s => (r, s).

Definition bind_st {S A B : Type} (c : stm S A) (k : A -> stm S B)
  : stm S B :=
  fun s =>
    match c s with
    | (Ok a, s') => k a s'
    | (Raise e, s') => (Raise e, s')
    end.

Notation "x <~ c ;; k" := (bind_st c (fun x => k))
  (at level 61, c at next level, right associativity).
Notation "' pat <~ c ;; k" :=
  (bind_st c (fun x => match x with pat => k end))
  (at level 61, pat pattern, c at next level, right associativity).

Definition memory (B : Type) : Type := list B.

(** Allocation of a new buffer, at the next free position. *)
Definition alloc {B : Type} (b : B) : stm (memory B) nat :=
  fun m => (Ok (length m), m ++ [b]).

(** Replacement of the buffer at position [a]. *)
Fixpoint set_buffer {B : Type} (m : memory B) (a : nat) (b : B) : memory B :=
  match m, a with
  | [], _ => []
  | _ :: m', O => b :: m'
  | x :: m', S a' => x :: set_buffer m' a' b
  end.

(** A 1-D array: row [i] of the buffer at [base]. *)
Inductive view : Type :=
| View (base : nat) (i : nat).

Definition deref (a : nat) : stm (memory ndarray) ndarray :=
  fun m => (Ok (nth a m []), m).

(** [M[i, :]] is a view, not a copy. *)
Definition view_row (a i : nat) : stm (memory ndarray) view :=
  fun m =>
    if i <? len (nth a m []) then (Ok (View a i), m)
    else (Raise (IndexError op_getitem), m).

Definition load (v : view) : stm (memory ndarray) (list Q) :=
  fun m => match v with View a i => (Ok (row (nth a m []) i), m) end.

(** A NumPy function that returns a new 1-D array. *)
Definition fresh_row (v : list Q) : stm (memory ndarray) view :=
  a <~ alloc [v] ;; ret (View a 0).

Fixpoint maxmin_loop_st (dist_matrix : nat) (k : nat)
    (L : list nat) (dist_to_L : view)
  : stm (memory ndarray) (list nat * view) :=
  match k with
  | O => ret (L, dist_to_L)
  | S k' =>
      v <~ load dist_to_L ;;
      ind <~ lift (argmax v) ;;
      let L := L ++ [ind] in
      r <~ view_row dist_matrix (last L 0) ;;
      w <~ load r ;;
      dist_to_L <~ fresh_row (minimum v w) ;;
      maxmin_loop_st dist_matrix k' L dist_to_L
  end.

(** [maxmin] on the array object at position [dist_matrix]. *)
Definition maxmin_st (dist_matrix : nat) (n : Z) (g : rng)
  : stm (memory ndarray) (list nat * Q * rng) :=
  M <~ deref dist_matrix ;;
  '(r, g) <~ lift (randint 0 (len M) g) ;;
  let L := [r] in
  dist_to_L <~ view_row dist_matrix (last L 0) ;;
  '(L, dist_to_L) <~ maxmin_loop_st dist_matrix (range (n - 1)) L dist_to_L ;;
  v <~ load dist_to_L ;;
  cr <~ lift (amax v) ;;
  ret (L, cr, g).

(** [uniform_sampling] on the array object at position [dist_matrix]:
    [M[L, :]] with an index array is a copy, [np.min] returns a new array. *)
Definition uniform_sampling_st (dist_matrix : nat) (n : Z) (g : rng)
  : stm (memory ndarray) (list nat * Q * rng) :=
  M <~ deref dist_matrix ;;
  let num_points := len M in
  '(L, g) <~ lift (choice num_points n g) ;;
  rows <~ lift (take_rows M L) ;;
  A <~ alloc rows ;;
  A' <~ deref A ;;
  d <~ lift (amin_axis0 A') ;;
  dist_to_L <~ fresh_row d ;;
  v <~ load dist_to_L ;;
  cr <~ lift (amax v) ;;
  ret (L, cr, g).

(** ** plot_barcodes *)

(** An entry of a persistence diagram: a finite number or infinity. *)
Inductive fl : Type :=
| Fin (q : Q)
| Inf.

Definition isinf (x : fl) : bool :=
  match x with
  | Inf => true
  | Fin _ => false
  end.

(** A diagram is a k x 2 array of (birth, death) rows. *)
Definition diagram : Type := list (fl * fl).

(** What is drawn on the figure. *)
Inductive draw : Type :=
| Suptitle
| Plot (ax : nat) (x : fl * fl) (h : nat)
| Scatter (ax : nat) (alpha_max : Q) (h : nat)
| Frame (ax : nat) (alpha_max : Q) (h : nat).

Record plot_state : Type := mkPlot {
  mem : memory diagram;
  fig : list draw
}.

(** The second value of [plt.subplots(k)]: one [Axes] for k = 1, an array
    of them for k > 1. *)
Inductive axes : Type :=
| OneAxes
| AxesArray (k : nat).

Definition subplots (k : nat) : res axes :=
  match k with
  | 0 => Raise (ValueError op_subplots)
  | 1 => Ok OneAxes
  | _ => Ok (AxesArray k)
  end.

(** [axs[dim]]. *)
Definition subscript (axs : axes) (dim : nat) : res nat :=
  match axs with
  | OneAxes => Raise (TypeError op_subscript)
  | AxesArray k =>
      if dim <? k then Ok dim else Raise (IndexError op_subscript)
  end.

Definition emit (d : draw) : stm plot_state unit :=
  fun s => (Ok tt, mkPlot (mem s) (fig s ++ [d])).

(** [np.copy(a)]. *)
Definition np_copy (a : nat) : stm plot_state nat :=
  fun s => (Ok (length (mem s)),
            mkPlot (mem s ++ [nth a (mem s) []]) (fig s)).

Definition get_diagram (a : nat) : stm plot_state diagram :=
  fun s => (Ok (nth a (mem s) []), s).

Definition substitute (ind_inf : list bool) (alpha_max : Q) (b : diagram)
  : diagram :=
  map (fun '(inf, (birth, death)) =>
         if inf : bool then (birth, Fin alpha_max) else (birth, death))
      (combine ind_inf b).

(** [barcode[ind_inf, 1] = alpha_max]: written into the buffer of
    [barcode]. *)
Definition assign_inf (barcode : nat) (ind_inf : list bool) (alpha_max : Q)
  : stm plot_state unit :=
  fun s =>
    (Ok tt,
     mkPlot (set_buffer (mem s) barcode
               (substitute ind_inf alpha_max (nth barcode (mem s) [])))
            (fig s)).

(** The inner loop, [k] iterations from row [i] at height [h]. *)
Fixpoint plot_bars (axs : axes) (dim barcode : nat) (ind_inf : list bool)
    (alpha_max : Q) (k i h : nat) : stm plot_state nat :=
  match k with
  | O => ret h
  | S k' =>
      b <~ get_diagram barcode ;;
      let x := nth i b (Fin 0, Fin 0) in
      ax <~ lift (subscript axs dim) ;;
      _ <~ emit (Plot ax x h) ;;
      _ <~ (if nth i ind_inf false
            then ax <~ lift (subscript axs dim) ;;
                 emit (Scatter ax alpha_max h)
            else ret tt) ;;
      plot_bars axs dim barcode ind_inf alpha_max k' (S i) (S h)
  end.

(** The outer loop, [k] iterations from dimension [dim]. *)
Fixpoint plot_dims (axs : axes) (diagrams : list nat) (alpha_max : Q)
    (k dim : nat) : stm plot_state unit :=
  match k with
  | O => ret tt
  | S k' =>
      barcode <~ np_copy (nth dim diagrams 0) ;;
      b <~ get_diagram barcode ;;
      let ind_inf := map (fun x => isinf (snd x)) b in
      _ <~ assign_inf barcode ind_inf alpha_max ;;
      b <~ get_diagram barcode ;;
      h <~ plot_bars axs dim barcode ind_inf alpha_max (length b) 0 1 ;;
      ax <~ lift (subscript axs dim) ;;
      _ <~ emit (Frame ax alpha_max h) ;;
      plot_dims axs diagrams alpha_max k' (S dim)
  end.

Definition plot_barcodes (diagrams : list nat) (alpha_max : Q)
  : stm plot_state unit :=
  let max_dim := length diagrams in
  axs <~ lift (subplots max_dim) ;;
  _ <~ emit Suptitle ;;
  plot_dims axs diagrams alpha_max max_dim 0.

(** The death values of a diagram with the display maximum in place of
    infinity. *)
Definition capped (alpha_max : Q) (b : diagram) : diagram :=
  map (fun '(birth, death) =>
         if isinf death then (birth, Fin alpha_max) else (birth, death)) b.

(** ** Triangle inequality *)

(** The entries of [M] satisfy the triangle inequality, as rationals. *)
Definition triangleb (M : ndarray) : bool :=
  forallb (fun j =>
             all_pairs (len M)
               (fun i k => Qle_bool (entry M i k)
                                    (entry M i j + entry M j k)))
          (seq 0 (len M)).

(** ** The cell that builds the Rips complex for display

    The cell enumerates, for the threshold [alpha], the edges and triangles
    of the Rips complex of the point cloud [data] (3 x n_data, one column
    per point) from its distance matrix [distMat], into the coordinate
    lists [e_x], [e_y], [e_z] of the edge polyline and the index lists
    [ii], [jj], [kk] of the triangle mesh. *)

(** [A[i, j]]. *)
Definition getitem2 (A : ndarray) (i j : nat) : res Q :=
  match nth_error A i with
  | None => Raise (IndexError op_getitem)
  | Some r =>
      match nth_error r j with
      | None => Raise (IndexError op_getitem)
      | Some x => Ok x
      end
  end.

(** [for x in l: body]. *)
Fixpoint for_each {A S : Type} (l : list A) (body : A -> S -> res S) (s : S)
  : res S :=
  match l with
  | [] => Ok s
  | x :: l' => s' <- body x s ;; for_each l' body s'
  end.

(** [range(a, b)]. *)
Definition range_from (a b : nat) : list nat := seq a (b - a).

(** The six lists of the cell; [None] is Python's [None], which ends a
    segment of the polyline. *)
Record rips : Type := mkRips {
  ii : list nat;
  jj : list nat;
  kk : list nat;
  e_x : list (option Q);
  e_y : list (option Q);
  e_z : list (option Q)
}.

(** The three [extend] calls for the edge (i, j). *)
Definition add_edge (data : ndarray) (i j : nat) (s : rips) : res rips :=
  xi <- getitem2 data 0 i ;;
  xj <- getitem2 data 0 j ;;
  let ex := e_x s ++ [Some xi; Some xj; None] in
  yi <- getitem2 data 1 i ;;
  yj <- getitem2 data 1 j ;;
  let ey := e_y s ++ [Some yi; Some yj; None] in
  zi <- getitem2 data 2 i ;;
  zj <- getitem2 data 2 j ;;
  let ez := e_z s ++ [Some zi; Some zj; None] in
  Ok (mkRips (ii s) (jj s) (kk s) ex ey ez).

(** The three [append] calls for the triangle (i, j, k). *)
Definition add_triangle (i j k : nat) (s : rips) : rips :=
  mkRips (ii s ++ [i]) (jj s ++ [j]) (kk s ++ [k]) (e_x s) (e_y s) (e_z s).

Definition rips_cell (distMat data : ndarray) (n_data : nat) (alpha : Q)
  : res rips :=
  for_each (range_from 0 n_data)
    (fun i s =>
       for_each (range_from (i + 1) n_data)
         (fun j s =>
            d <- getitem2 distMat i j ;;
            if Qltb d alpha then
              s <- add_edge data i j s ;;
              for_each (range_from (j + 1) n_data)
                (fun k s =>
                   djk <- getitem2 distMat j k ;;
                   dik <- getitem2 distMat i k ;;
                   m <- amax [djk; dik] ;;
                   if Qltb m alpha then Ok (add_triangle i j k s)
                   else Ok s)
                s
            else Ok s)
         s)
    (mkRips [] [] [] [] [] []).

(** An [r] x [c] array. *)
Definition shapeb (A : ndarray) (r c : nat) : bool :=
  (length A =? r) && forallb (fun row => length row =? c) A.

(** The triangles a mesh reads from the three index lists. *)
Definition triangles (s : rips) : list (nat * nat * nat) :=
  combine (combine (ii s) (jj s)) (kk s).

(** The polyline of a list of segments over a coordinate row: the two end
    points of each segment, then [None]. *)
Definition polyline (coords : list Q) (E : list (nat * nat))
  : list (option Q) :=
  flat_map (fun '(i, j) =>
              [Some (nth i coords 0%Q); Some (nth j coords 0%Q); None]) E.

(** The pairs and triples below the threshold, in the order in which the
    three loops meet them. *)
Definition edges_from (M : ndarray) (n : nat) (alpha : Q) (i : nat)
  : list (nat * nat) :=
  flat_map (fun j => if Qltb (entry M i j) alpha then [(i, j)] else [])
           (range_from (i + 1) n).

Definition triangles_from (M : ndarray) (n : nat) (alpha : Q) (i j : nat)
  : list (nat * nat * nat) :=
  flat_map (fun k => if Qltb (Qmax (entry M j k) (entry M i k)) alpha
                     then [(i, j, k)] else [])
           (range_from (j + 1) n).

Definition rips_edges (M : ndarray) (n : nat) (alpha : Q)
  : list (nat * nat) :=
  flat_map (edges_from M n alpha) (range_from 0 n).

Definition rips_triangles (M : ndarray) (n : nat) (alpha : Q)
  : list (nat * nat * nat) :=
  flat_map (fun i =>
              flat_map (fun j => if Qltb (entry M i j) alpha
                                 then triangles_from M n alpha i j else [])
                       (range_from (i + 1) n))
           (range_from 0 n).

(** The six lists hold the triangles [T] and the polyline of the edges
    [E]. *)
Definition encodes (data : ndarray) (s : rips)
    (T : list (nat * nat * nat)) (E : list (nat * nat)) : Prop :=
  ii s = map (fun t => fst (fst t)) T /\
  jj s = map (fun t => snd (fst t)) T /\
  kk s = map snd T /\
  e_x s = polyline (row data 0) E /\
  e_y s = polyline (row data 1) E /\
  e_z s = polyline (row data 2) E.

(** ** The cells that compute a Hausdorff distance

    [C] stands for [distance.cdist(X, Y)], the array of the distances from
    the points of [X] (rows) to the points of [Y] (columns), which the cell
    gets from SciPy. *)

Definition row_min (r : list Q) : res Q :=
  match r with
  | [] => Raise (ValueError op_min)
  | x :: t => Ok (fold_left Qmin t x)
  end.

(** [np.min(A, axis=1)]: the minimum of each row.  An array without rows
    does not tell its number of columns here; the cell reduces it along
    axis 0 first, and that raises. *)
Fixpoint amin_axis1 (A : list (list Q)) : res (list Q) :=
  match A with
  | [] => Ok []
  | r :: A' =>
      m <- row_min r ;;
      ms <- amin_axis1 A' ;;
      Ok (m :: ms)
  end.

Definition hausdorff_cell (C : ndarray) : res Q :=
  c0 <- amin_axis0 C ;;
  d_XY <- amax c0 ;;
  c1 <- amin_axis1 C ;;
  d_YX <- amax c1 ;;
  amax [d_XY; d_YX].

(** The distances from every point to the points listed in [L]: the
    columns [L] of the distance matrix, which is [cdist(X, X[L])] when the
    matrix is [cdist(X, X)]. *)
Definition cross (M : ndarray) (L : list nat) : ndarray :=
  map (fun r => map (fun l => nth l r 0%Q) L) M.

(** ** The barcode figure

    What a barcode figure holds: for the diagram of each dimension, one
    horizontal segment per interval at the heights 1, 2, ..., an interval
    with infinite death being cut at [alpha_max] and marked there, then the
    frame of the subplot with the y-limit one above the last height. *)

Definition bar_drawing (dim : nat) (alpha_max : Q) (i : nat) (x : fl * fl)
  : list draw :=
  Plot dim (if isinf (snd x) then (fst x, Fin alpha_max) else x) (S i)
  :: (if isinf (snd x) then [Scatter dim alpha_max (S i)] else []).

Fixpoint bars_drawing (dim : nat) (alpha_max : Q) (i : nat) (b : diagram)
  : list draw :=
  match b with
  | [] => []
  | x :: b' =>
      bar_drawing dim alpha_max i x ++ bars_drawing dim alpha_max (S i) b'
  end.

Definition dim_drawing (alpha_max : Q) (dim : nat) (b : diagram)
  : list draw :=
  bars_drawing dim alpha_max 0 b ++ [Frame dim alpha_max (S (length b))].

(** The figure of the diagrams [ds], numbered from [dim]. *)
Fixpoint dims_drawing (alpha_max : Q) (dim : nat) (ds : list diagram)
  : list draw :=
  match ds with
  | [] => []
  | b :: ds' =>
      dim_drawing alpha_max dim b ++ dims_drawing alpha_max (S dim) ds'
  end.

Definition barcode_figure (alpha_max : Q) (ds : list diagram) : list draw :=
  Suptitle :: dims_drawing alpha_max 0 ds.

(** ** Inputs used in the examples *)

(** The random state whose draws are the elements of [L], then zeros. *)
Definition tape (L : list nat) : rng := fun i => nth i L 0.

(** [np.sqrt(2.0)] as a [float64]: 0x3FF6A09E667F3BCD. *)
Definition sqrt2 : Q := 6369051672525773 # 4503599627370496.

(** In a square, the corner opposite to corner [i] when corner [o] is the one
    opposite to corner 0. *)
Definition opposite (o i : nat) : nat :=
  if i =? 0 then o else if i =? o then 0 else 6 - o - i.

(** Distance matrix of the four corners of a square of side [s] and diagonal
    [d], corner [o] (1, 2 or 3) being the one opposite to corner 0. *)
Definition square_matrix (o : nat) (s d : Q) : ndarray :=
  map (fun i =>
         map (fun j => if i =? j then 0%Q
                       else if j =? opposite o i then d else s)
             (seq 0 4))
      (seq 0 4).

(** Corners (0,0), (1,0), (1,1), (0,1) of the unit square. *)
Definition unit_square : ndarray := square_matrix 2 1 sqrt2.

(** Three points on a line at 0, 0 and 1: the first two coincide. *)
Definition coincident : ndarray := [[0; 0; 1]; [0; 0; 1]; [1; 1; 0]]%Q.

(** Twice the same point. *)
Definition twice : ndarray := [[0; 0]; [0; 0]]%Q.

(** Three points on a line at 0, 1 and 3. *)
Definition line3 : ndarray := [[0; 1; 3]; [1; 0; 2]; [3; 2; 0]]%Q.

(** A 1 x 2 array, not a distance matrix. *)
Definition wide : ndarray := [[0; 5]]%Q.

(** Two diagrams in memory: H0 with an infinite bar, H1 with one bar. *)
Definition dgms : memory diagram :=
  [[(Fin 0, Fin (1 # 2)); (Fin 0, Inf)]; [(Fin (3 # 4), Fin (3 # 2))]].

(** The value a call returns, without the random state it leaves. *)
Definition outcome {A : Type} (r : res (A * rng)) : res A :=
  '(a, _) <- r ;; Ok a.

(** Runs a function on a concrete matrix up to the first draw [Hg]. *)
Ltac square_run Hg :=
  cbn -[Qmin Qmax Qltb Nat.modulo]; rewrite Hg;
  cbn -[Qmin Qmax Qltb Nat.modulo].

(** Three points of the plane z = 0, at (0,0), (1,0) and (3,0). *)
Definition data3 : ndarray := [[0; 1; 3]; [0; 0; 0]; [0; 0; 0]]%Q.

(** ** Order lemmas on values *)

Lemma Qltb_true (x y : Q) : Qltb x y = true <-> (x < y)%Q.
Proof.
  unfold Qltb. rewrite Qlt_alt. destruct (x ?= y)%Q; split; congruence.
Qed.

Lemma Qltb_false (x y : Q) : Qltb x y = false <-> (y <= x)%Q.
Proof.
  split; intro H.
  - apply Qnot_lt_le. intro Hlt. apply Qltb_true in Hlt. congruence.
  - destruct (Qltb x y) eqn:E; [|reflexivity].
    apply Qltb_true in E. exfalso. apply (Qlt_not_le _ _ E H).
Qed.

Lemma fold_Qmin_le (t : list Q) (x : Q) :
  (fold_left Qmin t x <= x)%Q /\
  (forall y, In y t -> (fold_left Qmin t x <= y)%Q).
Proof.
  revert x. induction t as [|a t IH]; intro x; simpl.
  - split; [apply Qle_refl | intros y []].
  - destruct (IH (Qmin x a)) as [H1 H2]. split.
    + eapply Qle_trans; [exact H1 | apply Q.le_min_l].
    + intros y [->|Hy]; [|auto].
      eapply Qle_trans; [exact H1 | apply Q.le_min_r].
Qed.

Lemma fold_Qmin_in (t : list Q) (x : Q) :
  exists y, In y (x :: t) /\ (fold_left Qmin t x == y)%Q.
Proof.
  revert x. induction t as [|a t IH]; intro x; simpl.
  - exists x. split; [now left | reflexivity].
  - destruct (IH (Qmin x a)) as (y & [Hy|Hy] & E).
    + subst y. destruct (Q.min_spec x a) as [[_ Hm]|[_ Hm]].
      * exists x. split; [now left | now rewrite E].
      * exists a. split; [right; now left | now rewrite E].
    + exists y. split; [right; now right | exact E].
Qed.

Lemma fold_Qmax_ge (t : list Q) (x : Q) :
  (x <= fold_left Qmax t x)%Q /\
  (forall y, In y t -> (y <= fold_left Qmax t x)%Q).
Proof.
  revert x. induction t as [|a t IH]; intro x; simpl.
  - split; [apply Qle_refl | intros y []].
  - destruct (IH (Qmax x a)) as [H1 H2]. split.
    + eapply Qle_trans; [apply Q.le_max_l | exact H1].
    + intros y [->|Hy]; [|auto].
      eapply Qle_trans; [apply Q.le_max_r | exact H1].
Qed.

Lemma fold_Qmax_in (t : list Q) (x : Q) :
  exists y, In y (x :: t) /\ (fold_left Qmax t x == y)%Q.
Proof.
  revert x. induction t as [|a t IH]; intro x; simpl.
  - exists x. split; [now left | reflexivity].
  - destruct (IH (Qmax x a)) as (y & [Hy|Hy] & E).
    + subst y. destruct (Q.max_spec x a) as [[_ Hm]|[_ Hm]].
      * exists a. split; [right; now left | now rewrite E].
      * exists x. split; [now left | now rewrite E].
    + exists y. split; [right; now right | exact E].
Qed.

(** ** The array primitives *)

Lemma argmax_from_spec (t pre : list Q) (bi : nat) (b : Q) :
  bi < length pre ->
  nth bi pre 0%Q = b ->
  (forall k, k < length pre -> (nth k pre 0 <= b)%Q) ->
  (forall k, k < bi -> (nth k pre 0 < b)%Q) ->
  let r := argmax_from bi b (length pre) t in
  r < length (pre ++ t) /\
  (forall k, k < length (pre ++ t) ->
             (nth k (pre ++ t) 0 <= nth r (pre ++ t) 0)%Q) /\
  (forall k, k < r -> (nth k (pre ++ t) 0 < nth r (pre ++ t) 0)%Q).
Proof.
  revert pre bi b. induction t as [|x t IH]; intros pre bi b Hbi Hb Hle Hlt.
  - simpl. rewrite app_nil_r. rewrite Hb. auto.
  - simpl argmax_from.
    assert (Hlen : length (pre ++ [x]) = S (length pre))
      by (rewrite length_app; simpl; lia).
    assert (Hx : nth (length pre) (pre ++ [x]) 0%Q = x)
      by (rewrite app_nth2, Nat.sub_diag by lia; reflexivity).
    replace (pre ++ x :: t) with ((pre ++ [x]) ++ t)
      by (rewrite <- app_assoc; reflexivity).
    rewrite <- Hlen.
    destruct (Qltb b x) eqn:E.
    + apply Qltb_true in E.
      apply IH.
      * lia.
      * exact Hx.
      * intros k Hk. rewrite Hlen in Hk.
        destruct (Nat.eq_dec k (length pre)) as [->|Hne].
        -- rewrite Hx. apply Qle_refl.
        -- rewrite app_nth1 by lia. apply Qlt_le_weak.
           eapply Qle_lt_trans; [apply Hle; lia | exact E].
      * intros k Hk. rewrite app_nth1 by lia.
        eapply Qle_lt_trans; [apply Hle; lia | exact E].
    + apply Qltb_false in E.
      apply IH.
      * lia.
      * rewrite app_nth1 by lia. exact Hb.
      * intros k Hk. rewrite Hlen in Hk.
        destruct (Nat.eq_dec k (length pre)) as [->|Hne].
        -- rewrite Hx. exact E.
        -- rewrite app_nth1 by lia. apply Hle. lia.
      * intros k Hk. rewrite app_nth1 by lia. apply Hlt. exact Hk.
Qed.

Lemma argmax_spec (v : list Q) (r : nat) :
  argmax v = Ok r ->
  first_argmax (length v) (fun k => nth k v 0%Q) r.
Proof.
  destruct v as [|x t]; simpl; [discriminate|].
  intro H. injection H as <-.
  apply (argmax_from_spec t [x] 0 x); simpl.
  - lia.
  - reflexivity.
  - intros k Hk. assert (k = 0) as -> by lia. apply Qle_refl.
  - intros k Hk. lia.
Qed.

Lemma argmax_ok (v : list Q) :
  v <> [] -> exists r, argmax v = Ok r.
Proof.
  destruct v as [|x t]; [congruence|]. intros _. eexists. reflexivity.
Qed.

Lemma amax_ok (v : list Q) :
  v <> [] -> exists m, amax v = Ok m.
Proof.
  destruct v as [|x t]; [congruence|]. intros _. eexists. reflexivity.
Qed.

Lemma amax_spec (v : list Q) (m : Q) :
  amax v = Ok m ->
  (forall k, k < length v -> (nth k v 0 <= m)%Q) /\
  (exists k, k < length v /\ (nth k v 0 == m)%Q).
Proof.
  destruct v as [|x t]; [discriminate|].
  intro H. simpl in H. injection H as <-. split.
  - intros [|k] Hk; simpl nth.
    + apply (proj1 (fold_Qmax_ge t x)).
    + apply (proj2 (fold_Qmax_ge t x)). apply nth_In. simpl in Hk. lia.
  - destruct (fold_Qmax_in t x) as (y & Hy & E).
    destruct (In_nth (x :: t) y 0%Q Hy) as (k & Hk & Hn).
    exists k. split; [exact Hk|]. rewrite Hn. symmetry. exact E.
Qed.

(** The maximum is monotone in the array, position by position. *)
Lemma amax_mono (v v' : list Q) (m m' : Q) :
  amax v = Ok m -> amax v' = Ok m' ->
  length v' = length v ->
  (forall k, k < length v -> (nth k v' 0 <= nth k v 0)%Q) ->
  (m' <= m)%Q.
Proof.
  intros Hv Hv' Hlen Hle.
  destruct (amax_spec v m Hv) as [Hub _].
  destruct (amax_spec v' m' Hv') as [_ (k & Hk & E)].
  rewrite <- E. rewrite Hlen in Hk.
  eapply Qle_trans; [apply Hle; exact Hk | apply Hub; exact Hk].
Qed.

Lemma amax_ext (v v' : list Q) (m m' : Q) :
  amax v = Ok m -> amax v' = Ok m' ->
  length v' = length v ->
  (forall k, k < length v -> (nth k v' 0 == nth k v 0)%Q) ->
  (m' == m)%Q.
Proof.
  intros Hv Hv' Hlen He. apply Qle_antisym.
  - apply (amax_mono v v' m m' Hv Hv' Hlen).
    intros k Hk. rewrite (He k Hk). apply Qle_refl.
  - apply (amax_mono v' v m' m Hv' Hv (eq_sym Hlen)).
    intros k Hk. rewrite Hlen in Hk. rewrite (He k Hk). apply Qle_refl.
Qed.

Lemma minimum_length (a b : list Q) :
  length (minimum a b) = Nat.min (length a) (length b).
Proof.
  revert b. induction a as [|x a IH]; intros [|y b]; simpl; auto.
Qed.

Lemma minimum_nth (a b : list Q) (k : nat) :
  k < length a -> k < length b ->
  nth k (minimum a b) 0%Q = Qmin (nth k a 0%Q) (nth k b 0%Q).
Proof.
  revert b k. induction a as [|x a IH]; intros [|y b] [|k]; simpl;
    try lia; auto.
  intros Ha Hb. apply IH; lia.
Qed.

Lemma getrow_row (M : ndarray) (i : nat) :
  i < len M -> getrow M i = Ok (row M i).
Proof.
  intro H. unfold getrow, row.
  destruct (nth_error M i) as [r|] eqn:E.
  - rewrite (nth_error_nth _ _ _ E). reflexivity.
  - apply nth_error_None in E. unfold len in H. lia.
Qed.

Lemma getrow_out (M : ndarray) (i : nat) :
  len M <= i -> getrow M i = Raise (IndexError op_getitem).
Proof.
  intro H. unfold getrow.
  destruct (nth_error M i) as [r|] eqn:E; [|reflexivity].
  assert (i < length M) by (apply nth_error_Some; congruence).
  unfold len in H. lia.
Qed.

Lemma take_rows_ok (M : ndarray) (L : list nat) :
  Forall (fun i => i < len M) L ->
  take_rows M L = Ok (map (row M) L).
Proof.
  induction 1 as [|i L Hi _ IH]; simpl; [reflexivity|].
  rewrite (getrow_row M i Hi). simpl. rewrite IH. reflexivity.
Qed.

(** ** Reading the validity checks *)

Lemma all_pairs_spec (N : nat) (f : nat -> nat -> bool) :
  all_pairs N f = true <->
  (forall i j, i < N -> j < N -> f i j = true).
Proof.
  unfold all_pairs. rewrite forallb_forall. split.
  - intros H i j Hi Hj.
    assert (Hin : In i (seq 0 N)) by (apply in_seq; lia).
    specialize (H i Hin). rewrite forallb_forall in H.
    apply H. apply in_seq. lia.
  - intros H i Hi. apply forallb_forall. intros j Hj.
    apply in_seq in Hi. apply in_seq in Hj. apply H; lia.
Qed.

Lemma squareb_row (M : ndarray) (i : nat) :
  squareb M = true -> i < len M -> length (row M i) = len M.
Proof.
  unfold squareb. rewrite forallb_forall. intros H Hi.
  apply Nat.eqb_eq. apply H. unfold row. apply nth_In. exact Hi.
Qed.

Lemma valid_square (M : ndarray) : valid M -> squareb M = true.
Proof.
  unfold valid, validb. rewrite !andb_true_iff. tauto.
Qed.

Lemma valid_symmetric (M : ndarray) (i j : nat) :
  valid M -> i < len M -> j < len M -> (entry M i j == entry M j i)%Q.
Proof.
  unfold valid, validb. rewrite !andb_true_iff.
  intros [[[_ H] _] _] Hi Hj. unfold symmetricb in H.
  apply Qeq_bool_iff. exact (proj1 (all_pairs_spec _ _) H i j Hi Hj).
Qed.

Lemma valid_nonnegative (M : ndarray) (i j : nat) :
  valid M -> i < len M -> j < len M -> (0 <= entry M i j)%Q.
Proof.
  unfold valid, validb. rewrite !andb_true_iff.
  intros [[_ H] _] Hi Hj. unfold nonnegativeb in H.
  apply Qle_bool_iff. exact (proj1 (all_pairs_spec _ _) H i j Hi Hj).
Qed.

Lemma valid_zero_diagonal (M : ndarray) (i : nat) :
  valid M -> i < len M -> (entry M i i == 0)%Q.
Proof.
  unfold valid, validb. rewrite !andb_true_iff.
  intros [_ H] Hi. unfold zero_diagonalb in H.
  rewrite forallb_forall in H. apply Qeq_bool_iff. apply H.
  apply in_seq. lia.
Qed.

Lemma separated_positive (M : ndarray) (i j : nat) :
  separated M -> i < len M -> j < len M -> i <> j -> (0 < entry M i j)%Q.
Proof.
  unfold separated, separatedb. intros H Hi Hj Hne.
  pose proof (proj1 (all_pairs_spec _ _) H i j Hi Hj) as E.
  apply orb_true_iff in E. destruct E as [E|E].
  - apply Nat.eqb_eq in E. contradiction.
  - apply Qltb_true. exact E.
Qed.

(** ** The distance array is the column-wise minimum *)

Lemma fold_Qmin_ext (A : Type) (f g : A -> Q) (ls : list A) (x y : Q) :
  (forall l, In l ls -> (f l == g l)%Q) -> (x == y)%Q ->
  (fold_left Qmin (map f ls) x == fold_left Qmin (map g ls) y)%Q.
Proof.
  revert x y. induction ls as [|l ls IH]; intros x y Hfg Hxy; simpl.
  - exact Hxy.
  - apply IH.
    + intros l' Hl'. apply Hfg. now right.
    + apply Q.min_compat; [exact Hxy | apply Hfg; now left].
Qed.

Section Colmin.

Variable M : ndarray.
Hypothesis Hsq : squareb M = true.

Let N := len M.

Lemma colmin_snoc (S : list nat) (x : nat) :
  S <> [] -> colmin M (S ++ [x]) = minimum (colmin M S) (row M x).
Proof.
  destruct S as [|l ls]; [congruence|]. intros _. simpl.
  rewrite map_app, fold_left_app. reflexivity.
Qed.

Lemma fold_minimum_length (rs : list (list Q)) (r : list Q) :
  length r = N -> Forall (fun r' => length r' = N) rs ->
  length (fold_left minimum rs r) = N.
Proof.
  revert r. induction rs as [|r' rs IH]; intros r Hr Hrs; simpl.
  - exact Hr.
  - inversion Hrs as [|? ? Hr' Hrs']; subst. apply IH; [|exact Hrs'].
    rewrite minimum_length. lia.
Qed.

Lemma fold_minimum_nth (rs : list (list Q)) (r : list Q) (p : nat) :
  length r = N -> Forall (fun r' => length r' = N) rs -> p < N ->
  nth p (fold_left minimum rs r) 0%Q =
  fold_left Qmin (map (fun r' => nth p r' 0%Q) rs) (nth p r 0%Q).
Proof.
  revert r. induction rs as [|r' rs IH]; intros r Hr Hrs Hp; simpl.
  - reflexivity.
  - inversion Hrs as [|? ? Hr' Hrs']; subst.
    rewrite IH; [|rewrite minimum_length; lia|exact Hrs'|exact Hp].
    rewrite minimum_nth by lia. reflexivity.
Qed.

Lemma rows_square (ls : list nat) :
  Forall (fun i => i < N) ls ->
  Forall (fun r' => length r' = N) (map (row M) ls).
Proof.
  induction 1 as [|l ls Hl _ IH]; simpl; constructor; auto.
  apply squareb_row; assumption.
Qed.

Lemma colmin_length (S : list nat) :
  S <> [] -> Forall (fun i => i < N) S -> length (colmin M S) = N.
Proof.
  destruct S as [|l ls]; [congruence|]. intros _ H.
  inversion H as [|? ? Hl Hls]; subst. simpl.
  apply fold_minimum_length.
  - apply squareb_row; assumption.
  - apply rows_square. exact Hls.
Qed.

(** Position [p] of the array holds the minimum of column [p] over the
    selected rows. *)
Lemma colmin_nth (l : nat) (ls : list nat) (p : nat) :
  Forall (fun i => i < N) (l :: ls) -> p < N ->
  nth p (colmin M (l :: ls)) 0%Q =
  fold_left Qmin (map (fun l' => entry M l' p) ls) (entry M l p).
Proof.
  intros H Hp. inversion H as [|? ? Hl Hls]; subst. simpl.
  rewrite fold_minimum_nth.
  - rewrite map_map. reflexivity.
  - apply squareb_row; assumption.
  - apply rows_square. exact Hls.
  - exact Hp.
Qed.

Lemma colmin_le_entry (S : list nat) (l p : nat) :
  Forall (fun i => i < N) S -> In l S -> p < N ->
  (nth p (colmin M S) 0 <= entry M l p)%Q.
Proof.
  intros H Hl Hp. destruct S as [|l0 ls]; [destruct Hl|].
  rewrite colmin_nth by assumption.
  destruct Hl as [->|Hl].
  - apply (proj1 (fold_Qmin_le _ _)).
  - apply (proj2 (fold_Qmin_le _ _)).
    apply (in_map (fun l' => entry M l' p)). exact Hl.
Qed.

Lemma colmin_is_entry (S : list nat) (p : nat) :
  S <> [] -> Forall (fun i => i < N) S -> p < N ->
  exists l, In l S /\ (nth p (colmin M S) 0 == entry M l p)%Q.
Proof.
  intros Hne H Hp. destruct S as [|l0 ls]; [congruence|].
  rewrite colmin_nth by assumption.
  destruct (fold_Qmin_in (map (fun l' => entry M l' p) ls) (entry M l0 p))
    as (y & [Hy|Hy] & E).
  - exists l0. split; [now left|]. rewrite E, <- Hy. reflexivity.
  - apply in_map_iff in Hy. destruct Hy as (l & <- & Hl).
    exists l. split; [now right | exact E].
Qed.

(** Adding a row can only lower the array. *)
Lemma colmin_app_le (S T : list nat) (p : nat) :
  S <> [] -> Forall (fun i => i < N) S -> Forall (fun i => i < N) T ->
  p < N ->
  (nth p (colmin M (S ++ T)) 0 <= nth p (colmin M S) 0)%Q.
Proof.
  intros Hne HS HT Hp.
  destruct (colmin_is_entry S p Hne HS Hp) as (l & Hl & E).
  rewrite E. apply colmin_le_entry.
  - apply Forall_app. split; assumption.
  - apply in_or_app. now left.
  - exact Hp.
Qed.

End Colmin.

(** ** The loop of maxmin *)

Lemma maxmin_loop_app (M : ndarray) (k m : nat) (L : list nat) (d : list Q) :
  maxmin_loop M (k + m) L d =
  ('(L1, d1) <- maxmin_loop M k L d ;; maxmin_loop M m L1 d1).
Proof.
  revert L d. induction k as [|k IH]; intros L d; simpl.
  - reflexivity.
  - destruct (argmax d) as [ind|e]; simpl; [|reflexivity].
    destruct (getrow M (last (L ++ [ind]) 0)) as [r|e]; simpl; [|reflexivity].
    apply IH.
Qed.

Section Loop.

Variable M : ndarray.
Hypothesis Hsq : squareb M = true.
Hypothesis Hpos : 0 < len M.

Let N := len M.

Lemma colmin_argmax (L : list nat) :
  L <> [] -> Forall (fun i => i < N) L ->
  exists ind, argmax (colmin M L) = Ok ind /\ ind < N.
Proof.
  intros Hne HL.
  pose proof (colmin_length M Hsq L Hne HL) as Hlen.
  destruct (argmax_ok (colmin M L)) as [ind Hind].
  - intro E. rewrite E in Hlen. simpl in Hlen. unfold N in *. lia.
  - exists ind. split; [exact Hind|].
    destruct (argmax_spec _ _ Hind) as [H _]. rewrite Hlen in H. exact H.
Qed.

Lemma maxmin_loop_spec (k : nat) (L : list nat) :
  L <> [] -> Forall (fun i => i < N) L ->
  exists ext,
    maxmin_loop M k L (colmin M L) = Ok (L ++ ext, colmin M (L ++ ext)) /\
    length ext = k /\
    Forall (fun i => i < N) ext /\
    (forall j, length L <= j < length L + k ->
               argmax (colmin M (firstn j (L ++ ext))) =
               Ok (nth j (L ++ ext) 0)).
Proof.
  revert L. induction k as [|k IH]; intros L Hne HL.
  - exists []. rewrite app_nil_r. simpl. repeat split; auto. intros j Hj. lia.
  - destruct (colmin_argmax L Hne HL) as (ind & Hind & Hlt).
    assert (Hne' : L ++ [ind] <> []) by (destruct L; discriminate).
    assert (HL' : Forall (fun i => i < N) (L ++ [ind]))
      by (apply Forall_app; split; [exact HL | constructor; auto]).
    destruct (IH (L ++ [ind]) Hne' HL') as (ext & Hrun & Hlen & Hext & Hgr).
    exists (ind :: ext).
    replace (L ++ ind :: ext) with ((L ++ [ind]) ++ ext)
      by (rewrite <- app_assoc; reflexivity).
    repeat split.
    + simpl. rewrite Hind. simpl. rewrite last_last.
      rewrite (getrow_row M ind Hlt). simpl.
      rewrite <- (colmin_snoc M L ind Hne). exact Hrun.
    + simpl. lia.
    + constructor; assumption.
    + intros j Hj. destruct (Nat.eq_dec j (length L)) as [->|Hne2].
      * rewrite <- app_assoc. rewrite firstn_app, firstn_all, Nat.sub_diag.
        simpl. rewrite app_nil_r. rewrite nth_middle. exact Hind.
      * apply Hgr. rewrite length_app. simpl. lia.
Qed.

Lemma randint_ok (g : rng) :
  exists r, randint 0 N g = Ok (r, fun i => g (S i)) /\ r < N.
Proof.
  unfold randint. destruct (N <=? 0) eqn:E.
  - apply Nat.leb_le in E. unfold N in E. lia.
  - simpl. eexists. split; [reflexivity|].
    rewrite Nat.sub_0_r.
    apply Nat.mod_upper_bound. unfold N. lia.
Qed.

(** What [maxmin] has computed when its loop ends. *)
Lemma maxmin_sweep_spec (n : Z) (g : rng) :
  exists r ext g',
    randint 0 N g = Ok (r, g') /\
    maxmin_sweep M n g = Ok (r :: ext, colmin M (r :: ext), g') /\
    length ext = range (n - 1) /\
    Forall (fun i => i < N) (r :: ext) /\
    greedy M (r :: ext).
Proof.
  destruct (randint_ok g) as (r & Hr & Hlt).
  assert (HL : Forall (fun i => i < N) [r]) by (constructor; auto).
  destruct (maxmin_loop_spec (range (n - 1)) [r] ltac:(discriminate) HL)
    as (ext & Hrun & Hlen & Hext & Hgr).
  exists r, ext, (fun i => g (S i)). repeat split.
  - exact Hr.
  - unfold maxmin_sweep. fold N. rewrite Hr. simpl.
    rewrite (getrow_row M r Hlt). simpl.
    simpl in Hrun. rewrite Hrun. reflexivity.
  - exact Hlen.
  - constructor; assumption.
  - intros j Hj. apply (Hgr j). simpl in *. lia.
Qed.

(** Asking for more points extends the list and keeps its beginning. *)
Lemma maxmin_sweep_extend (n n' : Z) (g g' : rng) (L : list nat) :
  (1 <= n <= n')%Z ->
  maxmin_sweep M n g = Ok (L, colmin M L, g') ->
  L <> [] -> Forall (fun i => i < N) L ->
  exists T,
    maxmin_sweep M n' g = Ok (L ++ T, colmin M (L ++ T), g') /\
    length T = Z.to_nat (n' - n) /\
    Forall (fun i => i < N) T.
Proof.
  intros Hn Hrun Hne HL.
  destruct (maxmin_loop_spec (Z.to_nat (n' - n)) L Hne HL)
    as (T & HT & HTlen & HTlt & _).
  exists T. split; [|split; [exact HTlen | exact HTlt]].
  unfold maxmin_sweep in *.
  destruct (randint 0 (len M) g) as [[r g1]|e]; simpl in *; [|discriminate].
  destruct (getrow M r) as [d|e]; simpl in *; [|discriminate].
  replace (range (n' - 1)) with (range (n - 1) + Z.to_nat (n' - n))
    by (unfold range; lia).
  rewrite maxmin_loop_app.
  destruct (maxmin_loop M (range (n - 1)) [r] d) as [[L1 d1]|e];
    simpl in *; [|discriminate].
  injection Hrun as -> -> ->. rewrite HT. reflexivity.
Qed.

End Loop.

(** ** Results of the two functions *)

Lemma maxmin_returns (M : ndarray) (n : Z) (g : rng) :
  squareb M = true -> 0 < len M ->
  exists r ext cr g',
    randint 0 (len M) g = Ok (r, g') /\
    maxmin M n g = Ok (r :: ext, cr, g') /\
    amax (colmin M (r :: ext)) = Ok cr /\
    length ext = range (n - 1) /\
    Forall (fun i => i < len M) (r :: ext) /\
    greedy M (r :: ext).
Proof.
  intros Hsq Hpos.
  destruct (maxmin_sweep_spec M Hsq Hpos n g)
    as (r & ext & g' & Hr & Hrun & Hlen & HL & Hgr).
  destruct (amax_ok (colmin M (r :: ext))) as [cr Hcr].
  - intro E.
    pose proof (colmin_length M Hsq (r :: ext) ltac:(discriminate) HL) as Hl.
    rewrite E in Hl. simpl in Hl. lia.
  - exists r, ext, cr, g'. repeat split; try assumption.
    unfold maxmin. rewrite Hrun. cbn [bind]. rewrite Hcr. reflexivity.
Qed.

Lemma draws_length (k a : nat) (g : rng) :
  length (fst (draws k a g)) = k.
Proof.
  revert g. induction k as [|k IH]; intro g; simpl; [reflexivity|].
  specialize (IH (fun i => g (S i))).
  destruct (draws k a (fun i => g (S i))) as [xs g2]. simpl in *. lia.
Qed.

Lemma draws_range (k a : nat) (g : rng) :
  0 < a -> Forall (fun i => i < a) (fst (draws k a g)).
Proof.
  intro Ha. revert g. induction k as [|k IH]; intro g; simpl; [constructor|].
  specialize (IH (fun i => g (S i))).
  destruct (draws k a (fun i => g (S i))) as [xs g2]. simpl in *.
  constructor; [apply Nat.mod_upper_bound; lia | exact IH].
Qed.

(** Any sequence of indices below [a] is the outcome of the draws under the
    random state that holds it. *)
Lemma draws_any (a : nat) (L : list nat) :
  Forall (fun i => i < a) L ->
  fst (draws (length L) a (fun i => nth i L 0)) = L.
Proof.
  induction 1 as [|x L Hx _ IH]; simpl; [reflexivity|].
  destruct (draws (length L) a (fun i => nth i L 0)) as [xs g2].
  simpl in *. rewrite Nat.mod_small by exact Hx. congruence.
Qed.

Lemma uniform_sampling_returns (M : ndarray) (n : Z) (g : rng) :
  squareb M = true -> 0 < len M -> (1 <= n)%Z ->
  exists L cr g',
    draws (Z.to_nat n) (len M) g = (L, g') /\
    uniform_sampling M n g = Ok (L, cr, g') /\
    amax (colmin M L) = Ok cr /\
    length L = Z.to_nat n /\
    Forall (fun i => i < len M) L.
Proof.
  intros Hsq Hpos Hn.
  pose proof (draws_length (Z.to_nat n) (len M) g) as Hlen.
  pose proof (draws_range (Z.to_nat n) (len M) g Hpos) as Hrg.
  destruct (draws (Z.to_nat n) (len M) g) as [L g'] eqn:Hd. simpl in *.
  assert (Hne : L <> []) by (intro E; subst L; simpl in Hlen; lia).
  destruct (amax_ok (colmin M L)) as [cr Hcr].
  - intro E. pose proof (colmin_length M Hsq L Hne Hrg) as Hl.
    rewrite E in Hl. simpl in Hl. lia.
  - exists L, cr, g'. repeat split; auto.
    unfold uniform_sampling, choice.
    destruct (n <? 0)%Z eqn:E1; [apply Z.ltb_lt in E1; lia|].
    destruct (len M =? 0) eqn:E2; [apply Nat.eqb_eq in E2; lia|].
    simpl. rewrite Hd. simpl. rewrite (take_rows_ok M L Hrg). simpl.
    destruct L as [|l ls]; [congruence|]. simpl.
    simpl in Hcr. rewrite Hcr. reflexivity.
Qed.

(** ** The distance array against the brute-force recomputation *)

Lemma colmin_dist_to_set (M : ndarray) (S : list nat) (p : nat) :
  valid M -> S <> [] -> Forall (fun i => i < len M) S -> p < len M ->
  (nth p (colmin M S) 0 == dist_to_set M S p)%Q.
Proof.
  intros Hv Hne HS Hp. destruct S as [|l ls]; [congruence|].
  rewrite (colmin_nth M (valid_square M Hv)) by assumption.
  inversion HS as [|? ? Hl Hls]; subst. simpl.
  apply fold_Qmin_ext.
  - intros l' Hl'. apply valid_symmetric; auto.
    rewrite Forall_forall in Hls. apply Hls. exact Hl'.
  - apply valid_symmetric; auto.
Qed.

Lemma covering_radius_amax (M : ndarray) (S : list nat) :
  S <> [] ->
  covering_radius M S =
  match amax (map (dist_to_set M S) (seq 0 (len M))) with
  | Ok b => Some b
  | Raise _ => None
  end.
Proof.
  destruct S as [|l ls]; [congruence|]. intros _.
  unfold covering_radius.
  destruct (map (dist_to_set M (l :: ls)) (seq 0 (len M))); reflexivity.
Qed.

Lemma nth_map_seq (f : nat -> Q) (N k : nat) :
  k < N -> nth k (map f (seq 0 N)) 0%Q = f k.
Proof.
  intro Hk. rewrite (nth_indep _ 0%Q (f 0)) by (rewrite length_map, length_seq; lia).
  rewrite (map_nth f). rewrite seq_nth by lia. reflexivity.
Qed.

Lemma covering_radius_colmin (M : ndarray) (S : list nat) (cr : Q) :
  valid M -> S <> [] -> Forall (fun i => i < len M) S ->
  amax (colmin M S) = Ok cr ->
  exists b, covering_radius M S = Some b /\ (cr == b)%Q.
Proof.
  intros Hv Hne HS Hcr.
  pose proof (colmin_length M (valid_square M Hv) S Hne HS) as Hlen.
  assert (Hpos : 0 < len M).
  { destruct (colmin M S); [discriminate|]. simpl in Hlen. lia. }
  rewrite (covering_radius_amax M S Hne).
  destruct (amax_ok (map (dist_to_set M S) (seq 0 (len M)))) as [b Hb].
  - destruct (len M); [lia|]. discriminate.
  - rewrite Hb. exists b. split; [reflexivity|]. symmetry.
    apply (amax_ext _ _ cr b Hcr Hb).
    + rewrite length_map, length_seq. lia.
    + intros k Hk. rewrite Hlen in Hk. rewrite nth_map_seq by exact Hk.
      symmetry. apply colmin_dist_to_set; assumption.
Qed.

(** ** Distinctness of the selected indices *)

Lemma firstn_snoc (L : list nat) (j : nat) :
  j < length L -> firstn (S j) L = firstn j L ++ [nth j L 0].
Proof.
  revert j. induction L as [|x L IH]; intros j Hj; simpl in Hj; [lia|].
  destruct j as [|j]; [reflexivity|].
  change (firstn (S (S j)) (x :: L)) with (x :: firstn (S j) L).
  rewrite IH by lia. reflexivity.
Qed.

Lemma Forall_firstn (P : nat -> Prop) (L : list nat) (j : nat) :
  Forall P L -> Forall P (firstn j L).
Proof.
  intro H. revert j. induction H as [|x L Hx _ IH]; intros [|j]; simpl;
    constructor; auto.
Qed.

(** Fewer than [N] distinct indices below [N] leave one out. *)
Lemma missing_index (N : nat) (S : list nat) :
  NoDup S -> length S < N -> exists p, p < N /\ ~ In p S.
Proof.
  intros _ Hlen.
  destruct (filter (fun p => negb (existsb (Nat.eqb p) S)) (seq 0 N))
    as [|p rest] eqn:E.
  - exfalso.
    assert (Hincl : incl (seq 0 N) S).
    { intros p Hp.
      destruct (existsb (Nat.eqb p) S) eqn:Ex.
      - apply existsb_exists in Ex. destruct Ex as (q & Hq & Hpq).
        apply Nat.eqb_eq in Hpq. subst q. exact Hq.
      - assert (Hin : In p (filter (fun p => negb (existsb (Nat.eqb p) S))
                                   (seq 0 N)))
          by (apply filter_In; split; [exact Hp | rewrite Ex; reflexivity]).
        rewrite E in Hin. destruct Hin. }
    pose proof (NoDup_incl_length (seq_NoDup N 0) Hincl) as Hle.
    rewrite length_seq in Hle. lia.
  - assert (Hin : In p (filter (fun p => negb (existsb (Nat.eqb p) S))
                               (seq 0 N)))
      by (rewrite E; now left).
    apply filter_In in Hin. destruct Hin as [Hp Hn].
    exists p. split; [apply in_seq in Hp; lia|].
    intro Hps. apply negb_true_iff in Hn.
    assert (existsb (Nat.eqb p) S = true)
      by (apply existsb_exists; exists p; split; [exact Hps | apply Nat.eqb_refl]).
    congruence.
Qed.

Section Distinct.

Variable M : ndarray.
Hypothesis Hv : valid M.
Hypothesis Hsep : separated M.

Let N := len M.

(** A selected point is at distance zero from the selection. *)
Lemma colmin_selected (S : list nat) (p : nat) :
  Forall (fun i => i < N) S -> In p S ->
  (nth p (colmin M S) 0 == 0)%Q.
Proof.
  intros HS Hp.
  assert (Hlt : p < N) by (rewrite Forall_forall in HS; auto).
  assert (Hne : S <> []) by (intro E; subst S; destruct Hp).
  apply Qle_antisym.
  - eapply Qle_trans.
    + apply (colmin_le_entry M (valid_square M Hv) S p p HS Hp Hlt).
    + rewrite (valid_zero_diagonal M p Hv Hlt). apply Qle_refl.
  - destruct (colmin_is_entry M (valid_square M Hv) S p Hne HS Hlt)
      as (l & Hl & E).
    rewrite E. apply valid_nonnegative; auto.
    rewrite Forall_forall in HS. auto.
Qed.

(** A point that is not selected is at positive distance from it. *)
Lemma colmin_unselected (S : list nat) (p : nat) :
  S <> [] -> Forall (fun i => i < N) S -> p < N -> ~ In p S ->
  (0 < nth p (colmin M S) 0)%Q.
Proof.
  intros Hne HS Hlt Hp.
  destruct (colmin_is_entry M (valid_square M Hv) S p Hne HS Hlt)
    as (l & Hl & E).
  rewrite E. apply separated_positive; auto.
  - rewrite Forall_forall in HS. auto.
  - intro Heq. subst l. contradiction.
Qed.

Lemma greedy_prefix_NoDup (L : list nat) (j : nat) :
  L <> [] -> Forall (fun i => i < N) L -> greedy M L ->
  j <= length L -> j <= N -> NoDup (firstn j L).
Proof.
  intros Hne HL Hgr. induction j as [|j IH]; intros Hj HjN.
  - constructor.
  - rewrite firstn_snoc by lia.
    destruct j as [|j].
    + simpl. constructor; [intros [] | constructor].
    + set (S := firstn (Datatypes.S j) L) in *.
      assert (HS : Forall (fun i => i < N) S)
        by (apply Forall_firstn; exact HL).
      assert (HSne : S <> [])
        by (unfold S; destruct L; [congruence | discriminate]).
      assert (HSlen : length S = Datatypes.S j)
        by (unfold S; rewrite length_firstn; lia).
      assert (HSnd : NoDup S) by (apply IH; lia).
      apply NoDup_app; [exact HSnd | constructor; [intros [] | constructor] |].
      intros a Ha [<-|[]].
      destruct (missing_index N S HSnd ltac:(lia)) as (p & Hp & Hpn).
      pose proof (colmin_unselected S p HSne HS Hp Hpn) as Hpos.
      pose proof (colmin_selected S _ HS Ha) as Hzero.
      assert (Harg : argmax (colmin M S) = Ok (nth (Datatypes.S j) L 0))
        by (apply Hgr; lia).
      destruct (argmax_spec _ _ Harg) as (_ & Hmax & _).
      specialize (Hmax p).
      rewrite (colmin_length M (valid_square M Hv) S HSne HS) in Hmax.
      specialize (Hmax Hp). rewrite Hzero in Hmax.
      exact (Qlt_not_le _ _ Hpos Hmax).
Qed.

Lemma greedy_NoDup (L : list nat) :
  L <> [] -> Forall (fun i => i < N) L -> greedy M L ->
  length L <= N -> NoDup L.
Proof.
  intros Hne HL Hgr Hlen.
  rewrite <- (firstn_all L).
  apply greedy_prefix_NoDup; auto.
Qed.

End Distinct.

Lemma maxmin_of_sweep (M : ndarray) (n : Z) (g g' : rng)
    (L : list nat) (d : list Q) (cr : Q) :
  maxmin_sweep M n g = Ok (L, d, g') -> amax d = Ok cr ->
  maxmin M n g = Ok (L, cr, g').
Proof.
  intros Hs Hcr. unfold maxmin. rewrite Hs. cbn [bind]. rewrite Hcr.
  reflexivity.
Qed.

Lemma colmin_amax_ok (M : ndarray) (S : list nat) :
  squareb M = true -> 0 < len M ->
  S <> [] -> Forall (fun i => i < len M) S ->
  exists cr, amax (colmin M S) = Ok cr.
Proof.
  intros Hsq Hpos Hne HS. apply amax_ok. intro E.
  pose proof (colmin_length M Hsq S Hne HS) as Hl.
  rewrite E in Hl. simpl in Hl. lia.
Qed.

(** ** Runs on the example inputs *)

Example maxmin_unit_square :
  outcome (maxmin unit_square 2 (tape [0])) = Ok ([0; 2], 1%Q).
Proof. reflexivity. Qed.

Example maxmin_unit_square_all :
  outcome (maxmin unit_square 4 (tape [0])) = Ok ([0; 2; 1; 3], 0%Q).
Proof. reflexivity. Qed.

Example maxmin_line3_more :
  outcome (maxmin line3 5 (tape [1])) = Ok ([1; 2; 0; 0; 0], 0%Q).
Proof. reflexivity. Qed.

Example maxmin_line3_none :
  outcome (maxmin line3 0 (tape [2])) = Ok ([2], 3%Q).
Proof. reflexivity. Qed.

Example maxmin_empty :
  outcome (maxmin [] 1 (tape [0])) = Raise (ValueError op_randint).
Proof. reflexivity. Qed.

Example uniform_sampling_line3 :
  outcome (uniform_sampling line3 4 (tape [2; 1; 2; 0])) =
  Ok ([2; 1; 2; 0], 0%Q).
Proof. reflexivity. Qed.

Example uniform_sampling_line3_two :
  outcome (uniform_sampling line3 2 (tape [1; 1])) = Ok ([1; 1], 2%Q) /\
  covering_radius line3 [1; 1] = Some 2%Q.
Proof. split; reflexivity. Qed.

Example uniform_sampling_negative :
  outcome (uniform_sampling line3 (-1) (tape [])) =
  Raise (ValueError op_choice).
Proof. reflexivity. Qed.

Example plot_barcodes_two :
  plot_barcodes [0; 1] 2 (mkPlot dgms []) =
  (Ok tt,
   mkPlot (dgms ++ [[(Fin 0, Fin (1 # 2)); (Fin 0, Fin 2)];
                    [(Fin (3 # 4), Fin (3 # 2))]])
          [Suptitle;
           Plot 0 (Fin 0, Fin (1 # 2)) 1; Plot 0 (Fin 0, Fin 2) 2;
           Scatter 0 2 2; Frame 0 2 3;
           Plot 1 (Fin (3 # 4), Fin (3 # 2)) 1; Frame 1 2 2]).
Proof. reflexivity. Qed.

(** With a single diagram [plt.subplots(1)] gives one [Axes], and [axs[0]]
    raises. *)
Example plot_barcodes_one :
  fst (plot_barcodes [0] 2 (mkPlot dgms [])) = Raise (TypeError op_subscript).
Proof. reflexivity. Qed.

(** * The claims *)

(** ** C1 *)

(** C1, as stated, fails: on the valid distance matrix [twice] of two
    coinciding points, with the first pick 0 and n = 2 = N, [maxmin] returns
    the list [0; 0], which has a duplicate. *)
Lemma maxmin_distinct_counterexample :
  valid twice /\ (1 <= 2 <= Z.of_nat (len twice))%Z /\
  ~ (exists L cr g',
        maxmin twice 2 (tape [0]) = Ok (L, cr, g') /\
        length L = 2 /\ NoDup L /\ Forall (fun i => i < len twice) L).
Proof.
  split; [reflexivity|]. split; [simpl; lia|].
  intros (L & cr & g' & H & _ & Hnd & _).
  vm_compute in H. injection H as <- _ _.
  inversion Hnd as [|? ? Hin _]. apply Hin. now left.
Qed.

(** C1 (amended): for every valid distance matrix of N points in which
    distinct points are at positive distance, and every n with
    1 <= n <= N, [maxmin] returns a list of exactly n indices without
    duplicates, each in the range [0, N). *)
Theorem maxmin_distinct (M : ndarray) (n : Z) (g : rng) :
  valid M -> separated M -> (1 <= n <= Z.of_nat (len M))%Z ->
  exists L cr g',
    maxmin M n g = Ok (L, cr, g') /\
    Z.of_nat (length L) = n /\ NoDup L /\ Forall (fun i => i < len M) L.
Proof.
  intros Hv Hsep Hn.
  destruct (maxmin_returns M n g (valid_square M Hv) ltac:(lia))
    as (r & ext & cr & g' & _ & Hrun & _ & Hlen & HL & Hgr).
  exists (r :: ext), cr, g'.
  assert (Hlen' : length (r :: ext) = Z.to_nat n)
    by (simpl; rewrite Hlen; unfold range; lia).
  repeat split.
  - exact Hrun.
  - lia.
  - apply (greedy_NoDup M Hv Hsep); auto; [discriminate | lia].
  - exact HL.
Qed.

Lemma maxmin_distinct_witness :
  valid line3 /\ separated line3 /\ (1 <= 3 <= Z.of_nat (len line3))%Z /\
  exists L cr g',
    maxmin line3 3 (tape [1]) = Ok (L, cr, g') /\
    Z.of_nat (length L) = 3%Z /\ NoDup L /\
    Forall (fun i => i < len line3) L.
Proof.
  assert (Hv : valid line3) by reflexivity.
  assert (Hs : separated line3) by reflexivity.
  assert (Hn : (1 <= 3 <= Z.of_nat (len line3))%Z) by (simpl; lia).
  split; [exact Hv|]. split; [exact Hs|]. split; [exact Hn|].
  exact (maxmin_distinct line3 3 (tape [1]) Hv Hs Hn).
Defined.

(** ** C2 *)

(** C2: for every valid distance matrix (of at least one point) and every
    sample size, the covering radius returned by [maxmin] equals the
    brute-force maximum over all points of the minimum distance to the
    returned indices; so does the one returned by [uniform_sampling], which
    returns for every n >= 1 and raises for n < 1. *)
Theorem covering_radius_brute_force (M : ndarray) (n : Z) (g : rng) :
  valid M -> 0 < len M ->
  (exists L cr g' b,
      maxmin M n g = Ok (L, cr, g') /\
      covering_radius M L = Some b /\ (cr == b)%Q) /\
  ((1 <= n)%Z ->
   exists L cr g' b,
     uniform_sampling M n g = Ok (L, cr, g') /\
     covering_radius M L = Some b /\ (cr == b)%Q) /\
  ((n < 1)%Z -> exists e, uniform_sampling M n g = Raise e).
Proof.
  intros Hv Hpos. pose proof (valid_square M Hv) as Hsq. repeat split.
  - destruct (maxmin_returns M n g Hsq Hpos)
      as (r & ext & cr & g' & _ & Hrun & Hcr & _ & HL & _).
    destruct (covering_radius_colmin M (r :: ext) cr Hv ltac:(discriminate)
                HL Hcr) as (b & Hb & E).
    exists (r :: ext), cr, g', b. auto.
  - intro Hn.
    destruct (uniform_sampling_returns M n g Hsq Hpos Hn)
      as (L & cr & g' & _ & Hrun & Hcr & Hlen & HL).
    assert (Hne : L <> []) by (intro E; subst L; simpl in Hlen; lia).
    destruct (covering_radius_colmin M L cr Hv Hne HL Hcr) as (b & Hb & E).
    exists L, cr, g', b. auto.
  - intro Hn. unfold uniform_sampling, choice.
    destruct (n <? 0)%Z eqn:E1; [eexists; reflexivity|].
    apply Z.ltb_ge in E1. assert (n = 0%Z) as -> by lia.
    destruct (len M =? 0) eqn:E2; [apply Nat.eqb_eq in E2; lia|].
    simpl. eexists. reflexivity.
Qed.

Lemma covering_radius_brute_force_witness :
  valid line3 /\ 0 < len line3 /\
  (exists L cr g' b,
      maxmin line3 2 (tape [1]) = Ok (L, cr, g') /\
      covering_radius line3 L = Some b /\ (cr == b)%Q) /\
  ((1 <= 2)%Z ->
   exists L cr g' b,
     uniform_sampling line3 2 (tape [1]) = Ok (L, cr, g') /\
     covering_radius line3 L = Some b /\ (cr == b)%Q) /\
  ((2 < 1)%Z -> exists e, uniform_sampling line3 2 (tape [1]) = Raise e).
Proof.
  assert (Hv : valid line3) by reflexivity.
  assert (Hp : 0 < len line3) by (simpl; lia).
  split; [exact Hv|]. split; [exact Hp|].
  exact (covering_radius_brute_force line3 2 (tape [1]) Hv Hp).
Defined.

(** ** C3 *)

(** C3: for a fixed valid distance matrix (of at least one point) and a
    fixed random state, the covering radius returned by [maxmin] is
    non-negative and does not increase with the sample size: for
    1 <= n <= n', cr(n') <= cr(n). *)
Theorem covering_radius_monotone (M : ndarray) (n n' : Z) (g : rng) :
  valid M -> 0 < len M -> (1 <= n <= n')%Z ->
  exists L cr L' cr' g',
    maxmin M n g = Ok (L, cr, g') /\
    maxmin M n' g = Ok (L', cr', g') /\
    (0 <= cr)%Q /\ (0 <= cr')%Q /\ (cr' <= cr)%Q.
Proof.
  intros Hv Hpos Hn. pose proof (valid_square M Hv) as Hsq.
  destruct (maxmin_sweep_spec M Hsq Hpos n g)
    as (r & ext & g' & _ & Hrun & _ & HL & _).
  set (L := r :: ext) in *.
  assert (Hne : L <> []) by discriminate.
  destruct (maxmin_sweep_extend M Hsq Hpos n n' g g' L Hn Hrun Hne HL)
    as (T & Hrun' & _ & HT).
  assert (HL' : Forall (fun i => i < len M) (L ++ T))
    by (apply Forall_app; split; assumption).
  assert (Hne' : L ++ T <> []) by (unfold L; discriminate).
  destruct (colmin_amax_ok M L Hsq Hpos Hne HL) as [cr Hcr].
  destruct (colmin_amax_ok M (L ++ T) Hsq Hpos Hne' HL') as [cr' Hcr'].
  pose proof (colmin_length M Hsq L Hne HL) as Hlen.
  pose proof (colmin_length M Hsq (L ++ T) Hne' HL') as Hlen'.
  assert (Hnonneg : forall S c, S <> [] -> Forall (fun i => i < len M) S ->
                                amax (colmin M S) = Ok c -> (0 <= c)%Q).
  { intros S c HSne HS Hc.
    destruct (amax_spec _ _ Hc) as [Hub _].
    pose proof (colmin_length M Hsq S HSne HS) as HlS.
    destruct (colmin_is_entry M Hsq S 0 HSne HS Hpos) as (l & Hl & E).
    eapply Qle_trans; [|apply (Hub 0); lia].
    rewrite E. apply valid_nonnegative; auto.
    rewrite Forall_forall in HS. auto. }
  exists L, cr, (L ++ T), cr', g'. repeat split.
  - exact (maxmin_of_sweep M n g g' L _ cr Hrun Hcr).
  - exact (maxmin_of_sweep M n' g g' (L ++ T) _ cr' Hrun' Hcr').
  - exact (Hnonneg L cr Hne HL Hcr).
  - exact (Hnonneg (L ++ T) cr' Hne' HL' Hcr').
  - apply (amax_mono _ _ cr cr' Hcr Hcr'); [lia|].
    intros k Hk. rewrite Hlen in Hk.
    apply (colmin_app_le M Hsq); assumption.
Qed.

Lemma covering_radius_monotone_witness :
  valid line3 /\ 0 < len line3 /\ (1 <= 1 <= 2)%Z /\
  exists L cr L' cr' g',
    maxmin line3 1 (tape [1]) = Ok (L, cr, g') /\
    maxmin line3 2 (tape [1]) = Ok (L', cr', g') /\
    (0 <= cr)%Q /\ (0 <= cr')%Q /\ (cr' <= cr)%Q.
Proof.
  assert (Hv : valid line3) by reflexivity.
  assert (Hp : 0 < len line3) by (simpl; lia).
  assert (Hn : (1 <= 1 <= 2)%Z) by lia.
  split; [exact Hv|]. split; [exact Hp|]. split; [exact Hn|].
  exact (covering_radius_monotone line3 1 2 (tape [1]) Hv Hp Hn).
Defined.

(** ** C4 *)

(** C4, as stated, fails on the covering radius: on the unit square, with
    the first pick 0 and n = 2, [maxmin] does select the opposite corner 2
    (at distance [sqrt2], the diagonal), but the covering radius it returns
    is 1, the side, and not half the diagonal. *)
Lemma maxmin_square_counterexample :
  valid unit_square /\
  entry unit_square 0 2 = sqrt2 /\
  ~ (exists L cr g',
        maxmin unit_square 2 (tape [0]) = Ok (L, cr, g') /\
        nth 1 L 0 = 2 /\ (cr == sqrt2 / 2)%Q).
Proof.
  split; [reflexivity|]. split; [reflexivity|].
  intros (L & cr & g' & H & _ & E).
  vm_compute in H. injection H as _ <- _.
  vm_compute in E. discriminate.
Qed.

(** C4 (amended): for the distance matrix of the four corners of a square
    of side s and diagonal d (0 < s < d), [maxmin] with n = 2 under a random
    state that picks corner 0 first returns the diagonally opposite corner
    (at distance d) as the second index, and a covering radius equal to the
    side s. *)
Theorem maxmin_square (o : nat) (s d : Q) (g : rng) :
  1 <= o <= 3 -> (0 < s)%Q -> (s < d)%Q -> g 0 mod 4 = 0 ->
  exists cr g',
    maxmin (square_matrix o s d) 2 g = Ok ([0; o], cr, g') /\
    entry (square_matrix o s d) 0 o = d /\
    (cr == s)%Q.
Proof.
  intros Ho Hs Hd Hg.
  assert (T1 : Qltb 0 s = true) by (apply Qltb_true; lra).
  assert (T2 : Qltb 0 d = true) by (apply Qltb_true; lra).
  assert (T3 : Qltb s d = true) by (apply Qltb_true; lra).
  assert (F1 : Qltb d s = false) by (apply Qltb_false; lra).
  assert (F2 : Qltb s s = false) by (apply Qltb_false; lra).
  assert (E1 : (Qmin 0 d == 0)%Q) by (apply Q.min_l; lra).
  assert (E2 : (Qmin d 0 == 0)%Q) by (apply Q.min_r; lra).
  assert (E3 : (Qmin s s == s)%Q) by apply Q.min_id.
  assert (E4 : (Qmax 0 s == s)%Q) by (apply Q.max_r; lra).
  assert (E5 : (Qmax s 0 == s)%Q) by (apply Q.max_l; lra).
  assert (E6 : (Qmax s s == s)%Q) by apply Q.max_id.
  assert (E7 : (Qmax 0 0 == 0)%Q) by apply Q.max_id.
  unfold maxmin, maxmin_sweep, randint.
  change (range (2 - 1)) with 1.
  assert (o = 1 \/ o = 2 \/ o = 3) as [-> | [-> | ->]] by lia;
    square_run Hg; rewrite ?T1, ?T2, ?T3, ?F1, ?F2;
    cbn -[Qmin Qmax Qltb Nat.modulo];
    (do 2 eexists; split; [reflexivity|]; split; [reflexivity|]);
    rewrite ?E1, ?E2, ?E3;
    repeat (rewrite E4 || rewrite E5 || rewrite E6 || rewrite E7);
    reflexivity.
Qed.

Lemma maxmin_square_witness :
  1 <= 2 <= 3 /\ (0 < 1)%Q /\ (1 < sqrt2)%Q /\ tape [0] 0 mod 4 = 0 /\
  exists cr g',
    maxmin (square_matrix 2 1 sqrt2) 2 (tape [0]) = Ok ([0; 2], cr, g') /\
    entry (square_matrix 2 1 sqrt2) 0 2 = sqrt2 /\
    (cr == 1)%Q.
Proof.
  assert (Ho : 1 <= 2 <= 3) by lia.
  assert (Hs : (0 < 1)%Q) by reflexivity.
  assert (Hd : (1 < sqrt2)%Q) by reflexivity.
  assert (Hg : tape [0] 0 mod 4 = 0) by reflexivity.
  split; [exact Ho|]. split; [exact Hs|]. split; [exact Hd|].
  split; [exact Hg|].
  exact (maxmin_square 2 1 sqrt2 (tape [0]) Ho Hs Hd Hg).
Defined.

(** ** C5 *)

(** C5, as stated, fails for the sample size n = 0: on a valid distance
    matrix [uniform_sampling] then raises the [ValueError] of [np.min] over
    a zero-size selection instead of returning zero indices. *)
Lemma uniform_sampling_indices_counterexample :
  valid line3 /\
  uniform_sampling line3 0 (tape []) = Raise (ValueError op_min) /\
  ~ (exists L cr g',
        uniform_sampling line3 0 (tape []) = Ok (L, cr, g') /\
        Z.of_nat (length L) = 0%Z /\ Forall (fun i => i < len line3) L).
Proof.
  split; [reflexivity|]. split; [reflexivity|].
  intros (L & cr & g' & H & _). vm_compute in H. discriminate.
Qed.

Lemma repeat_dup (x k : nat) : 2 <= k -> ~ NoDup (repeat x k).
Proof.
  destruct k as [|[|k]]; try lia. intros _ H. simpl in H.
  inversion H as [|? ? Hin _]. apply Hin. now left.
Qed.

(** C5 (amended): for every valid distance matrix of N >= 1 points and every
    sample size n >= 1, [uniform_sampling] returns exactly n indices, each
    in the range [0, N); the draws are with replacement: every sequence of n
    indices of [0, N) is returned under some random state, so for n >= 2
    the result can hold duplicates. *)
Theorem uniform_sampling_indices (M : ndarray) (n : Z) :
  valid M -> 0 < len M -> (1 <= n)%Z ->
  (forall g, exists L cr g',
      uniform_sampling M n g = Ok (L, cr, g') /\
      Z.of_nat (length L) = n /\ Forall (fun i => i < len M) L) /\
  (forall L, Z.of_nat (length L) = n -> Forall (fun i => i < len M) L ->
      exists cr g', uniform_sampling M n (tape L) = Ok (L, cr, g')) /\
  ((2 <= n)%Z ->
   exists g L cr g', uniform_sampling M n g = Ok (L, cr, g') /\ ~ NoDup L).
Proof.
  intros Hv Hpos Hn. pose proof (valid_square M Hv) as Hsq.
  assert (Hany : forall L, Z.of_nat (length L) = n ->
                           Forall (fun i => i < len M) L ->
            exists cr g', uniform_sampling M n (tape L) = Ok (L, cr, g')).
  { intros L Hlen HL.
    destruct (uniform_sampling_returns M n (tape L) Hsq Hpos Hn)
      as (L' & cr & g' & Hd & Hrun & _).
    pose proof (draws_any (len M) L HL) as Hfst.
    replace (length L) with (Z.to_nat n) in Hfst by lia.
    unfold tape in Hd. rewrite Hd in Hfst. simpl in Hfst. subst L'.
    exists cr, g'. exact Hrun. }
  repeat split.
  - intro g.
    destruct (uniform_sampling_returns M n g Hsq Hpos Hn)
      as (L & cr & g' & _ & Hrun & _ & Hlen & HL).
    exists L, cr, g'. repeat split; [exact Hrun | lia | exact HL].
  - exact Hany.
  - intro H2. set (L := repeat 0 (Z.to_nat n)).
    destruct (Hany L) as (cr & g' & Hrun).
    + unfold L. rewrite repeat_length. lia.
    + apply Forall_forall. intros x Hx. apply repeat_spec in Hx. lia.
    + exists (tape L), L, cr, g'. split; [exact Hrun|].
      apply repeat_dup. lia.
Qed.

Lemma uniform_sampling_indices_witness :
  valid line3 /\ 0 < len line3 /\ (1 <= 4)%Z /\
  (forall g, exists L cr g',
      uniform_sampling line3 4 g = Ok (L, cr, g') /\
      Z.of_nat (length L) = 4%Z /\ Forall (fun i => i < len line3) L) /\
  (forall L, Z.of_nat (length L) = 4%Z -> Forall (fun i => i < len line3) L ->
      exists cr g', uniform_sampling line3 4 (tape L) = Ok (L, cr, g')) /\
  ((2 <= 4)%Z ->
   exists g L cr g',
     uniform_sampling line3 4 g = Ok (L, cr, g') /\ ~ NoDup L).
Proof.
  assert (Hv : valid line3) by reflexivity.
  assert (Hp : 0 < len line3) by (simpl; lia).
  assert (Hn : (1 <= 4)%Z) by lia.
  split; [exact Hv|]. split; [exact Hp|]. split; [exact Hn|].
  exact (uniform_sampling_indices line3 4 Hv Hp Hn).
Defined.

(** ** C6 *)

(** C6, as stated, fails: on the valid distance matrix [coincident] (three
    points, two of them equal), with the first pick 0 and n = N = 3,
    [maxmin] returns [0; 2; 0], which is not a permutation of 0, 1, 2. *)
Lemma maxmin_all_counterexample :
  valid coincident /\
  ~ (exists L cr g',
        maxmin coincident (Z.of_nat (len coincident)) (tape [0])
        = Ok (L, cr, g') /\
        Permutation L (seq 0 (len coincident)) /\ (cr == 0)%Q).
Proof.
  split; [reflexivity|].
  intros (L & cr & g' & H & Hp & _).
  vm_compute in H. injection H as <- _ _.
  assert (Hin : In 1 [0; 2; 0]).
  { apply (Permutation_in 1 (Permutation_sym Hp)). simpl. auto. }
  simpl in Hin. intuition discriminate.
Qed.

(** C6 (amended): for every valid distance matrix of N >= 1 points in which
    distinct points are at positive distance, [maxmin] with n = N returns a
    permutation of 0..N-1 together with covering radius 0. *)
Theorem maxmin_all (M : ndarray) (g : rng) :
  valid M -> separated M -> 0 < len M ->
  exists L cr g',
    maxmin M (Z.of_nat (len M)) g = Ok (L, cr, g') /\
    Permutation L (seq 0 (len M)) /\ (cr == 0)%Q.
Proof.
  intros Hv Hsep Hpos. pose proof (valid_square M Hv) as Hsq.
  destruct (maxmin_returns M (Z.of_nat (len M)) g Hsq Hpos)
    as (r & ext & cr & g' & _ & Hrun & Hcr & Hlen & HL & Hgr).
  set (L := r :: ext) in *.
  assert (Hlen' : length L = len M)
    by (unfold L; simpl; rewrite Hlen; unfold range; lia).
  assert (Hne : L <> []) by discriminate.
  assert (Hnd : NoDup L)
    by (apply (greedy_NoDup M Hv Hsep); auto; lia).
  assert (Hincl : incl L (seq 0 (len M))).
  { intros x Hx. apply in_seq. rewrite Forall_forall in HL.
    specialize (HL x Hx). lia. }
  assert (Hincl' : incl (seq 0 (len M)) L).
  { apply (NoDup_length_incl Hnd); [rewrite length_seq; lia | exact Hincl]. }
  exists L, cr, g'. repeat split.
  - exact Hrun.
  - apply NoDup_Permutation; [exact Hnd | apply seq_NoDup |].
    intro x. split; [apply Hincl | apply Hincl'].
  - destruct (amax_spec _ _ Hcr) as [_ (k & Hk & E)].
    rewrite (colmin_length M Hsq L Hne HL) in Hk.
    rewrite <- E. apply (colmin_selected M Hv L k HL).
    apply Hincl'. apply in_seq. lia.
Qed.

Lemma maxmin_all_witness :
  valid line3 /\ separated line3 /\ 0 < len line3 /\
  exists L cr g',
    maxmin line3 (Z.of_nat (len line3)) (tape [1]) = Ok (L, cr, g') /\
    Permutation L (seq 0 (len line3)) /\ (cr == 0)%Q.
Proof.
  assert (Hv : valid line3) by reflexivity.
  assert (Hs : separated line3) by reflexivity.
  assert (Hp : 0 < len line3) by (simpl; lia).
  split; [exact Hv|]. split; [exact Hs|]. split; [exact Hp|].
  exact (maxmin_all line3 (tape [1]) Hv Hs Hp).
Defined.

(** ** C7 *)

Lemma first_argmax_ext (N : nat) (f h : nat -> Q) (i : nat) :
  (forall k, k < N -> (f k == h k)%Q) ->
  first_argmax N f i -> first_argmax N h i.
Proof.
  intros E (Hi & Hmax & Hfirst). repeat split.
  - exact Hi.
  - intros k Hk. rewrite <- (E k Hk), <- (E i Hi). apply Hmax. exact Hk.
  - intros k Hk. rewrite <- (E k ltac:(lia)), <- (E i Hi). apply Hfirst.
    exact Hk.
Qed.

(** The run for a smaller sample size is the beginning of the run for a
    larger one, under the same random state. *)
Lemma maxmin_sweep_prefix (M : ndarray) (j n : Z) (g g' : rng)
    (L : list nat) (d : list Q) :
  squareb M = true -> 0 < len M -> (1 <= j <= n)%Z ->
  maxmin_sweep M n g = Ok (L, d, g') ->
  maxmin_sweep M j g =
  Ok (firstn (Z.to_nat j) L, colmin M (firstn (Z.to_nat j) L), g').
Proof.
  intros Hsq Hpos Hj Hrun.
  destruct (maxmin_sweep_spec M Hsq Hpos j g)
    as (r & ext & g1 & _ & Hrunj & Hlen & HL & _).
  destruct (maxmin_sweep_extend M Hsq Hpos j n g g1 (r :: ext) Hj Hrunj
              ltac:(discriminate) HL) as (T & Hrun' & _ & _).
  rewrite Hrun in Hrun'. injection Hrun' as -> _ ->.
  assert (Hlen' : length (r :: ext) = Z.to_nat j)
    by (simpl; rewrite Hlen; unfold range; lia).
  rewrite <- Hlen'. change (r :: ext ++ T) with ((r :: ext) ++ T).
  rewrite firstn_app, firstn_all, Nat.sub_diag.
  change (firstn 0 T) with (@nil nat). rewrite app_nil_r. exact Hrunj.
Qed.

(** C7: the list returned by [maxmin] is a greedy farthest-point traversal.
    The list L starts with the initial random pick and has max(n, 1)
    elements, one per step of the loop after the first.  For every position
    j >= 1 of the returned list L, L[j] is the first
    point that maximizes the minimum distance to the already selected
    prefix L[0..j-1]; the distance array held after j selections is that
    minimum distance, point by point, and the array after the next
    selection is its elementwise minimum with the row of the new point. *)
Theorem maxmin_greedy (M : ndarray) (n : Z) (g : rng) :
  valid M -> 0 < len M ->
  exists L cr g',
    maxmin M n g = Ok (L, cr, g') /\
    Z.of_nat (length L) = Z.max n 1 /\
    randint 0 (len M) g = Ok (nth 0 L 0, g') /\
    forall j, 1 <= j < length L ->
      first_argmax (len M) (dist_to_set M (firstn j L)) (nth j L 0) /\
      exists d,
        maxmin_sweep M (Z.of_nat j) g = Ok (firstn j L, d, g') /\
        (forall p, p < len M ->
                   (nth p d 0 == dist_to_set M (firstn j L) p)%Q) /\
        maxmin_sweep M (Z.of_nat j + 1) g =
        Ok (firstn (S j) L, minimum d (row M (nth j L 0)), g').
Proof.
  intros Hv Hpos. pose proof (valid_square M Hv) as Hsq.
  destruct (maxmin_sweep_spec M Hsq Hpos n g)
    as (r & ext & g' & Hr & Hrun & Hlen & HL & Hgr).
  set (L := r :: ext) in *.
  destruct (colmin_amax_ok M L Hsq Hpos ltac:(discriminate) HL) as [cr Hcr].
  assert (HlenL : length L = S (range (n - 1)))
    by (unfold L; simpl; rewrite Hlen; reflexivity).
  exists L, cr, g'. split; [exact (maxmin_of_sweep M n g g' L _ cr Hrun Hcr)|].
  split; [unfold range in HlenL; lia|].
  split; [exact Hr|].
  intros j Hj.
  assert (Hjn : (1 <= Z.of_nat j /\ Z.of_nat j + 1 <= n)%Z)
    by (unfold range in HlenL; lia).
  set (S := firstn j L).
  assert (HS : Forall (fun i => i < len M) S)
    by (apply Forall_firstn; exact HL).
  assert (HSne : S <> []).
  { unfold S, L. destruct j; [lia | discriminate]. }
  assert (Hpt : forall p, p < len M ->
                          (nth p (colmin M S) 0 == dist_to_set M S p)%Q)
    by (intros p Hp; apply colmin_dist_to_set; assumption).
  split.
  - apply (first_argmax_ext _ (fun k => nth k (colmin M S) 0%Q)); [exact Hpt|].
    rewrite <- (colmin_length M Hsq S HSne HS) at 1.
    apply argmax_spec. apply Hgr. exact Hj.
  - exists (colmin M S). repeat split.
    + pose proof (maxmin_sweep_prefix M (Z.of_nat j) n g g' L _ Hsq Hpos
                    ltac:(lia) Hrun) as Hp.
      rewrite Nat2Z.id in Hp. exact Hp.
    + exact Hpt.
    + pose proof (maxmin_sweep_prefix M (Z.of_nat j + 1) n g g' L _ Hsq Hpos
                    ltac:(lia) Hrun) as Hp.
      replace (Z.to_nat (Z.of_nat j + 1)) with (Datatypes.S j) in Hp by lia.
      rewrite Hp. rewrite firstn_snoc by lia. fold S.
      rewrite (colmin_snoc M S _ HSne). reflexivity.
Qed.

Lemma maxmin_greedy_witness :
  valid line3 /\ 0 < len line3 /\
  exists L cr g',
    maxmin line3 3 (tape [1]) = Ok (L, cr, g') /\
    Z.of_nat (length L) = Z.max 3 1 /\
    randint 0 (len line3) (tape [1]) = Ok (nth 0 L 0, g') /\
    forall j, 1 <= j < length L ->
      first_argmax (len line3) (dist_to_set line3 (firstn j L)) (nth j L 0) /\
      exists d,
        maxmin_sweep line3 (Z.of_nat j) (tape [1]) = Ok (firstn j L, d, g') /\
        (forall p, p < len line3 ->
                   (nth p d 0 == dist_to_set line3 (firstn j L) p)%Q) /\
        maxmin_sweep line3 (Z.of_nat j + 1) (tape [1]) =
        Ok (firstn (S j) L, minimum d (row line3 (nth j L 0)), g').
Proof.
  assert (Hv : valid line3) by reflexivity.
  assert (Hp : 0 < len line3) by (simpl; lia).
  split; [exact Hv|]. split; [exact Hp|].
  exact (maxmin_greedy line3 3 (tape [1]) Hv Hp).
Defined.

(** ** C8 *)

Lemma bind_raise (A B : Type) (c : res A) (k : A -> res B) (e : exn) :
  bind c k = Raise e ->
  c = Raise e \/ exists a, c = Ok a /\ k a = Raise e.
Proof.
  destruct c as [a|e']; simpl; intro H.
  - right. exists a. auto.
  - left. congruence.
Qed.

Lemma getrow_raise (M : ndarray) (i : nat) (e : exn) :
  getrow M i = Raise e -> e = IndexError op_getitem.
Proof.
  unfold getrow. destruct (nth_error M i); congruence.
Qed.

Lemma argmax_raise (v : list Q) (e : exn) :
  argmax v = Raise e -> e = ValueError op_argmax.
Proof.
  destruct v; simpl; congruence.
Qed.

Lemma amax_raise (v : list Q) (e : exn) :
  amax v = Raise e -> e = ValueError op_max.
Proof.
  destruct v; simpl; congruence.
Qed.

Lemma maxmin_loop_raise (M : ndarray) (k : nat) (L : list nat) (d : list Q)
    (e : exn) :
  maxmin_loop M k L d = Raise e ->
  e = ValueError op_argmax \/ e = IndexError op_getitem.
Proof.
  revert L d. induction k as [|k IH]; intros L d H; simpl in H;
    [discriminate|].
  apply bind_raise in H. destruct H as [H | (ind & _ & H)].
  - left. exact (argmax_raise _ _ H).
  - apply bind_raise in H. destruct H as [H | (r & _ & H)].
    + right. exact (getrow_raise _ _ _ H).
    + exact (IH _ _ H).
Qed.

Lemma maxmin_raise (M : ndarray) (n : Z) (g : rng) (e : exn) :
  maxmin M n g = Raise e ->
  In e [ValueError op_randint; IndexError op_getitem;
        ValueError op_argmax; ValueError op_max].
Proof.
  unfold maxmin. intro H.
  apply bind_raise in H. destruct H as [H | ([[L d] g'] & _ & H)].
  - unfold maxmin_sweep in H.
    apply bind_raise in H. destruct H as [H | ([r g1] & _ & H)].
    + unfold randint in H. destruct (len M <=? 0); simpl in H;
        [|discriminate].
      injection H as <-. simpl. tauto.
    + apply bind_raise in H. destruct H as [H | (d0 & _ & H)].
      * rewrite (getrow_raise _ _ _ H). simpl. tauto.
      * apply bind_raise in H. destruct H as [H | ([L1 d1] & _ & H)].
        -- destruct (maxmin_loop_raise _ _ _ _ _ H) as [-> | ->];
             simpl; tauto.
        -- discriminate.
  - apply bind_raise in H. destruct H as [H | (cr & _ & H)].
    + rewrite (amax_raise _ _ H). simpl. tauto.
    + discriminate.
Qed.

Lemma take_rows_raise (M : ndarray) (L : list nat) (e : exn) :
  take_rows M L = Raise e -> e = IndexError op_getitem.
Proof.
  induction L as [|i L IH]; simpl; intro H; [discriminate|].
  apply bind_raise in H. destruct H as [H | (r & _ & H)].
  - exact (getrow_raise _ _ _ H).
  - apply bind_raise in H. destruct H as [H | (rs & _ & H)].
    + exact (IH H).
    + discriminate.
Qed.

Lemma uniform_sampling_raise (M : ndarray) (n : Z) (g : rng) (e : exn) :
  uniform_sampling M n g = Raise e ->
  In e [ValueError op_choice; IndexError op_getitem;
        ValueError op_min; ValueError op_max].
Proof.
  unfold uniform_sampling. intro H.
  apply bind_raise in H. destruct H as [H | ([L g'] & _ & H)].
  - unfold choice in H. destruct (n <? 0)%Z;
      [injection H as <-; simpl; tauto|].
    destruct ((len M =? 0) && (0 <? n)%Z); [|discriminate].
    injection H as <-. simpl. tauto.
  - apply bind_raise in H. destruct H as [H | (A & _ & H)].
    + rewrite (take_rows_raise _ _ _ H). simpl. tauto.
    + apply bind_raise in H. destruct H as [H | (d & _ & H)].
      * unfold amin_axis0 in H. destruct A; [|discriminate].
        injection H as <-. simpl. tauto.
      * apply bind_raise in H. destruct H as [H | (cr & _ & H)].
        -- rewrite (amax_raise _ _ H). simpl. tauto.
        -- discriminate.
Qed.

Lemma long_list_repeats (N : nat) (L : list nat) :
  Forall (fun i => i < N) L -> N < length L -> ~ NoDup L.
Proof.
  intros HL Hlen Hnd.
  assert (Hincl : incl L (seq 0 N)).
  { intros x Hx. apply in_seq. rewrite Forall_forall in HL.
    specialize (HL x Hx). lia. }
  pose proof (NoDup_incl_length Hnd Hincl) as Hle.
  rewrite length_seq in Hle. lia.
Qed.

(** C8: neither function validates its arguments.  On a valid distance
    matrix of N >= 1 points and n > N, [maxmin] and [uniform_sampling] both
    return n indices of [0, N), hence with repeats, and raise nothing; with
    n = N [maxmin] can already reuse a selected point; and whenever one of
    them fails, the exception is one raised by the NumPy operation it calls
    (for instance the [IndexError] of the row lookup on a non-square
    array), never a validation error of its own. *)
Theorem no_validation (M : ndarray) (n : Z) (g : rng) :
  valid M -> 0 < len M -> (Z.of_nat (len M) < n)%Z ->
  (exists L cr g',
      maxmin M n g = Ok (L, cr, g') /\ Z.of_nat (length L) = n /\
      Forall (fun i => i < len M) L /\ ~ NoDup L) /\
  (exists L cr g',
      uniform_sampling M n g = Ok (L, cr, g') /\ Z.of_nat (length L) = n /\
      Forall (fun i => i < len M) L /\ ~ NoDup L) /\
  (exists g', maxmin twice 2 (tape [0]) = Ok ([0; 0], 0%Q, g')) /\
  maxmin wide 2 (tape [0]) = Raise (IndexError op_getitem) /\
  (forall M' n' g0 e, maxmin M' n' g0 = Raise e ->
      In e [ValueError op_randint; IndexError op_getitem;
            ValueError op_argmax; ValueError op_max]) /\
  (forall M' n' g0 e, uniform_sampling M' n' g0 = Raise e ->
      In e [ValueError op_choice; IndexError op_getitem;
            ValueError op_min; ValueError op_max]).
Proof.
  intros Hv Hpos Hn. pose proof (valid_square M Hv) as Hsq.
  split; [|split; [|split; [|split; [|split]]]].
  - destruct (maxmin_returns M n g Hsq Hpos)
      as (r & ext & cr & g' & _ & Hrun & _ & Hlen & HL & _).
    assert (Hlen' : Z.of_nat (length (r :: ext)) = n)
      by (simpl length; rewrite Hlen; unfold range; lia).
    exists (r :: ext), cr, g'. repeat split; try assumption.
    apply (long_list_repeats (len M)); [exact HL | lia].
  - destruct (uniform_sampling_returns M n g Hsq Hpos ltac:(lia))
      as (L & cr & g' & _ & Hrun & _ & Hlen & HL).
    exists L, cr, g'. repeat split; try assumption; [lia|].
    apply (long_list_repeats (len M)); [exact HL | lia].
  - eexists. reflexivity.
  - reflexivity.
  - exact maxmin_raise.
  - exact uniform_sampling_raise.
Qed.

Lemma no_validation_witness :
  valid line3 /\ 0 < len line3 /\ (Z.of_nat (len line3) < 5)%Z /\
  exists L cr g',
    maxmin line3 5 (tape [1]) = Ok (L, cr, g') /\
    Z.of_nat (length L) = 5%Z /\
    Forall (fun i => i < len line3) L /\ ~ NoDup L.
Proof.
  assert (Hv : valid line3) by reflexivity.
  assert (Hp : 0 < len line3) by (simpl; lia).
  assert (Hn : (Z.of_nat (len line3) < 5)%Z) by (simpl; lia).
  split; [exact Hv|]. split; [exact Hp|]. split; [exact Hn|].
  exact (proj1 (no_validation line3 5 (tape [1]) Hv Hp Hn)).
Defined.

(** ** C9 *)

(** C9: for every valid distance matrix of N >= 1 points and every n <= 1
    (zero and negative n included), [maxmin] returns the one-element list of
    the randomly chosen initial point with the covering radius of that
    singleton, the maximum of its row; for every n the returned list has
    length max(n, 1). *)
Theorem maxmin_small_n (M : ndarray) (g : rng) :
  valid M -> 0 < len M ->
  (forall n, (n <= 1)%Z ->
     exists r cr g' b,
       randint 0 (len M) g = Ok (r, g') /\
       maxmin M n g = Ok ([r], cr, g') /\
       amax (row M r) = Ok cr /\
       covering_radius M [r] = Some b /\ (cr == b)%Q) /\
  (forall n,
     exists L cr g',
       maxmin M n g = Ok (L, cr, g') /\
       Z.of_nat (length L) = Z.max n 1).
Proof.
  intros Hv Hpos. pose proof (valid_square M Hv) as Hsq. split; intro n.
  - intro Hn.
    destruct (maxmin_returns M n g Hsq Hpos)
      as (r & ext & cr & g' & Hr & Hrun & Hcr & Hlen & HL & _).
    assert (ext = []) as ->
      by (apply length_zero_iff_nil; rewrite Hlen; unfold range; lia).
    destruct (covering_radius_colmin M [r] cr Hv ltac:(discriminate) HL Hcr)
      as (b & Hb & E).
    exists r, cr, g', b. auto.
  - destruct (maxmin_returns M n g Hsq Hpos)
      as (r & ext & cr & g' & _ & Hrun & _ & Hlen & _ & _).
    exists (r :: ext), cr, g'. split; [exact Hrun|].
    simpl length. rewrite Hlen. unfold range. lia.
Qed.

Lemma maxmin_small_n_witness :
  valid line3 /\ 0 < len line3 /\
  (forall n, (n <= 1)%Z ->
     exists r cr g' b,
       randint 0 (len line3) (tape [2]) = Ok (r, g') /\
       maxmin line3 n (tape [2]) = Ok ([r], cr, g') /\
       amax (row line3 r) = Ok cr /\
       covering_radius line3 [r] = Some b /\ (cr == b)%Q) /\
  (forall n,
     exists L cr g',
       maxmin line3 n (tape [2]) = Ok (L, cr, g') /\
       Z.of_nat (length L) = Z.max n 1).
Proof.
  assert (Hv : valid line3) by reflexivity.
  assert (Hp : 0 < len line3) by (simpl; lia).
  split; [exact Hv|]. split; [exact Hp|].
  exact (maxmin_small_n line3 (tape [2]) Hv Hp).
Defined.

(** ** C10 *)

Lemma nth_app_old (B : Type) (m ext : list B) (a : nat) (d : B) :
  a < length m -> nth a (m ++ ext) d = nth a m d.
Proof.
  intro H. apply app_nth1. exact H.
Qed.

Lemma nth_app_new (B : Type) (m : list B) (b d : B) (ext : list B) :
  nth (length m) (m ++ b :: ext) d = b.
Proof.
  apply nth_middle.
Qed.

Lemma set_buffer_last (B : Type) (m : memory B) (b b' : B) :
  set_buffer (m ++ [b]) (length m) b' = m ++ [b'].
Proof.
  induction m as [|x m IH]; simpl; [reflexivity|]. rewrite IH. reflexivity.
Qed.

Lemma view_row_getrow (a i : nat) (m : memory ndarray) :
  view_row a i m =
  (match getrow (nth a m []) i with
   | Ok _ => Ok (View a i)
   | Raise e => Raise e
   end, m).
Proof.
  unfold view_row. destruct (i <? len (nth a m [])) eqn:E.
  - apply Nat.ltb_lt in E. rewrite (getrow_row _ _ E). reflexivity.
  - apply Nat.ltb_ge in E. rewrite (getrow_out _ _ E). reflexivity.
Qed.

Lemma getrow_is_row (M : ndarray) (i : nat) (r : list Q) :
  getrow M i = Ok r -> r = row M i.
Proof.
  unfold getrow, row. destruct (nth_error M i) as [r'|] eqn:En;
    [|discriminate].
  intro H. injection H as <-. symmetry. apply nth_error_nth. exact En.
Qed.

Lemma maxmin_loop_st_step (a k : nat) (L : list nat) (b i : nat)
    (m : memory ndarray) :
  maxmin_loop_st a (S k) L (View b i) m =
  match argmax (row (nth b m []) i) with
  | Raise e => (Raise e, m)
  | Ok ind =>
      match getrow (nth a m []) ind with
      | Raise e => (Raise e, m)
      | Ok r =>
          maxmin_loop_st a k (L ++ [ind]) (View (length m) 0)
            (m ++ [[minimum (row (nth b m []) i) r]])
      end
  end.
Proof.
  cbn [maxmin_loop_st]. unfold bind_st, load, lift.
  destruct (argmax (row (nth b m []) i)) as [ind|e]; [|reflexivity].
  rewrite view_row_getrow, last_last.
  destruct (getrow (nth a m []) ind) as [r|e] eqn:Er; [|reflexivity].
  rewrite (getrow_is_row _ _ _ Er). reflexivity.
Qed.

(** The loop on the array object computes what the loop on its contents
    computes, and only allocates. *)
Lemma maxmin_loop_st_spec (a k : nat) :
  forall (L : list nat) (b i : nat) (m : memory ndarray),
    a < length m -> b < length m ->
    exists ext,
      snd (maxmin_loop_st a k L (View b i) m) = m ++ ext /\
      match maxmin_loop (nth a m []) k L (row (nth b m []) i),
            fst (maxmin_loop_st a k L (View b i) m) with
      | Ok (L', d'), Ok (L'', View b' i') =>
          L'' = L' /\ b' < length (m ++ ext) /\
          row (nth b' (m ++ ext) []) i' = d'
      | Raise e, Raise e' => e = e'
      | _, _ => False
      end.
Proof.
  induction k as [|k IH]; intros L b i m Ha Hb.
  - exists []. rewrite app_nil_r. simpl. auto.
  - rewrite maxmin_loop_st_step. cbn [maxmin_loop].
    destruct (argmax (row (nth b m []) i)) as [ind|e]; cbn [bind].
    + rewrite last_last.
      destruct (getrow (nth a m []) ind) as [r|e] eqn:Er; cbn [bind].
      * set (d1 := minimum (row (nth b m []) i) r).
        destruct (IH (L ++ [ind]) (length m) 0 (m ++ [[d1]]))
          as (ext & Hm & Hres).
        -- rewrite length_app. simpl. lia.
        -- rewrite length_app. simpl. lia.
        -- exists ([[d1]] ++ ext). rewrite app_assoc. split; [exact Hm|].
           rewrite nth_app_old in Hres by exact Ha.
           rewrite nth_app_new in Hres.
           change (row [d1] 0) with d1 in Hres. exact Hres.
      * exists []. rewrite app_nil_r. simpl. auto.
    + exists []. rewrite app_nil_r. simpl. auto.
Qed.

Lemma maxmin_st_spec (a : nat) (n : Z) (g : rng) (m : memory ndarray) :
  a < length m ->
  exists ext, maxmin_st a n g m = (maxmin (nth a m []) n g, m ++ ext).
Proof.
  intro Ha. unfold maxmin_st, maxmin, maxmin_sweep.
  unfold bind_st at 1. unfold deref at 1.
  unfold bind_st at 1. unfold lift at 1.
  destruct (randint 0 (len (nth a m [])) g) as [[r g1]|e]; cbn [bind];
    [|exists []; rewrite app_nil_r; reflexivity].
  unfold bind_st at 1. rewrite view_row_getrow. simpl last.
  destruct (getrow (nth a m []) r) as [d|e] eqn:Er; cbn [bind];
    [|exists []; rewrite app_nil_r; reflexivity].
  assert (Hd : d = row (nth a m []) r).
  { unfold getrow in Er. unfold row.
    destruct (nth_error (nth a m []) r) as [r'|] eqn:En; [|discriminate].
    injection Er as <-. symmetry. apply nth_error_nth. exact En. }
  destruct (maxmin_loop_st_spec a (range (n - 1)) [r] a r m Ha Ha)
    as (ext & Hm & Hres).
  rewrite <- Hd in Hres.
  unfold bind_st at 1.
  destruct (maxmin_loop_st a (range (n - 1)) [r] (View a r) m)
    as [[[L2 [b' i']]|e'] m'] eqn:Est; simpl in Hm, Hres; subst m'.
  - destruct (maxmin_loop (nth a m []) (range (n - 1)) [r] d)
      as [[L1 d1]|e1]; [|destruct Hres].
    destruct Hres as (-> & Hb' & Hrow). cbn [bind].
    unfold bind_st at 1. simpl load. rewrite Hrow.
    unfold bind_st at 1, lift.
    exists ext. destruct (amax d1); reflexivity.
  - destruct (maxmin_loop (nth a m []) (range (n - 1)) [r] d)
      as [[L1 d1]|e1]; [destruct Hres|]. subst e'.
    exists ext. reflexivity.
Qed.

Lemma uniform_sampling_st_spec (a : nat) (n : Z) (g : rng)
    (m : memory ndarray) :
  a < length m ->
  exists ext,
    uniform_sampling_st a n g m =
    (uniform_sampling (nth a m []) n g, m ++ ext).
Proof.
  intro Ha. unfold uniform_sampling_st, uniform_sampling.
  unfold bind_st, deref, lift, fresh_row, alloc, ret, load, bind_st.
  destruct (choice (len (nth a m [])) n g) as [[L g1]|e]; cbn [bind];
    [|exists []; rewrite app_nil_r; reflexivity].
  destruct (take_rows (nth a m []) L) as [rows|e]; cbn [bind];
    [|exists []; rewrite app_nil_r; reflexivity].
  rewrite nth_app_new.
  destruct (amin_axis0 rows) as [d|e]; cbn [bind];
    [|exists [rows]; reflexivity].
  rewrite nth_app_new.
  change (row [d] 0) with d.
  exists [rows; [d]]. rewrite <- app_assoc.
  destruct (amax d); reflexivity.
Qed.

Lemma substitute_capped (alpha_max : Q) (b : diagram) :
  substitute (map (fun x => isinf (snd x)) b) alpha_max b =
  capped alpha_max b.
Proof.
  unfold substitute, capped.
  induction b as [|[birth death] b IH]; simpl; [reflexivity|].
  rewrite IH. reflexivity.
Qed.

Lemma capped_length (alpha_max : Q) (b : diagram) :
  length (capped alpha_max b) = length b.
Proof.
  unfold capped. apply length_map.
Qed.

(** The inner loop draws and leaves the memory as it is. *)
Lemma plot_bars_mem (axs : axes) (dim barcode : nat) (ind_inf : list bool)
    (alpha_max : Q) (k : nat) :
  forall (i h : nat) (s : plot_state),
    mem (snd (plot_bars axs dim barcode ind_inf alpha_max k i h s)) = mem s.
Proof.
  induction k as [|k IH]; intros i h s; [reflexivity|].
  cbn [plot_bars]. unfold bind_st, get_diagram, lift, emit, ret.
  destruct (subscript axs dim) as [ax|e]; [|reflexivity].
  destruct (nth i ind_inf false); rewrite IH; reflexivity.
Qed.


Lemma firstn_skipn_in (k dim : nat) (l : list nat) (x : nat) :
  In x (firstn k (skipn dim l)) -> In x l.
Proof.
  intro H. rewrite <- (firstn_skipn dim l). apply in_or_app. right.
  rewrite <- (firstn_skipn k (skipn dim l)). apply in_or_app. now left.
Qed.

Lemma skipn_cons_nth (l : list nat) (dim : nat) :
  dim < length l -> skipn dim l = nth dim l 0 :: skipn (S dim) l.
Proof.
  revert dim. induction l as [|x l IH]; intros dim H; simpl in H; [lia|].
  destruct dim as [|dim]; [reflexivity|].
  change (skipn (S dim) (x :: l)) with (skipn dim l).
  change (nth (S dim) (x :: l) 0) with (nth dim l 0).
  rewrite IH by lia. reflexivity.
Qed.

(** One round of the outer loop: the diagram is copied, the copy is capped
    and drawn. *)
Lemma plot_dims_step (axs : axes) (diagrams : list nat) (alpha_max : Q)
    (k dim : nat) (s : plot_state) :
  plot_dims axs diagrams alpha_max (S k) dim s =
  let b := nth (nth dim diagrams 0) (mem s) [] in
  let s2 := mkPlot (mem s ++ [capped alpha_max b]) (fig s) in
  match plot_bars axs dim (length (mem s))
          (map (fun x => isinf (snd x)) b) alpha_max (length b) 0 1 s2 with
  | (Raise e, s3) => (Raise e, s3)
  | (Ok h, s3) =>
      match subscript axs dim with
      | Raise e => (Raise e, s3)
      | Ok ax =>
          plot_dims axs diagrams alpha_max k (S dim)
            (mkPlot (mem s3) (fig s3 ++ [Frame ax alpha_max h]))
      end
  end.
Proof.
  cbn [plot_dims].
  unfold bind_st, np_copy, get_diagram, assign_inf, lift, emit.
  cbn [mem fig].
  rewrite nth_app_new, set_buffer_last, substitute_capped.
  rewrite nth_app_new, capped_length. cbv zeta.
  destruct (plot_bars axs dim (length (mem s))
              (map (fun x => isinf (snd x))
                   (nth (nth dim diagrams 0) (mem s) []))
              alpha_max (length (nth (nth dim diagrams 0) (mem s) [])) 0 1
              (mkPlot (mem s ++ [capped alpha_max
                                   (nth (nth dim diagrams 0) (mem s) [])])
                      (fig s)))
    as [[h|e] s3]; [|reflexivity].
  destruct (subscript axs dim); reflexivity.
Qed.

(** The loop only appends the capped copies to the memory. *)
Lemma plot_dims_spec (axs : axes) (diagrams : list nat) (alpha_max : Q)
    (k : nat) :
  forall (dim : nat) (s : plot_state),
  exists ext,
    mem (snd (plot_dims axs diagrams alpha_max k dim s)) = mem s ++ ext /\
    (fst (plot_dims axs diagrams alpha_max k dim s) = Ok tt ->
     Forall (fun d => d < length (mem s)) diagrams ->
     dim + k <= length diagrams ->
     ext = map (fun d => capped alpha_max (nth d (mem s) []))
               (firstn k (skipn dim diagrams))).
Proof.
  induction k as [|k IH]; intros dim s.
  - exists []. rewrite app_nil_r. simpl. auto.
  - rewrite plot_dims_step. cbv zeta.
    set (a := nth dim diagrams 0).
    set (b := nth a (mem s) []).
    set (s2 := mkPlot (mem s ++ [capped alpha_max b]) (fig s)).
    pose proof (plot_bars_mem axs dim (length (mem s))
                  (map (fun x => isinf (snd x)) b) alpha_max (length b)
                  0 1 s2) as Hbars.
    destruct (plot_bars axs dim (length (mem s))
                (map (fun x => isinf (snd x)) b) alpha_max (length b) 0 1 s2)
      as [[h|e] s3]; cbn [snd] in Hbars; cbn [mem s2] in Hbars.
    + destruct (subscript axs dim) as [ax|e].
      * set (s4 := mkPlot (mem s3) (fig s3 ++ [Frame ax alpha_max h])).
        assert (Hs4 : mem s4 = mem s ++ [capped alpha_max b])
          by exact Hbars.
        destruct (IH (S dim) s4) as (ext & Hm & Hok).
        exists (capped alpha_max b :: ext). split.
        -- rewrite Hm, Hs4, <- app_assoc. reflexivity.
        -- intros Hres Hvalid Hlen.
           rewrite (skipn_cons_nth diagrams dim) by lia.
           cbn [firstn map]. fold a. fold b. f_equal.
           rewrite Hok.
           ++ apply map_ext_in. intros d Hd. rewrite Hs4.
              rewrite nth_app_old; [reflexivity|].
              rewrite Forall_forall in Hvalid. apply Hvalid.
              apply (firstn_skipn_in k (S dim)). exact Hd.
           ++ exact Hres.
           ++ rewrite Hs4. apply Forall_forall. intros d Hd.
              rewrite Forall_forall in Hvalid. specialize (Hvalid d Hd).
              rewrite length_app. lia.
           ++ lia.
      * exists [capped alpha_max b]. cbn [snd fst]. rewrite Hbars.
        split; [reflexivity | discriminate].
    + exists [capped alpha_max b]. cbn [snd fst]. rewrite Hbars.
      split; [reflexivity | discriminate].
Qed.

Lemma plot_barcodes_spec (diagrams : list nat) (alpha_max : Q)
    (s : plot_state) :
  exists ext,
    mem (snd (plot_barcodes diagrams alpha_max s)) = mem s ++ ext /\
    (fst (plot_barcodes diagrams alpha_max s) = Ok tt ->
     Forall (fun d => d < length (mem s)) diagrams ->
     ext = map (fun d => capped alpha_max (nth d (mem s) [])) diagrams).
Proof.
  unfold plot_barcodes, bind_st, lift, emit.
  destruct (subplots (length diagrams)) as [axs|e].
  - set (s1 := mkPlot (mem s) (fig s ++ [Suptitle])).
    destruct (plot_dims_spec axs diagrams alpha_max (length diagrams) 0 s1)
      as (ext & Hm & Hok).
    exists ext. split; [exact Hm|].
    intros Hres Hvalid. rewrite (Hok Hres Hvalid (Nat.le_refl _)).
    cbn [skipn]. rewrite firstn_all. reflexivity.
  - exists []. rewrite app_nil_r. split; [reflexivity | discriminate].
Qed.

(** C10: none of the three helpers writes to its inputs.  Run on array
    objects in memory, [maxmin] and [uniform_sampling] compute what they
    compute on the contents of the distance matrix and leave every buffer
    that existed before the call, the matrix included, as it was: they only
    allocate.  [plot_barcodes] likewise only allocates: the buffers it adds
    are the copies of the diagrams, with the display maximum in place of
    the infinite deaths, and the diagrams themselves are unchanged. *)
Theorem helpers_do_not_mutate (m : memory ndarray) (a : nat) (n : Z)
    (g : rng) (s : plot_state) (diagrams : list nat) (alpha_max : Q) :
  a < length m ->
  Forall (fun d => d < length (mem s)) diagrams ->
  (exists ext,
      maxmin_st a n g m = (maxmin (nth a m []) n g, m ++ ext) /\
      forall b, b < length m -> nth_error (m ++ ext) b = nth_error m b) /\
  (exists ext,
      uniform_sampling_st a n g m =
      (uniform_sampling (nth a m []) n g, m ++ ext) /\
      forall b, b < length m -> nth_error (m ++ ext) b = nth_error m b) /\
  (exists ext,
      mem (snd (plot_barcodes diagrams alpha_max s)) = mem s ++ ext /\
      (forall b, b < length (mem s) ->
                 nth_error (mem s ++ ext) b = nth_error (mem s) b) /\
      (fst (plot_barcodes diagrams alpha_max s) = Ok tt ->
       ext = map (fun d => capped alpha_max (nth d (mem s) [])) diagrams)).
Proof.
  intros Ha Hvalid.
  assert (Hold : forall (B : Type) (m0 ext : list B) b,
                   b < length m0 ->
                   nth_error (m0 ++ ext) b = nth_error m0 b)
    by (intros B m0 ext b Hb; apply nth_error_app1; exact Hb).
  split; [|split].
  - destruct (maxmin_st_spec a n g m Ha) as (ext & H).
    exists ext. split; [exact H | apply Hold].
  - destruct (uniform_sampling_st_spec a n g m Ha) as (ext & H).
    exists ext. split; [exact H | apply Hold].
  - destruct (plot_barcodes_spec diagrams alpha_max s) as (ext & Hm & Hok).
    exists ext. split; [exact Hm|]. split; [apply Hold|].
    intro Hres. exact (Hok Hres Hvalid).
Qed.

Lemma helpers_do_not_mutate_witness :
  1 < length [twice; line3] /\
  Forall (fun d => d < length (mem (mkPlot dgms []))) [0; 1] /\
  (exists ext,
      maxmin_st 1 3 (tape [1]) [twice; line3] =
      (maxmin (nth 1 [twice; line3] []) 3 (tape [1]),
       [twice; line3] ++ ext) /\
      forall b, b < length [twice; line3] ->
                nth_error ([twice; line3] ++ ext) b =
                nth_error [twice; line3] b) /\
  (exists ext,
      mem (snd (plot_barcodes [0; 1] 2 (mkPlot dgms []))) =
      mem (mkPlot dgms []) ++ ext /\
      (forall b, b < length (mem (mkPlot dgms [])) ->
                 nth_error (mem (mkPlot dgms []) ++ ext) b =
                 nth_error (mem (mkPlot dgms [])) b) /\
      (fst (plot_barcodes [0; 1] 2 (mkPlot dgms [])) = Ok tt ->
       ext = map (fun d => capped 2 (nth d (mem (mkPlot dgms [])) []))
                 [0; 1])).
Proof.
  assert (Ha : 1 < length [twice; line3]) by (simpl; lia).
  assert (Hd : Forall (fun d => d < length (mem (mkPlot dgms []))) [0; 1])
    by (repeat constructor).
  split; [exact Ha|]. split; [exact Hd|].
  pose proof (helpers_do_not_mutate [twice; line3] 1 3 (tape [1])
                (mkPlot dgms []) [0; 1] 2 Ha Hd) as H.
  split; [exact (proj1 H) | exact (proj2 (proj2 H))].
Defined.

(** * Further properties of the sampling helpers *)

(** ** Nested landmark lists *)

(** X1: under one random state, the list [maxmin] returns for n is the beginning
    of the list it returns for any n' >= n: asking for more landmarks keeps
    the ones already chosen, in the same order. *)
Theorem maxmin_nested (M : ndarray) (n n' : Z) (g : rng) :
  squareb M = true -> 0 < len M -> (1 <= n <= n')%Z ->
  exists L cr L' cr' g',
    maxmin M n g = Ok (L, cr, g') /\
    maxmin M n' g = Ok (L', cr', g') /\
    L = firstn (Z.to_nat n) L'.
Proof.
  intros Hsq Hpos Hn.
  destruct (maxmin_sweep_spec M Hsq Hpos n' g)
    as (r & ext & g' & _ & Hrun' & _ & HL' & _).
  pose proof (maxmin_sweep_prefix M n n' g g' (r :: ext) _ Hsq Hpos Hn Hrun')
    as Hrun.
  set (L' := r :: ext) in *. set (L := firstn (Z.to_nat n) L') in *.
  assert (HL : Forall (fun i => i < len M) L)
    by (apply Forall_firstn; exact HL').
  assert (Hne : L <> []).
  { unfold L, L'. destruct (Z.to_nat n) eqn:E; [lia | discriminate]. }
  destruct (colmin_amax_ok M L Hsq Hpos Hne HL) as [cr Hcr].
  destruct (colmin_amax_ok M L' Hsq Hpos ltac:(discriminate) HL')
    as [cr' Hcr'].
  exists L, cr, L', cr', g'. repeat split.
  - exact (maxmin_of_sweep M n g g' L _ cr Hrun Hcr).
  - exact (maxmin_of_sweep M n' g g' L' _ cr' Hrun' Hcr').
Qed.

Lemma maxmin_nested_witness :
  squareb line3 = true /\ 0 < len line3 /\ (1 <= 2 <= 3)%Z /\
  exists L cr L' cr' g',
    maxmin line3 2 (tape [1]) = Ok (L, cr, g') /\
    maxmin line3 3 (tape [1]) = Ok (L', cr', g') /\
    L = firstn (Z.to_nat 2) L'.
Proof.
  assert (Hs : squareb line3 = true) by reflexivity.
  assert (Hp : 0 < len line3) by (simpl; lia).
  assert (Hn : (1 <= 2 <= 3)%Z) by lia.
  split; [exact Hs|]. split; [exact Hp|]. split; [exact Hn|].
  exact (maxmin_nested line3 2 3 (tape [1]) Hs Hp Hn).
Defined.

(** ** The landmarks of maxmin are far apart *)

Lemma firstn_app_skipn_ne (L : list nat) (j : nat) :
  L = firstn j L ++ skipn j L.
Proof.
  symmetry. apply firstn_skipn.
Qed.

Lemma nth_in_firstn (L : list nat) (i j : nat) :
  i < j -> j <= length L -> In (nth i L 0) (firstn j L).
Proof.
  intros Hij Hj.
  assert (E : nth i L 0 = nth i (firstn j L) 0).
  { rewrite nth_firstn. destruct (i <? j) eqn:Eb; [reflexivity|].
    apply Nat.ltb_ge in Eb. lia. }
  rewrite E. apply nth_In. rewrite length_firstn. lia.
Qed.

Lemma greedy_apart (M : ndarray) (L : list nat) (cr : Q) :
  squareb M = true -> 0 < len M ->
  L <> [] -> Forall (fun k => k < len M) L -> greedy M L ->
  amax (colmin M L) = Ok cr ->
  forall i j, i < j < length L ->
              (cr <= entry M (nth i L 0%nat) (nth j L 0%nat))%Q.
Proof.
  intros Hsq Hpos Hne HL Hgr Hcr i j Hij.
  set (S := firstn j L).
  assert (HS : Forall (fun k => k < len M) S)
    by (apply Forall_firstn; exact HL).
  assert (HSne : S <> []).
  { unfold S. destruct L; [congruence|]. destruct j; [lia | discriminate]. }
  assert (HT : Forall (fun k => k < len M) (skipn j L)).
  { apply Forall_forall. intros x Hx. rewrite Forall_forall in HL.
    apply HL. rewrite (firstn_app_skipn_ne L j). apply in_or_app. now right. }
  assert (Harg : argmax (colmin M S) = Ok (nth j L 0)) by (apply Hgr; lia).
  destruct (argmax_spec _ _ Harg) as (Hx & Hmax & _).
  rewrite (colmin_length M Hsq S HSne HS) in Hx, Hmax.
  destruct (amax_spec _ _ Hcr) as [_ (k & Hk & E)].
  rewrite (colmin_length M Hsq L Hne HL) in Hk.
  rewrite <- E.
  eapply Qle_trans.
  { rewrite (firstn_app_skipn_ne L j) at 1.
    apply (colmin_app_le M Hsq S (skipn j L) k HSne HS HT Hk). }
  eapply Qle_trans; [apply (Hmax k Hk)|].
  apply (colmin_le_entry M Hsq S (nth i L 0) (nth j L 0) HS); [|exact Hx].
  apply nth_in_firstn; lia.
Qed.

(** X2: any two indices returned by [maxmin] are at distance at least the
    returned covering radius from each other. *)
Theorem maxmin_landmarks_apart (M : ndarray) (n : Z) (g : rng) :
  squareb M = true -> 0 < len M ->
  exists L cr g',
    maxmin M n g = Ok (L, cr, g') /\
    forall i j, i < j < length L ->
                (cr <= entry M (nth i L 0%nat) (nth j L 0%nat))%Q.
Proof.
  intros Hsq Hpos.
  destruct (maxmin_returns M n g Hsq Hpos)
    as (r & ext & cr & g' & _ & Hrun & Hcr & _ & HL & Hgr).
  exists (r :: ext), cr, g'. split; [exact Hrun|].
  apply (greedy_apart M (r :: ext) cr Hsq Hpos ltac:(discriminate) HL Hgr Hcr).
Qed.

Lemma maxmin_landmarks_apart_witness :
  squareb line3 = true /\ 0 < len line3 /\
  exists L cr g',
    maxmin line3 2 (tape [1]) = Ok (L, cr, g') /\
    forall i j, i < j < length L ->
                (cr <= entry line3 (nth i L 0%nat) (nth j L 0%nat))%Q.
Proof.
  assert (Hs : squareb line3 = true) by reflexivity.
  assert (Hp : 0 < len line3) by (simpl; lia).
  split; [exact Hs|]. split; [exact Hp|].
  exact (maxmin_landmarks_apart line3 2 (tape [1]) Hs Hp).
Defined.

(** ** The landmarks cover the data *)

Lemma colmin_covers (M : ndarray) (S : list nat) (cr : Q) :
  squareb M = true -> S <> [] -> Forall (fun k => k < len M) S ->
  amax (colmin M S) = Ok cr ->
  (forall p, p < len M -> exists l, In l S /\ (entry M l p <= cr)%Q) /\
  (exists p, p < len M /\ forall l, In l S -> (cr <= entry M l p)%Q).
Proof.
  intros Hsq Hne HS Hcr.
  pose proof (colmin_length M Hsq S Hne HS) as Hlen.
  destruct (amax_spec _ _ Hcr) as [Hub (k & Hk & E)].
  rewrite Hlen in Hub, Hk. split.
  - intros p Hp.
    destruct (colmin_is_entry M Hsq S p Hne HS Hp) as (l & Hl & El).
    exists l. split; [exact Hl|]. rewrite <- El. apply Hub. exact Hp.
  - exists k. split; [exact Hk|]. intros l Hl. rewrite <- E.
    apply (colmin_le_entry M Hsq S l k HS Hl Hk).
Qed.

(** X3: every point of the data is within the returned covering radius of one of
    the returned indices, and no smaller radius would do: some point has
    every returned index at that distance or more.  This holds for [maxmin]
    and, for n >= 1, for [uniform_sampling], on any square matrix. *)
Theorem landmarks_cover (M : ndarray) (n : Z) (g : rng) :
  squareb M = true -> 0 < len M ->
  (exists L cr g',
      maxmin M n g = Ok (L, cr, g') /\
      (forall p, p < len M -> exists l, In l L /\ (entry M l p <= cr)%Q) /\
      (exists p, p < len M /\ forall l, In l L -> (cr <= entry M l p)%Q)) /\
  ((1 <= n)%Z ->
   exists L cr g',
     uniform_sampling M n g = Ok (L, cr, g') /\
     (forall p, p < len M -> exists l, In l L /\ (entry M l p <= cr)%Q) /\
     (exists p, p < len M /\ forall l, In l L -> (cr <= entry M l p)%Q)).
Proof.
  intros Hsq Hpos. split.
  - destruct (maxmin_returns M n g Hsq Hpos)
      as (r & ext & cr & g' & _ & Hrun & Hcr & _ & HL & _).
    exists (r :: ext), cr, g'. split; [exact Hrun|].
    apply (colmin_covers M (r :: ext) cr Hsq ltac:(discriminate) HL Hcr).
  - intro Hn.
    destruct (uniform_sampling_returns M n g Hsq Hpos Hn)
      as (L & cr & g' & _ & Hrun & Hcr & Hlen & HL).
    assert (Hne : L <> []) by (intro E; subst L; simpl in Hlen; lia).
    exists L, cr, g'. split; [exact Hrun|].
    apply (colmin_covers M L cr Hsq Hne HL Hcr).
Qed.

Lemma landmarks_cover_witness :
  squareb line3 = true /\ 0 < len line3 /\
  exists L cr g',
    maxmin line3 2 (tape [1]) = Ok (L, cr, g') /\
    (forall p, p < len line3 ->
               exists l, In l L /\ (entry line3 l p <= cr)%Q) /\
    (exists p, p < len line3 /\
               forall l, In l L -> (cr <= entry line3 l p)%Q).
Proof.
  assert (Hs : squareb line3 = true) by reflexivity.
  assert (Hp : 0 < len line3) by (simpl; lia).
  split; [exact Hs|]. split; [exact Hp|].
  exact (proj1 (landmarks_cover line3 2 (tape [1]) Hs Hp)).
Defined.

(** ** Once every point is selected, maxmin repeats index 0 *)

Lemma In_firstn_le (L : list nat) (a b x : nat) :
  a <= b -> In x (firstn a L) -> In x (firstn b L).
Proof.
  intros Hab H.
  replace (firstn a L) with (firstn a (firstn b L)) in H
    by (rewrite firstn_firstn; f_equal; lia).
  rewrite <- (firstn_skipn a (firstn b L)). apply in_or_app. now left.
Qed.

(** X4: on a valid distance matrix of N >= 1 distinct points, every index that
    [maxmin] returns at a position N or later is 0: with all points
    selected the distance array is zero everywhere and [np.argmax] returns
    its first position. *)
Theorem maxmin_saturates (M : ndarray) (n : Z) (g : rng) :
  valid M -> separated M -> 0 < len M ->
  exists L cr g',
    maxmin M n g = Ok (L, cr, g') /\
    forall j, len M <= j < length L -> nth j L 0 = 0.
Proof.
  intros Hv Hsep Hpos. pose proof (valid_square M Hv) as Hsq.
  destruct (maxmin_returns M n g Hsq Hpos)
    as (r & ext & cr & g' & _ & Hrun & _ & _ & HL & Hgr).
  set (L := r :: ext) in *.
  exists L, cr, g'. split; [exact Hrun|]. intros j Hj.
  set (P := firstn (len M) L). set (S := firstn j L).
  assert (HP : Forall (fun k => k < len M) P)
    by (apply Forall_firstn; exact HL).
  assert (HS : Forall (fun k => k < len M) S)
    by (apply Forall_firstn; exact HL).
  assert (HSne : S <> []).
  { unfold S, L. destruct j; [lia | discriminate]. }
  assert (HPnd : NoDup P).
  { apply (greedy_prefix_NoDup M Hv Hsep); auto; [discriminate | lia]. }
  assert (HPlen : length P = len M)
    by (unfold P; rewrite length_firstn; lia).
  assert (Hall : forall p, p < len M -> In p S).
  { intros p Hp. apply (In_firstn_le L (len M) j); [lia|]. fold P.
    assert (Hincl : incl P (seq 0 (len M))).
    { intros x Hx. apply in_seq. rewrite Forall_forall in HP.
      specialize (HP x Hx). lia. }
    assert (Hincl' : incl (seq 0 (len M)) P).
    { apply (NoDup_length_incl HPnd); [rewrite length_seq; lia | exact Hincl]. }
    apply Hincl'. apply in_seq. lia. }
  assert (Harg : argmax (colmin M S) = Ok (nth j L 0)) by (apply Hgr; lia).
  destruct (argmax_spec _ _ Harg) as (Hx & _ & Hfirst).
  rewrite (colmin_length M Hsq S HSne HS) in Hx.
  destruct (Nat.eq_dec (nth j L 0) 0) as [E|E]; [exact E|].
  exfalso. specialize (Hfirst 0 ltac:(lia)).
  rewrite (colmin_selected M Hv S 0 HS (Hall 0 Hpos)) in Hfirst.
  rewrite (colmin_selected M Hv S _ HS (Hall _ Hx)) in Hfirst.
  exact (Qlt_irrefl _ Hfirst).
Qed.

Lemma maxmin_saturates_witness :
  valid line3 /\ separated line3 /\ 0 < len line3 /\
  exists L cr g',
    maxmin line3 5 (tape [1]) = Ok (L, cr, g') /\
    forall j, len line3 <= j < length L -> nth j L 0 = 0.
Proof.
  assert (Hv : valid line3) by reflexivity.
  assert (Hs : separated line3) by reflexivity.
  assert (Hp : 0 < len line3) by (simpl; lia).
  split; [exact Hv|]. split; [exact Hs|]. split; [exact Hp|].
  exact (maxmin_saturates line3 5 (tape [1]) Hv Hs Hp).
Defined.

(** ** When the two functions return *)

Lemma maxmin_empty_raises (n : Z) (g : rng) :
  maxmin [] n g = Raise (ValueError op_randint).
Proof.
  reflexivity.
Qed.

Lemma uniform_sampling_fails (M : ndarray) (n : Z) (g : rng) :
  len M = 0 \/ (n < 1)%Z -> exists e, uniform_sampling M n g = Raise e.
Proof.
  intro H. unfold uniform_sampling, choice.
  destruct (n <? 0)%Z eqn:E1; [eexists; reflexivity|].
  apply Z.ltb_ge in E1.
  destruct (Z.eq_dec n 0) as [->|Hn0].
  - rewrite andb_false_r. simpl. eexists. reflexivity.
  - destruct H as [H|H]; [|lia].
    rewrite H. simpl.
    destruct (0 <? n)%Z eqn:E2; [eexists; reflexivity|].
    apply Z.ltb_ge in E2. lia.
Qed.

(** X5: on a square matrix [maxmin] returns exactly when the matrix has at least
    one point, whatever n is, and raises the [ValueError] of
    [np.random.randint] otherwise; [uniform_sampling] returns exactly when
    the matrix has at least one point and n >= 1. *)
Theorem sampling_returns_iff (M : ndarray) (n : Z) (g : rng) :
  squareb M = true ->
  ((exists r, maxmin M n g = Ok r) <-> 0 < len M) /\
  (len M = 0 -> maxmin M n g = Raise (ValueError op_randint)) /\
  ((exists r, uniform_sampling M n g = Ok r) <-> 0 < len M /\ (1 <= n)%Z).
Proof.
  intro Hsq.
  assert (Hempty : len M = 0 -> maxmin M n g = Raise (ValueError op_randint)).
  { intro H. destruct M; [apply maxmin_empty_raises | discriminate]. }
  split; [|split; [exact Hempty|]]; split.
  - intros [r Hr]. destruct (len M) eqn:E; [|lia].
    rewrite (Hempty eq_refl) in Hr. discriminate.
  - intro Hpos.
    destruct (maxmin_returns M n g Hsq Hpos)
      as (r & ext & cr & g' & _ & Hrun & _).
    eexists. exact Hrun.
  - intros [r Hr].
    destruct (Nat.eq_dec (len M) 0) as [E|E].
    + destruct (uniform_sampling_fails M n g (or_introl E)) as [e He].
      congruence.
    + destruct (Z_lt_le_dec n 1) as [Hlt|Hle]; [|lia].
      destruct (uniform_sampling_fails M n g (or_intror Hlt)) as [e He].
      congruence.
  - intros [Hpos Hn].
    destruct (uniform_sampling_returns M n g Hsq Hpos Hn)
      as (L & cr & g' & _ & Hrun & _).
    eexists. exact Hrun.
Qed.

Lemma sampling_returns_iff_witness :
  squareb line3 = true /\
  ((exists r, maxmin line3 0 (tape [1]) = Ok r) <-> 0 < len line3) /\
  (len line3 = 0 ->
   maxmin line3 0 (tape [1]) = Raise (ValueError op_randint)) /\
  ((exists r, uniform_sampling line3 0 (tape [1]) = Ok r) <->
   0 < len line3 /\ (1 <= 0)%Z).
Proof.
  assert (Hs : squareb line3 = true) by reflexivity.
  split; [exact Hs|].
  exact (sampling_returns_iff line3 0 (tape [1]) Hs).
Defined.

(** ** More landmarks, smaller covering radius *)

Lemma uniform_sampling_inv (M : ndarray) (n : Z) (g g' : rng)
    (L : list nat) (cr : Q) :
  squareb M = true ->
  uniform_sampling M n g = Ok (L, cr, g') ->
  0 < len M /\ L <> [] /\ Forall (fun i => i < len M) L /\
  amax (colmin M L) = Ok cr.
Proof.
  intros Hsq Hrun.
  assert (Hpos : 0 < len M).
  { destruct (Nat.eq_dec (len M) 0) as [E|E]; [|lia].
    destruct (uniform_sampling_fails M n g (or_introl E)) as [e He].
    congruence. }
  assert (Hn : (1 <= n)%Z).
  { destruct (Z_lt_le_dec n 1) as [Hlt|Hle]; [|lia].
    destruct (uniform_sampling_fails M n g (or_intror Hlt)) as [e He].
    congruence. }
  destruct (uniform_sampling_returns M n g Hsq Hpos Hn)
    as (L0 & cr0 & g0 & _ & Hrun0 & Hcr & Hlen & HL).
  rewrite Hrun in Hrun0. injection Hrun0 as <- <- <-.
  repeat split; auto. intro E. subst L. simpl in Hlen. lia.
Qed.

Lemma maxmin_inv (M : ndarray) (n : Z) (g g' : rng)
    (L : list nat) (cr : Q) :
  squareb M = true ->
  maxmin M n g = Ok (L, cr, g') ->
  0 < len M /\ L <> [] /\ Forall (fun i => i < len M) L /\
  amax (colmin M L) = Ok cr /\ greedy M L /\
  length L = S (range (n - 1)).
Proof.
  intros Hsq Hrun.
  assert (Hpos : 0 < len M).
  { destruct M; [rewrite maxmin_empty_raises in Hrun; discriminate|].
    simpl. lia. }
  destruct (maxmin_returns M n g Hsq Hpos)
    as (r & ext & cr0 & g0 & _ & Hrun0 & Hcr & Hlen & HL & Hgr).
  rewrite Hrun in Hrun0. injection Hrun0 as -> -> ->.
  repeat split; auto; [discriminate | simpl; rewrite Hlen; reflexivity].
Qed.

Lemma colmin_antitone (M : ndarray) (S1 S2 : list nat) (p : nat) :
  squareb M = true ->
  S1 <> [] -> Forall (fun i => i < len M) S1 ->
  Forall (fun i => i < len M) S2 ->
  incl S1 S2 -> p < len M ->
  (nth p (colmin M S2) 0 <= nth p (colmin M S1) 0)%Q.
Proof.
  intros Hsq Hne H1 H2 Hincl Hp.
  destruct (colmin_is_entry M Hsq S1 p Hne H1 Hp) as (l & Hl & E).
  rewrite E. apply (colmin_le_entry M Hsq S2 l p H2 (Hincl l Hl) Hp).
Qed.

Lemma covering_antitone (M : ndarray) (S1 S2 : list nat) (c1 c2 : Q) :
  squareb M = true ->
  S1 <> [] -> Forall (fun i => i < len M) S1 ->
  S2 <> [] -> Forall (fun i => i < len M) S2 ->
  incl S1 S2 ->
  amax (colmin M S1) = Ok c1 -> amax (colmin M S2) = Ok c2 ->
  (c2 <= c1)%Q.
Proof.
  intros Hsq Hne1 H1 Hne2 H2 Hincl Hc1 Hc2.
  pose proof (colmin_length M Hsq S1 Hne1 H1) as Hl1.
  pose proof (colmin_length M Hsq S2 Hne2 H2) as Hl2.
  apply (amax_mono _ _ c1 c2 Hc1 Hc2); [lia|].
  intros k Hk. rewrite Hl1 in Hk.
  apply colmin_antitone; assumption.
Qed.

(** X6: the covering radius depends on the set of returned indices only, and
    decreases when the set grows: if every index of one result of
    [uniform_sampling] or [maxmin] occurs in another result on the same
    matrix, the second covering radius is at most the first.  Repeated draws
    add nothing. *)
Theorem more_landmarks_closer (M : ndarray)
    (n1 n2 : Z) (g1 g2 g1' g2' : rng) (L1 L2 : list nat) (cr1 cr2 : Q) :
  squareb M = true ->
  uniform_sampling M n1 g1 = Ok (L1, cr1, g1') \/
  maxmin M n1 g1 = Ok (L1, cr1, g1') ->
  uniform_sampling M n2 g2 = Ok (L2, cr2, g2') \/
  maxmin M n2 g2 = Ok (L2, cr2, g2') ->
  incl L1 L2 ->
  (cr2 <= cr1)%Q.
Proof.
  intros Hsq H1 H2 Hincl.
  assert (A1 : L1 <> [] /\ Forall (fun i => i < len M) L1 /\
               amax (colmin M L1) = Ok cr1).
  { destruct H1 as [H1|H1].
    - destruct (uniform_sampling_inv M n1 g1 g1' L1 cr1 Hsq H1)
        as (_ & ? & ? & ?). auto.
    - destruct (maxmin_inv M n1 g1 g1' L1 cr1 Hsq H1)
        as (_ & ? & ? & ? & _). auto. }
  assert (A2 : L2 <> [] /\ Forall (fun i => i < len M) L2 /\
               amax (colmin M L2) = Ok cr2).
  { destruct H2 as [H2|H2].
    - destruct (uniform_sampling_inv M n2 g2 g2' L2 cr2 Hsq H2)
        as (_ & ? & ? & ?). auto.
    - destruct (maxmin_inv M n2 g2 g2' L2 cr2 Hsq H2)
        as (_ & ? & ? & ? & _). auto. }
  destruct A1 as (Hne1 & HL1 & Hc1). destruct A2 as (Hne2 & HL2 & Hc2).
  exact (covering_antitone M L1 L2 cr1 cr2 Hsq Hne1 HL1 Hne2 HL2 Hincl
           Hc1 Hc2).
Qed.

Lemma more_landmarks_closer_witness :
  squareb line3 = true /\
  (uniform_sampling line3 1 (tape [1]) =
     Ok ([1], 2%Q, fun i => tape [1] (1 + i)) \/
   maxmin line3 1 (tape [1]) = Ok ([1], 2%Q, fun i => tape [1] (1 + i))) /\
  (uniform_sampling line3 3 (tape [1; 1; 0]) =
     Ok ([1; 1; 0], 2%Q, fun i => tape [1; 1; 0] (3 + i)) \/
   maxmin line3 3 (tape [1; 1; 0]) =
     Ok ([1; 1; 0], 2%Q, fun i => tape [1; 1; 0] (3 + i))) /\
  incl [1] [1; 1; 0] /\
  (2 <= 2)%Q.
Proof.
  assert (Hs : squareb line3 = true) by reflexivity.
  assert (H1 : uniform_sampling line3 1 (tape [1]) =
                 Ok ([1], 2%Q, fun i => tape [1] (1 + i)) \/
               maxmin line3 1 (tape [1]) =
                 Ok ([1], 2%Q, fun i => tape [1] (1 + i)))
    by (left; reflexivity).
  assert (H2 : uniform_sampling line3 3 (tape [1; 1; 0]) =
                 Ok ([1; 1; 0], 2%Q, fun i => tape [1; 1; 0] (3 + i)) \/
               maxmin line3 3 (tape [1; 1; 0]) =
                 Ok ([1; 1; 0], 2%Q, fun i => tape [1; 1; 0] (3 + i)))
    by (left; reflexivity).
  assert (Hi : incl [1] [1; 1; 0]) by (intros x [<-|[]]; simpl; auto).
  split; [exact Hs|]. split; [exact H1|]. split; [exact H2|].
  split; [exact Hi|].
  exact (more_landmarks_closer line3 1 3 _ _ _ _ [1] [1; 1; 0] 2 2
           Hs H1 H2 Hi).
Defined.

(** ** maxmin is within a factor two of any choice of landmarks *)

Lemma triangle_inequality (M : ndarray) (i j k : nat) :
  triangleb M = true -> i < len M -> j < len M -> k < len M ->
  (entry M i k <= entry M i j + entry M j k)%Q.
Proof.
  unfold triangleb. rewrite forallb_forall. intros H Hi Hj Hk.
  assert (Hin : In j (seq 0 (len M))) by (apply in_seq; lia).
  specialize (H j Hin).
  apply Qle_bool_iff. exact (proj1 (all_pairs_spec _ _) H i k Hi Hk).
Qed.

Lemma Forall2_nth_rel (A B : Type) (R : A -> B -> Prop)
    (l : list A) (l' : list B) (d : A) (d' : B) :
  Forall2 R l l' ->
  length l = length l' /\
  forall i, i < length l -> R (nth i l d) (nth i l' d').
Proof.
  induction 1 as [|x y l l' Hxy _ [IHlen IH]]; simpl.
  - split; [reflexivity | intros i Hi; lia].
  - split; [lia|]. intros [|i] Hi; [exact Hxy | apply IH; lia].
Qed.

(** Each point of a list has a nearest-enough element of [S]. *)
Lemma centers_exist (M : ndarray) (S : list nat) (c : Q) (P : list nat) :
  squareb M = true -> S <> [] -> Forall (fun i => i < len M) S ->
  amax (colmin M S) = Ok c ->
  Forall (fun q => q < len M) P ->
  exists Cs, Forall2 (fun q l => In l S /\ (entry M l q <= c)%Q) P Cs.
Proof.
  intros Hsq Hne HS Hc HP.
  destruct (colmin_covers M S c Hsq Hne HS Hc) as [Hcov _].
  induction HP as [|q P Hq _ [Cs IH]].
  - exists []. constructor.
  - destruct (Hcov q Hq) as (l & Hl & Hle).
    exists (l :: Cs). constructor; auto.
Qed.

(** Two positions of a list too long for its range hold the same value. *)
Lemma repeated_value (S Cs : list nat) :
  incl Cs S -> length S < length Cs ->
  exists i j, i < j < length Cs /\ nth i Cs 0 = nth j Cs 0.
Proof.
  intros Hincl Hlen.
  assert (Hnd : ~ NoDup Cs).
  { intro Hnd. pose proof (NoDup_incl_length Hnd Hincl). lia. }
  destruct (@ListDec.not_NoDup nat Nat.eq_decidable Cs Hnd)
    as (a & l1 & l2 & l3 & E).
  exists (length l1), (length l1 + Datatypes.S (length l2)). subst Cs. split.
  - rewrite !length_app. simpl. rewrite length_app. simpl. lia.
  - rewrite nth_middle.
    replace (l1 ++ a :: l2 ++ a :: l3) with ((l1 ++ a :: l2) ++ a :: l3)
      by (rewrite <- app_assoc; reflexivity).
    replace (length l1 + Datatypes.S (length l2)) with (length (l1 ++ a :: l2))
      by (rewrite length_app; simpl; lia).
    rewrite nth_middle. reflexivity.
Qed.

(** X7: on a valid distance matrix that satisfies the triangle inequality, the
    covering radius returned by [maxmin] for n >= 1 is at most twice the
    covering radius of any set of at most n points of the data: of the best
    possible choice of n landmarks and, in particular, of the indices
    [uniform_sampling] returns for the same n. *)
Theorem maxmin_two_approx (M : ndarray) (n : Z) (g : rng)
    (S : list nat) (r : Q) :
  valid M -> triangleb M = true -> (1 <= n)%Z ->
  S <> [] -> Forall (fun i => i < len M) S ->
  (Z.of_nat (length S) <= n)%Z ->
  covering_radius M S = Some r ->
  exists L cr g',
    maxmin M n g = Ok (L, cr, g') /\ (cr <= 2 * r)%Q.
Proof.
  intros Hv Htri Hn HSne HS HSlen Hr.
  pose proof (valid_square M Hv) as Hsq.
  assert (Hpos : 0 < len M).
  { destruct S as [|l ls]; [congruence|].
    inversion HS; subst. lia. }
  destruct (colmin_amax_ok M S Hsq Hpos HSne HS) as [c Hc].
  destruct (covering_radius_colmin M S c Hv HSne HS Hc) as (b & Hb & Ecb).
  rewrite Hr in Hb. injection Hb as <-.
  destruct (maxmin_returns M n g Hsq Hpos)
    as (r0 & ext & cr & g' & _ & Hrun & Hcr & Hlen & HL & Hgr).
  set (L := r0 :: ext) in *.
  assert (HLlen : length L = Z.to_nat n)
    by (unfold L; simpl; rewrite Hlen; unfold range; lia).
  exists L, cr, g'. split; [exact Hrun|].
  destruct (amax_spec _ _ Hcr) as [_ (k & Hk & Ek)].
  rewrite (colmin_length M Hsq L ltac:(discriminate) HL) in Hk.
  set (P := L ++ [k]).
  assert (HP : Forall (fun q => q < len M) P)
    by (apply Forall_app; split; [exact HL | constructor; auto]).
  assert (HPlen : length P = Datatypes.S (length L))
    by (unfold P; rewrite length_app; simpl; lia).
  assert (Hapart : forall i j, i < j < length P ->
            (cr <= entry M (nth i P 0%nat) (nth j P 0%nat))%Q).
  { intros i j Hij. unfold P.
    rewrite (app_nth1 L [k] 0 (n := i)) by lia.
    destruct (Nat.eq_dec j (length L)) as [->|Hne].
    - rewrite nth_middle. rewrite <- Ek.
      apply (colmin_le_entry M Hsq L (nth i L 0) k HL); [|exact Hk].
      apply nth_In. lia.
    - rewrite (app_nth1 L [k] 0 (n := j)) by lia.
      apply (greedy_apart M L cr Hsq Hpos ltac:(discriminate) HL Hgr Hcr).
      lia. }
  destruct (centers_exist M S c P Hsq HSne HS Hc HP) as [Cs HCs].
  destruct (Forall2_nth_rel _ _ _ P Cs 0 0 HCs) as [HClen HCnth].
  assert (Hincl : incl Cs S).
  { intros x Hx. destruct (In_nth Cs x 0 Hx) as (i & Hi & <-).
    apply (HCnth i). lia. }
  destruct (repeated_value S Cs Hincl ltac:(lia)) as (i & j & Hij & Eij).
  pose proof (Hapart i j ltac:(lia)) as H1.
  destruct (HCnth i ltac:(lia)) as [Hci Hdi].
  destruct (HCnth j ltac:(lia)) as [Hcj Hdj].
  rewrite <- Eij in Hdj.
  set (a := nth i Cs 0) in *.
  set (pi := nth i P 0) in *. set (pj := nth j P 0) in *.
  assert (Ha : a < len M) by (rewrite Forall_forall in HS; auto).
  assert (Hpi : pi < len M)
    by (rewrite Forall_forall in HP; apply HP; apply nth_In; lia).
  assert (Hpj : pj < len M)
    by (rewrite Forall_forall in HP; apply HP; apply nth_In; lia).
  pose proof (triangle_inequality M pi a pj Htri Hpi Ha Hpj) as H2.
  pose proof (valid_symmetric M pi a Hv Hpi Ha) as H3.
  rewrite <- Ecb. lra.
Qed.

Lemma maxmin_two_approx_witness :
  valid line3 /\ triangleb line3 = true /\ (1 <= 1)%Z /\
  [1] <> [] /\ Forall (fun i => i < len line3) [1] /\
  (Z.of_nat (length [1]) <= 1)%Z /\
  covering_radius line3 [1] = Some 2%Q /\
  exists L cr g',
    maxmin line3 1 (tape [0]) = Ok (L, cr, g') /\ (cr <= 2 * 2)%Q.
Proof.
  assert (Hv : valid line3) by reflexivity.
  assert (Ht : triangleb line3 = true) by reflexivity.
  assert (Hn : (1 <= 1)%Z) by lia.
  assert (Hne : [1] <> []) by discriminate.
  assert (HS : Forall (fun i => i < len line3) [1])
    by (constructor; [simpl; lia | constructor]).
  assert (Hl : (Z.of_nat (length [1]) <= 1)%Z) by (simpl; lia).
  assert (Hr : covering_radius line3 [1] = Some 2%Q) by reflexivity.
  split; [exact Hv|]. split; [exact Ht|]. split; [exact Hn|].
  split; [exact Hne|]. split; [exact HS|]. split; [exact Hl|].
  split; [exact Hr|].
  exact (maxmin_two_approx line3 1 (tape [0]) [1] 2 Hv Ht Hn Hne HS Hl Hr).
Defined.

(** * The Rips complex cell *)

Example rips_cell_line3 :
  rips_cell line3 data3 3 (5 # 2) =
  Ok (mkRips [] [] []
        [Some 0; Some 1; None; Some 1; Some 3; None]%Q
        [Some 0; Some 0; None; Some 0; Some 0; None]%Q
        [Some 0; Some 0; None; Some 0; Some 0; None]%Q).
Proof. reflexivity. Qed.

Example rips_cell_line3_all :
  rips_cell line3 data3 3 4 =
  Ok (mkRips [0] [1] [2]
        [Some 0; Some 1; None; Some 0; Some 3; None; Some 1; Some 3; None]%Q
        [Some 0; Some 0; None; Some 0; Some 0; None; Some 0; Some 0; None]%Q
        [Some 0; Some 0; None; Some 0; Some 0; None; Some 0; Some 0; None]%Q).
Proof. reflexivity. Qed.

Example rips_cell_too_many :
  rips_cell line3 data3 4 4 = Raise (IndexError op_getitem).
Proof. reflexivity. Qed.

Lemma shapeb_spec (A : ndarray) (r c : nat) :
  shapeb A r c = true ->
  length A = r /\ forall i, i < r -> length (nth i A []) = c.
Proof.
  unfold shapeb. rewrite andb_true_iff, forallb_forall.
  intros [Hr Hc]. apply Nat.eqb_eq in Hr. split; [exact Hr|].
  intros i Hi. apply Nat.eqb_eq. apply Hc. apply nth_In. lia.
Qed.

Lemma getitem2_entry (A : ndarray) (r c i j : nat) :
  shapeb A r c = true -> i < r -> j < c ->
  getitem2 A i j = Ok (entry A i j).
Proof.
  intros Hs Hi Hj. destruct (shapeb_spec A r c Hs) as [Hr Hc].
  unfold getitem2, entry.
  destruct (nth_error A i) as [row|] eqn:Ei.
  - rewrite (nth_error_nth _ _ _ Ei).
    assert (Hlen : length row = c).
    { rewrite <- (Hc i Hi). rewrite (nth_error_nth _ _ _ Ei). reflexivity. }
    destruct (nth_error row j) as [x|] eqn:Ej.
    + rewrite (nth_error_nth _ _ _ Ej). reflexivity.
    + apply nth_error_None in Ej. lia.
  - apply nth_error_None in Ei. lia.
Qed.

Lemma getitem2_out (A : ndarray) (r c i j : nat) :
  shapeb A r c = true -> r <= i \/ c <= j ->
  getitem2 A i j = Raise (IndexError op_getitem).
Proof.
  intros Hs Hij. destruct (shapeb_spec A r c Hs) as [Hr Hc].
  unfold getitem2.
  destruct (nth_error A i) as [row|] eqn:Ei; [|reflexivity].
  assert (Hi : i < r).
  { rewrite <- Hr. apply nth_error_Some. congruence. }
  assert (Hlen : length row = c).
  { rewrite <- (Hc i Hi). rewrite (nth_error_nth _ _ _ Ei). reflexivity. }
  destruct (nth_error row j) as [x|] eqn:Ej; [|reflexivity].
  assert (j < length row) by (apply nth_error_Some; congruence).
  lia.
Qed.

Lemma polyline_app (coords : list Q) (E E' : list (nat * nat)) :
  polyline coords (E ++ E') = polyline coords E ++ polyline coords E'.
Proof.
  unfold polyline. apply flat_map_app.
Qed.

(** A loop whose body appends the triangles [fT x] and the edges [fE x]. *)
Lemma for_each_encodes (A : Type) (data : ndarray) (l : list A)
    (body : A -> rips -> res rips)
    (fT : A -> list (nat * nat * nat)) (fE : A -> list (nat * nat)) :
  (forall x s T E, In x l -> encodes data s T E ->
     exists s', body x s = Ok s' /\
                encodes data s' (T ++ fT x) (E ++ fE x)) ->
  forall s T E, encodes data s T E ->
    exists s', for_each l body s = Ok s' /\
               encodes data s' (T ++ flat_map fT l) (E ++ flat_map fE l).
Proof.
  induction l as [|x l IH]; intros Hbody s T E Hs.
  - exists s. simpl. rewrite !app_nil_r. auto.
  - destruct (Hbody x s T E (or_introl eq_refl) Hs) as (s1 & Hb & Hs1).
    destruct (IH (fun y s0 T0 E0 Hy => Hbody y s0 T0 E0 (or_intror Hy))
                 s1 _ _ Hs1) as (s2 & Hrun & Hs2).
    exists s2. simpl. rewrite Hb. simpl. split; [exact Hrun|].
    rewrite !app_assoc. exact Hs2.
Qed.

Lemma flat_map_nil (A B : Type) (l : list A) :
  flat_map (fun _ : A => @nil B) l = [].
Proof.
  induction l; simpl; auto.
Qed.

Lemma in_range_from (a b x : nat) :
  In x (range_from a b) <-> a <= x < b.
Proof.
  unfold range_from. rewrite in_seq. lia.
Qed.

Section Rips.

Variables distMat data : ndarray.
Variable n_data : nat.
Variable alpha : Q.
Hypothesis Hdist : shapeb distMat n_data n_data = true.
Hypothesis Hdata : shapeb data 3 n_data = true.

Lemma add_edge_encodes (i j : nat) (s : rips)
    (T : list (nat * nat * nat)) (E : list (nat * nat)) :
  i < n_data -> j < n_data -> encodes data s T E ->
  exists s', add_edge data i j s = Ok s' /\
             encodes data s' T (E ++ [(i, j)]).
Proof.
  intros Hi Hj (H1 & H2 & H3 & H4 & H5 & H6). unfold add_edge.
  rewrite !(getitem2_entry data 3 n_data) by (assumption || lia).
  cbn [bind]. eexists. split; [reflexivity|].
  unfold encodes. cbn [ii jj kk e_x e_y e_z].
  rewrite !polyline_app, H4, H5, H6. repeat split; assumption.
Qed.

Lemma add_triangle_encodes (i j k : nat) (s : rips)
    (T : list (nat * nat * nat)) (E : list (nat * nat)) :
  encodes data s T E ->
  encodes data (add_triangle i j k s) (T ++ [(i, j, k)]) E.
Proof.
  intros (H1 & H2 & H3 & H4 & H5 & H6).
  unfold encodes, add_triangle. cbn [ii jj kk e_x e_y e_z].
  rewrite !map_app, H1, H2, H3. repeat split; assumption.
Qed.

(** What the cell computes on arrays of the right shapes. *)
Lemma rips_cell_spec :
  exists r,
    rips_cell distMat data n_data alpha = Ok r /\
    encodes data r (rips_triangles distMat n_data alpha)
                   (rips_edges distMat n_data alpha).
Proof.
  unfold rips_cell.
  assert (H0 : encodes data (mkRips [] [] [] [] [] []) [] [])
    by (unfold encodes; simpl; auto 10).
  refine (for_each_encodes nat data (range_from 0 n_data) _
            (fun i =>
               flat_map (fun j => if Qltb (entry distMat i j) alpha
                                  then triangles_from distMat n_data alpha i j
                                  else [])
                        (range_from (i + 1) n_data))
            (edges_from distMat n_data alpha) _
            (mkRips [] [] [] [] [] []) [] [] H0).
  intros i s T E Hi Hs. apply in_range_from in Hi.
  refine (for_each_encodes nat data (range_from (i + 1) n_data) _
            (fun j => if Qltb (entry distMat i j) alpha
                      then triangles_from distMat n_data alpha i j else [])
            (fun j => if Qltb (entry distMat i j) alpha then [(i, j)] else [])
            _ s T E Hs).
  intros j s1 T1 E1 Hj Hs1. apply in_range_from in Hj.
  rewrite (getitem2_entry distMat n_data n_data) by (assumption || lia).
  cbn [bind].
  destruct (Qltb (entry distMat i j) alpha).
  - destruct (add_edge_encodes i j s1 T1 E1 ltac:(lia) ltac:(lia) Hs1)
      as (s2 & Hadd & Hs2).
    rewrite Hadd. cbn [bind].
    destruct (for_each_encodes nat data (range_from (j + 1) n_data)
                (fun k s =>
                   djk <- getitem2 distMat j k ;;
                   dik <- getitem2 distMat i k ;;
                   m <- amax [djk; dik] ;;
                   if Qltb m alpha then Ok (add_triangle i j k s) else Ok s)
                (fun k => if Qltb (Qmax (entry distMat j k)
                                        (entry distMat i k)) alpha
                          then [(i, j, k)] else [])
                (fun _ => [])) with (s := s2) (T := T1) (E := E1 ++ [(i, j)])
      as (s3 & Hrun & Hs3).
    + intros k s0 T0 E0 Hk Hs0. apply in_range_from in Hk.
      rewrite !(getitem2_entry distMat n_data n_data) by (assumption || lia).
      cbn [bind amax fold_left].
      destruct (Qltb (Qmax (entry distMat j k) (entry distMat i k)) alpha).
      * eexists. split; [reflexivity|]. rewrite app_nil_r.
        apply add_triangle_encodes. exact Hs0.
      * eexists. split; [reflexivity|]. rewrite !app_nil_r. exact Hs0.
    + exact Hs2.
    + exists s3. split; [exact Hrun|].
      rewrite flat_map_nil, app_nil_r in Hs3. exact Hs3.
  - exists s1. split; [reflexivity|]. rewrite !app_nil_r. exact Hs1.
Qed.

End Rips.

Lemma in_edges_from (M : ndarray) (n : nat) (alpha : Q) (i a b : nat) :
  In (a, b) (edges_from M n alpha i) <->
  a = i /\ i < b < n /\ (entry M i b < alpha)%Q.
Proof.
  unfold edges_from. rewrite in_flat_map. split.
  - intros (j & Hj & Hin). apply in_range_from in Hj.
    destruct (Qltb (entry M i j) alpha) eqn:E; [|destruct Hin].
    destruct Hin as [Heq|[]]. injection Heq as <- <-.
    apply Qltb_true in E. repeat split; auto; lia.
  - intros (-> & Hb & Hlt). exists b. split.
    + apply in_range_from. lia.
    + apply Qltb_true in Hlt. rewrite Hlt. now left.
Qed.

Lemma in_rips_edges (M : ndarray) (n : nat) (alpha : Q) (i j : nat) :
  In (i, j) (rips_edges M n alpha) <->
  i < j < n /\ (entry M i j < alpha)%Q.
Proof.
  unfold rips_edges. rewrite in_flat_map. split.
  - intros (x & Hx & Hin). apply in_edges_from in Hin.
    destruct Hin as (-> & Hj & Hlt). auto.
  - intros (Hij & Hlt). exists i. split.
    + apply in_range_from. lia.
    + apply in_edges_from. auto.
Qed.

Lemma Qltb_max (a b alpha : Q) :
  Qltb (Qmax a b) alpha = true <-> (a < alpha)%Q /\ (b < alpha)%Q.
Proof.
  rewrite Qltb_true. apply Q.max_lub_lt_iff.
Qed.

Lemma in_triangles_from (M : ndarray) (n : nat) (alpha : Q)
    (i j a b c : nat) :
  In (a, b, c) (triangles_from M n alpha i j) <->
  a = i /\ b = j /\ j < c < n /\
  (entry M j c < alpha)%Q /\ (entry M i c < alpha)%Q.
Proof.
  unfold triangles_from. rewrite in_flat_map. split.
  - intros (k & Hk & Hin). apply in_range_from in Hk.
    destruct (Qltb (Qmax (entry M j k) (entry M i k)) alpha) eqn:E;
      [|destruct Hin].
    destruct Hin as [Heq|[]]. injection Heq as <- <- <-.
    apply Qltb_max in E. destruct E. repeat split; auto; lia.
  - intros (-> & -> & Hc & H1 & H2). exists c. split.
    + apply in_range_from. lia.
    + rewrite (proj2 (Qltb_max _ _ _) (conj H1 H2)). now left.
Qed.

Lemma in_rips_triangles (M : ndarray) (n : nat) (alpha : Q) (i j k : nat) :
  In (i, j, k) (rips_triangles M n alpha) <->
  i < j /\ j < k /\ k < n /\
  (entry M i j < alpha)%Q /\ (entry M j k < alpha)%Q /\
  (entry M i k < alpha)%Q.
Proof.
  unfold rips_triangles. rewrite in_flat_map. split.
  - intros (x & Hx & Hin). apply in_flat_map in Hin.
    destruct Hin as (y & Hy & Hin). apply in_range_from in Hy.
    destruct (Qltb (entry M x y) alpha) eqn:E; [|destruct Hin].
    apply in_triangles_from in Hin.
    destruct Hin as (-> & -> & Hk & H1 & H2).
    apply Qltb_true in E. repeat split; auto; lia.
  - intros (Hij & Hjk & Hk & H1 & H2 & H3). exists i. split.
    + apply in_range_from. lia.
    + apply in_flat_map. exists j. split.
      * apply in_range_from. lia.
      * apply Qltb_true in H1. rewrite H1.
        apply in_triangles_from. repeat split; auto.
Qed.

(** A list built from distinct keys, each part without repeats and made of
    elements that carry their key, has no repeats. *)
Lemma NoDup_flat_map_key (A B : Type) (f : A -> list B) (key : B -> A)
    (l : list A) :
  NoDup l ->
  (forall x, In x l -> NoDup (f x)) ->
  (forall x y, In y (f x) -> key y = x) ->
  NoDup (flat_map f l).
Proof.
  intros Hl Hf Hkey. induction Hl as [|x l Hx Hl IH]; simpl.
  - constructor.
  - apply NoDup_app.
    + apply Hf. now left.
    + apply IH. intros y Hy. apply Hf. now right.
    + intros b Hb Hb'. apply in_flat_map in Hb'.
      destruct Hb' as (x' & Hx' & Hb').
      rewrite <- (Hkey x b Hb), (Hkey x' b Hb') in Hx. contradiction.
Qed.

Lemma NoDup_range_from (a b : nat) : NoDup (range_from a b).
Proof.
  apply seq_NoDup.
Qed.

Lemma NoDup_guarded (B : Type) (c : bool) (l : list B) :
  NoDup l -> NoDup (if c then l else []).
Proof.
  destruct c; [auto | constructor].
Qed.

Lemma NoDup_one (B : Type) (x : B) : NoDup [x].
Proof.
  constructor; [intros [] | constructor].
Qed.

Lemma rips_edges_NoDup (M : ndarray) (n : nat) (alpha : Q) :
  NoDup (rips_edges M n alpha).
Proof.
  unfold rips_edges.
  apply (NoDup_flat_map_key _ _ _ fst); [apply NoDup_range_from | |].
  - intros i _. unfold edges_from.
    apply (NoDup_flat_map_key _ _ _ snd); [apply NoDup_range_from | |].
    + intros j _. apply NoDup_guarded, NoDup_one.
    + intros j [a b] H.
      destruct (Qltb (entry M i j) alpha); [|destruct H].
      destruct H as [H|[]]. injection H as <- <-. reflexivity.
  - intros i [a b] H. apply in_edges_from in H. simpl. tauto.
Qed.

Lemma triangles_from_NoDup (M : ndarray) (n : nat) (alpha : Q) (i j : nat) :
  NoDup (triangles_from M n alpha i j).
Proof.
  unfold triangles_from.
  apply (NoDup_flat_map_key _ _ _ snd); [apply NoDup_range_from | |].
  - intros k _. apply NoDup_guarded, NoDup_one.
  - intros k [[a b] c] H.
    destruct (Qltb (Qmax (entry M j k) (entry M i k)) alpha); [|destruct H].
    destruct H as [H|[]]. injection H as <- <- <-. reflexivity.
Qed.

Lemma rips_triangles_NoDup (M : ndarray) (n : nat) (alpha : Q) :
  NoDup (rips_triangles M n alpha).
Proof.
  unfold rips_triangles.
  apply (NoDup_flat_map_key _ _ _ (fun t => fst (fst t)));
    [apply NoDup_range_from | |].
  - intros i _.
    apply (NoDup_flat_map_key _ _ _ (fun t => snd (fst t)));
      [apply NoDup_range_from | |].
    + intros j _. apply NoDup_guarded, triangles_from_NoDup.
    + intros j [[a b] c] H.
      destruct (Qltb (entry M i j) alpha); [|destruct H].
      apply in_triangles_from in H. simpl. tauto.
  - intros i [[a b] c] H. apply in_flat_map in H.
    destruct H as (j & _ & H).
    destruct (Qltb (entry M i j) alpha); [|destruct H].
    apply in_triangles_from in H. simpl. tauto.
Qed.

Lemma triangles_of_encodes (data : ndarray) (r : rips)
    (T : list (nat * nat * nat)) (E : list (nat * nat)) :
  encodes data r T E ->
  triangles r = T /\
  length (ii r) = length T /\ length (jj r) = length T /\
  length (kk r) = length T.
Proof.
  intros (H1 & H2 & H3 & _). unfold triangles. rewrite H1, H2, H3.
  rewrite !length_map. split; [|repeat split].
  clear H1 H2 H3.
  induction T as [|[[a b] c] T IH]; simpl; [reflexivity|].
  rewrite IH. reflexivity.
Qed.

Lemma polyline_length (coords : list Q) (E : list (nat * nat)) :
  length (polyline coords E) = 3 * length E.
Proof.
  unfold polyline. induction E as [|[i j] E IH]; simpl; [reflexivity|].
  simpl in IH. rewrite IH. lia.
Qed.

(** X9: the edges drawn by the cell.  On an n x n distance matrix and 3 x n
    coordinates the cell returns; the three coordinate lists are the
    polylines (two end points, then [None]) of one list of index pairs, in
    which every pair i < j < n at distance below [alpha] occurs exactly once
    and no other pair occurs; each list has three entries per edge. *)
Theorem rips_cell_edges (distMat data : ndarray) (n_data : nat) (alpha : Q) :
  shapeb distMat n_data n_data = true ->
  shapeb data 3 n_data = true ->
  exists r,
    rips_cell distMat data n_data alpha = Ok r /\
    e_x r = polyline (row data 0) (rips_edges distMat n_data alpha) /\
    e_y r = polyline (row data 1) (rips_edges distMat n_data alpha) /\
    e_z r = polyline (row data 2) (rips_edges distMat n_data alpha) /\
    length (e_x r) = 3 * length (rips_edges distMat n_data alpha) /\
    NoDup (rips_edges distMat n_data alpha) /\
    forall i j, In (i, j) (rips_edges distMat n_data alpha) <->
                i < j < n_data /\ (entry distMat i j < alpha)%Q.
Proof.
  intros Hd Hx.
  destruct (rips_cell_spec distMat data n_data alpha Hd Hx) as (r & Hr & He).
  exists r. destruct He as (_ & _ & _ & H4 & H5 & H6).
  split; [exact Hr|]. split; [exact H4|]. split; [exact H5|].
  split; [exact H6|].
  split; [rewrite H4; apply polyline_length|].
  split; [apply rips_edges_NoDup|].
  intros i j. apply in_rips_edges.
Qed.

Lemma rips_cell_edges_witness :
  shapeb line3 3 3 = true /\ shapeb data3 3 3 = true /\
  exists r,
    rips_cell line3 data3 3 (5 # 2) = Ok r /\
    e_x r = polyline (row data3 0) (rips_edges line3 3 (5 # 2)) /\
    e_y r = polyline (row data3 1) (rips_edges line3 3 (5 # 2)) /\
    e_z r = polyline (row data3 2) (rips_edges line3 3 (5 # 2)) /\
    length (e_x r) = 3 * length (rips_edges line3 3 (5 # 2)) /\
    NoDup (rips_edges line3 3 (5 # 2)) /\
    forall i j, In (i, j) (rips_edges line3 3 (5 # 2)) <->
                i < j < 3 /\ (entry line3 i j < 5 # 2)%Q.
Proof.
  assert (Hd : shapeb line3 3 3 = true) by reflexivity.
  assert (Hx : shapeb data3 3 3 = true) by reflexivity.
  split; [exact Hd|]. split; [exact Hx|].
  exact (rips_cell_edges line3 data3 3 (5 # 2) Hd Hx).
Defined.

(** X10: the triangles listed by the cell.  The three index lists have one
    length, and the triples (ii[t], jj[t], kk[t]) are, each exactly once,
    the triples i < j < k < n whose three pairwise distances are all below
    [alpha]. *)
Theorem rips_cell_triangles (distMat data : ndarray) (n_data : nat)
    (alpha : Q) :
  shapeb distMat n_data n_data = true ->
  shapeb data 3 n_data = true ->
  exists r,
    rips_cell distMat data n_data alpha = Ok r /\
    length (ii r) = length (jj r) /\ length (jj r) = length (kk r) /\
    NoDup (triangles r) /\
    forall i j k,
      In (i, j, k) (triangles r) <->
      i < j /\ j < k /\ k < n_data /\
      (entry distMat i j < alpha)%Q /\ (entry distMat j k < alpha)%Q /\
      (entry distMat i k < alpha)%Q.
Proof.
  intros Hd Hx.
  destruct (rips_cell_spec distMat data n_data alpha Hd Hx) as (r & Hr & He).
  destruct (triangles_of_encodes data r _ _ He) as (Ht & L1 & L2 & L3).
  exists r. split; [exact Hr|]. split; [congruence|]. split; [congruence|].
  rewrite Ht. split; [apply rips_triangles_NoDup|].
  intros i j k. apply in_rips_triangles.
Qed.

Lemma rips_cell_triangles_witness :
  shapeb line3 3 3 = true /\ shapeb data3 3 3 = true /\
  exists r,
    rips_cell line3 data3 3 4 = Ok r /\
    length (ii r) = length (jj r) /\ length (jj r) = length (kk r) /\
    NoDup (triangles r) /\
    forall i j k,
      In (i, j, k) (triangles r) <->
      i < j /\ j < k /\ k < 3 /\
      (entry line3 i j < 4)%Q /\ (entry line3 j k < 4)%Q /\
      (entry line3 i k < 4)%Q.
Proof.
  assert (Hd : shapeb line3 3 3 = true) by reflexivity.
  assert (Hx : shapeb data3 3 3 = true) by reflexivity.
  split; [exact Hd|]. split; [exact Hx|].
  exact (rips_cell_triangles line3 data3 3 4 Hd Hx).
Defined.

(** X11: the cell builds a simplicial complex: the three sides of every triangle
    it lists are among the edges it draws. *)
Theorem rips_cell_faces (distMat data : ndarray) (n_data : nat) (alpha : Q) :
  shapeb distMat n_data n_data = true ->
  shapeb data 3 n_data = true ->
  exists r,
    rips_cell distMat data n_data alpha = Ok r /\
    e_x r = polyline (row data 0) (rips_edges distMat n_data alpha) /\
    forall i j k,
      In (i, j, k) (triangles r) ->
      In (i, j) (rips_edges distMat n_data alpha) /\
      In (j, k) (rips_edges distMat n_data alpha) /\
      In (i, k) (rips_edges distMat n_data alpha).
Proof.
  intros Hd Hx.
  destruct (rips_cell_spec distMat data n_data alpha Hd Hx) as (r & Hr & He).
  destruct (triangles_of_encodes data r _ _ He) as (Ht & _).
  exists r. split; [exact Hr|]. split; [apply He|].
  intros i j k H. rewrite Ht in H. apply in_rips_triangles in H.
  destruct H as (Hij & Hjk & Hk & H1 & H2 & H3).
  repeat split; apply in_rips_edges; split; auto; lia.
Qed.

Lemma rips_cell_faces_witness :
  shapeb line3 3 3 = true /\ shapeb data3 3 3 = true /\
  exists r,
    rips_cell line3 data3 3 4 = Ok r /\
    e_x r = polyline (row data3 0) (rips_edges line3 3 4) /\
    forall i j k,
      In (i, j, k) (triangles r) ->
      In (i, j) (rips_edges line3 3 4) /\
      In (j, k) (rips_edges line3 3 4) /\
      In (i, k) (rips_edges line3 3 4).
Proof.
  assert (Hd : shapeb line3 3 3 = true) by reflexivity.
  assert (Hx : shapeb data3 3 3 = true) by reflexivity.
  split; [exact Hd|]. split; [exact Hx|].
  exact (rips_cell_faces line3 data3 3 4 Hd Hx).
Defined.

(** X12: the complexes are nested: raising the threshold keeps every edge and
    every triangle. *)
Theorem rips_cell_monotone (distMat data : ndarray) (n_data : nat)
    (alpha alpha' : Q) :
  shapeb distMat n_data n_data = true ->
  shapeb data 3 n_data = true ->
  (alpha <= alpha')%Q ->
  exists r r',
    rips_cell distMat data n_data alpha = Ok r /\
    rips_cell distMat data n_data alpha' = Ok r' /\
    incl (triangles r) (triangles r') /\
    incl (rips_edges distMat n_data alpha)
         (rips_edges distMat n_data alpha') /\
    length (e_x r) <= length (e_x r') /\
    length (ii r) <= length (ii r').
Proof.
  intros Hd Hx Hle.
  destruct (rips_cell_spec distMat data n_data alpha Hd Hx) as (r & Hr & He).
  destruct (rips_cell_spec distMat data n_data alpha' Hd Hx)
    as (r' & Hr' & He').
  destruct (triangles_of_encodes data r _ _ He) as (Ht & Hl & _).
  destruct (triangles_of_encodes data r' _ _ He') as (Ht' & Hl' & _).
  assert (HT : incl (rips_triangles distMat n_data alpha)
                    (rips_triangles distMat n_data alpha')).
  { intros [[i j] k] H. apply in_rips_triangles in H.
    apply in_rips_triangles.
    destruct H as (? & ? & ? & H1 & H2 & H3).
    repeat split; auto; eapply Qlt_le_trans; eauto. }
  assert (HE : incl (rips_edges distMat n_data alpha)
                    (rips_edges distMat n_data alpha')).
  { intros [i j] H. apply in_rips_edges in H. apply in_rips_edges.
    destruct H as [? H1]. split; auto. eapply Qlt_le_trans; eauto. }
  exists r, r'. split; [exact Hr|]. split; [exact Hr'|].
  rewrite Ht, Ht'. split; [exact HT|]. split; [exact HE|]. split.
  - destruct He as (_ & _ & _ & H4 & _). destruct He' as (_ & _ & _ & H4' & _).
    rewrite H4, H4', !polyline_length.
    pose proof (NoDup_incl_length (rips_edges_NoDup distMat n_data alpha) HE).
    lia.
  - rewrite Hl, Hl'.
    exact (NoDup_incl_length (rips_triangles_NoDup distMat n_data alpha) HT).
Qed.

Lemma rips_cell_monotone_witness :
  shapeb line3 3 3 = true /\ shapeb data3 3 3 = true /\ (5 # 2 <= 4)%Q /\
  exists r r',
    rips_cell line3 data3 3 (5 # 2) = Ok r /\
    rips_cell line3 data3 3 4 = Ok r' /\
    incl (triangles r) (triangles r') /\
    incl (rips_edges line3 3 (5 # 2)) (rips_edges line3 3 4) /\
    length (e_x r) <= length (e_x r') /\
    length (ii r) <= length (ii r').
Proof.
  assert (Hd : shapeb line3 3 3 = true) by reflexivity.
  assert (Hx : shapeb data3 3 3 = true) by reflexivity.
  assert (Hle : (5 # 2 <= 4)%Q) by (unfold Qle; simpl; lia).
  split; [exact Hd|]. split; [exact Hx|]. split; [exact Hle|].
  exact (rips_cell_monotone line3 data3 3 (5 # 2) 4 Hd Hx Hle).
Defined.

(** ** The cell on a matrix that is too small *)

Lemma for_each_ok_inv (A S : Type) (l : list A) (body : A -> S -> res S)
    (s s' : S) (x : A) :
  for_each l body s = Ok s' -> In x l ->
  exists s1 s2, body x s1 = Ok s2.
Proof.
  revert s. induction l as [|y l IH]; intros s Hrun Hx; [destruct Hx|].
  simpl in Hrun. destruct (body y s) as [s1|e] eqn:Eb; [|discriminate].
  simpl in Hrun. destruct Hx as [->|Hx].
  - exists s, s1. exact Eb.
  - exact (IH s1 Hrun Hx).
Qed.

Lemma for_each_raise (A S : Type) (l : list A) (body : A -> S -> res S)
    (s : S) (e : exn) :
  for_each l body s = Raise e ->
  exists x s1, In x l /\ body x s1 = Raise e.
Proof.
  revert s. induction l as [|y l IH]; intros s Hrun; [discriminate|].
  simpl in Hrun. destruct (body y s) as [s1|e'] eqn:Eb; simpl in Hrun.
  - destruct (IH s1 Hrun) as (x & s2 & Hx & Hb).
    exists x, s2. split; [now right | exact Hb].
  - injection Hrun as <-. exists y, s. split; [now left | exact Eb].
Qed.

Lemma getitem2_raise (A : ndarray) (i j : nat) (e : exn) :
  getitem2 A i j = Raise e -> e = IndexError op_getitem.
Proof.
  unfold getitem2. destruct (nth_error A i) as [r|]; [|congruence].
  destruct (nth_error r j); congruence.
Qed.

(** Whatever the cell raises is the [IndexError] of an array access. *)
Lemma rips_cell_raise (distMat data : ndarray) (n_data : nat) (alpha : Q)
    (e : exn) :
  rips_cell distMat data n_data alpha = Raise e ->
  e = IndexError op_getitem.
Proof.
  unfold rips_cell. intro H.
  apply for_each_raise in H. destruct H as (i & s1 & _ & H).
  apply for_each_raise in H. destruct H as (j & s2 & _ & H).
  apply bind_raise in H. destruct H as [H | (d & _ & H)];
    [exact (getitem2_raise _ _ _ _ H)|].
  destruct (Qltb d alpha); [|discriminate].
  apply bind_raise in H. destruct H as [H | (s3 & _ & H)].
  - unfold add_edge in H.
    (repeat match type of H with
            | bind _ _ = Raise _ =>
                apply bind_raise in H;
                destruct H as [H | (? & _ & H)];
                [try exact (getitem2_raise _ _ _ _ H) |]
            end).
    discriminate.
  - apply for_each_raise in H. destruct H as (k & s4 & _ & H).
    (repeat match type of H with
            | bind _ _ = Raise _ =>
                apply bind_raise in H;
                destruct H as [H | (? & _ & H)];
                [try exact (getitem2_raise _ _ _ _ H) |]
            end);
      try (simpl in H; discriminate).
    destruct (Qltb _ alpha); discriminate.
Qed.

(** X13: if the cell is run with more points than the distance matrix has
    (n_data > N, n_data >= 2), it raises [IndexError], whatever the
    coordinates and the threshold are. *)
Theorem rips_cell_out_of_bounds (distMat data : ndarray) (N n_data : nat)
    (alpha : Q) :
  shapeb distMat N N = true -> N < n_data -> 2 <= n_data ->
  rips_cell distMat data n_data alpha = Raise (IndexError op_getitem).
Proof.
  intros Hd HN H2.
  destruct (rips_cell distMat data n_data alpha) as [r|e] eqn:Hrun.
  - exfalso. unfold rips_cell in Hrun.
    destruct (for_each_ok_inv _ _ _ _ _ _ 0 Hrun) as (s1 & s2 & Hi).
    { apply in_range_from. lia. }
    destruct (for_each_ok_inv _ _ _ _ _ _ (Nat.max N 1) Hi) as (s3 & s4 & Hj).
    { apply in_range_from. lia. }
    rewrite (getitem2_out distMat N N 0 (Nat.max N 1) Hd) in Hj by lia.
    discriminate.
  - rewrite (rips_cell_raise _ _ _ _ _ Hrun). reflexivity.
Qed.

Lemma rips_cell_out_of_bounds_witness :
  shapeb line3 3 3 = true /\ 3 < 4 /\ 2 <= 4 /\
  rips_cell line3 data3 4 4 = Raise (IndexError op_getitem).
Proof.
  assert (Hd : shapeb line3 3 3 = true) by reflexivity.
  assert (HN : 3 < 4) by lia.
  assert (H2 : 2 <= 4) by lia.
  split; [exact Hd|]. split; [exact HN|]. split; [exact H2|].
  exact (rips_cell_out_of_bounds line3 data3 3 4 4 Hd HN H2).
Defined.

(** * The Hausdorff distance cells *)

Example hausdorff_cell_cross :
  hausdorff_cell (cross line3 [1]) = Ok 2%Q.
Proof. reflexivity. Qed.

Example hausdorff_cell_rect :
  hausdorff_cell [[1; 5]; [4; 2]; [3; 3]]%Q = Ok 3%Q.
Proof. reflexivity. Qed.

Lemma fold_minimum_cols (K : nat) (rs : list (list Q)) (r : list Q) :
  length r = K -> Forall (fun r' => length r' = K) rs ->
  length (fold_left minimum rs r) = K /\
  forall j, j < K ->
    nth j (fold_left minimum rs r) 0%Q =
    fold_left Qmin (map (fun r' => nth j r' 0%Q) rs) (nth j r 0%Q).
Proof.
  revert r. induction rs as [|r' rs IH]; intros r Hr Hrs; simpl.
  - auto.
  - inversion Hrs as [|? ? Hr' Hrs']; subst.
    destruct (IH (minimum r r')) as [Hlen Hnth];
      [rewrite minimum_length; lia | exact Hrs' |].
    split; [exact Hlen|]. intros j Hj.
    rewrite Hnth by exact Hj. rewrite minimum_nth by lia. reflexivity.
Qed.

Lemma shapeb_rows (A : ndarray) (r c : nat) :
  shapeb A r c = true -> Forall (fun row => length row = c) A.
Proof.
  unfold shapeb. rewrite andb_true_iff, forallb_forall.
  intros [_ H]. apply Forall_forall. intros x Hx.
  apply Nat.eqb_eq. apply H. exact Hx.
Qed.

(** The column minima of a non-empty array. *)
Lemma amin_axis0_spec (C : ndarray) (R K : nat) :
  shapeb C R K = true -> 0 < R ->
  exists c0,
    amin_axis0 C = Ok c0 /\ length c0 = K /\
    forall j, j < K ->
      (forall i, i < R -> (nth j c0 0 <= entry C i j)%Q) /\
      (exists i, i < R /\ (nth j c0 0 == entry C i j)%Q).
Proof.
  intros Hs HR. destruct (shapeb_spec C R K Hs) as [HlenC _].
  pose proof (shapeb_rows C R K Hs) as Hrows.
  destruct C as [|r0 rs]; [simpl in HlenC; lia|].
  inversion Hrows as [|? ? Hr0 Hrs]; subst.
  destruct (fold_minimum_cols (length r0) rs r0 eq_refl Hrs) as [Hlen Hnth].
  exists (fold_left minimum rs r0). split; [reflexivity|].
  split; [exact Hlen|]. intros j Hj. rewrite (Hnth j Hj). split.
  - intros [|i] Hi.
    + apply (proj1 (fold_Qmin_le _ _)).
    + apply (proj2 (fold_Qmin_le _ _)). unfold entry. simpl nth at 2.
      apply (in_map (fun r' => nth j r' 0%Q)). apply nth_In.
      simpl in Hi. lia.
  - destruct (fold_Qmin_in (map (fun r' => nth j r' 0%Q) rs) (nth j r0 0%Q))
      as (y & [Hy|Hy] & E).
    + exists 0. split; [simpl; lia|]. rewrite E, <- Hy. reflexivity.
    + apply in_map_iff in Hy. destruct Hy as (r' & <- & Hr').
      destruct (In_nth rs r' [] Hr') as (i & Hi & <-).
      exists (S i). split; [simpl; lia | exact E].
Qed.

(** The row minima of an array with at least one column. *)
Lemma amin_axis1_spec (C : ndarray) (R K : nat) :
  shapeb C R K = true -> 0 < K ->
  exists c1,
    amin_axis1 C = Ok c1 /\ length c1 = R /\
    forall i, i < R ->
      (forall j, j < K -> (nth i c1 0 <= entry C i j)%Q) /\
      (exists j, j < K /\ (nth i c1 0 == entry C i j)%Q).
Proof.
  intros Hs HK. destruct (shapeb_spec C R K Hs) as [HlenC _].
  pose proof (shapeb_rows C R K Hs) as Hrows. clear Hs. subst R.
  induction Hrows as [|r C Hr _ IH].
  - exists []. split; [reflexivity|]. split; [reflexivity|].
    intros i Hi. simpl in Hi. lia.
  - destruct IH as (c1 & Hrun & Hlen & Hc1).
    destruct r as [|x t]; [simpl in Hr; lia|].
    exists (fold_left Qmin t x :: c1).
    split; [simpl; rewrite Hrun; reflexivity|].
    split; [simpl; lia|]. intros [|i] Hi.
    + unfold entry. split.
      * intros [|j] Hj; cbn [nth].
        -- apply (proj1 (fold_Qmin_le _ _)).
        -- apply (proj2 (fold_Qmin_le _ _)). apply nth_In.
           simpl in Hr. lia.
      * destruct (fold_Qmin_in t x) as (y & Hy & E).
        destruct (In_nth (x :: t) y 0%Q Hy) as (j & Hj & Ej).
        exists j. split; [lia|].
        change (nth 0 (fold_left Qmin t x :: c1) 0%Q)
          with (fold_left Qmin t x).
        change (nth 0 ((x :: t) :: C) []) with (x :: t).
        rewrite Ej. exact E.
    + simpl in Hi. destruct (Hc1 i ltac:(lia)) as [H1 H2].
      unfold entry in *. cbn [nth]. split; assumption.
Qed.

Lemma hausdorff_cell_spec_returns (C : ndarray) (R K : nat) :
  shapeb C R K = true -> 0 < R -> 0 < K ->
  exists h, hausdorff_cell C = Ok h.
Proof.
  intros Hs HR HK.
  destruct (amin_axis0_spec C R K Hs HR) as (c0 & Hc0 & Hl0 & _).
  destruct (amin_axis1_spec C R K Hs HK) as (c1 & Hc1 & Hl1 & _).
  destruct (amax_ok c0) as [dxy Hdxy];
    [intro E; subst c0; simpl in Hl0; lia|].
  destruct (amax_ok c1) as [dyx Hdyx];
    [intro E; subst c1; simpl in Hl1; lia|].
  exists (Qmax dxy dyx).
  unfold hausdorff_cell. rewrite Hc0. cbn [bind]. rewrite Hdxy. cbn [bind].
  rewrite Hc1. cbn [bind]. rewrite Hdyx. reflexivity.
Qed.

(** X14: the value of the cell on an R x K array, R, K >= 1: every column and
    every row has an entry at most [h] (each point of one cloud is within
    [h] of a point of the other), and [h] is the least such bound: some
    column or some row has all its entries at least [h]. *)
Theorem hausdorff_cell_bound (C : ndarray) (R K : nat) :
  shapeb C R K = true -> 0 < R -> 0 < K ->
  exists h,
    hausdorff_cell C = Ok h /\
    (forall j, j < K -> exists i, i < R /\ (entry C i j <= h)%Q) /\
    (forall i, i < R -> exists j, j < K /\ (entry C i j <= h)%Q) /\
    ((exists j, j < K /\ forall i, i < R -> (h <= entry C i j)%Q) \/
     (exists i, i < R /\ forall j, j < K -> (h <= entry C i j)%Q)).
Proof.
  intros Hs HR HK.
  destruct (amin_axis0_spec C R K Hs HR) as (c0 & Hc0 & Hl0 & H0).
  destruct (amin_axis1_spec C R K Hs HK) as (c1 & Hc1 & Hl1 & H1).
  destruct (amax_ok c0) as [dxy Hdxy];
    [intro E; subst c0; simpl in Hl0; lia|].
  destruct (amax_ok c1) as [dyx Hdyx];
    [intro E; subst c1; simpl in Hl1; lia|].
  destruct (amax_spec _ _ Hdxy) as [Hub0 (j0 & Hj0 & E0)].
  destruct (amax_spec _ _ Hdyx) as [Hub1 (i1 & Hi1 & E1)].
  rewrite Hl0 in Hub0, Hj0. rewrite Hl1 in Hub1, Hi1.
  exists (Qmax dxy dyx). split.
  { unfold hausdorff_cell. rewrite Hc0. cbn [bind]. rewrite Hdxy. cbn [bind].
    rewrite Hc1. cbn [bind]. rewrite Hdyx. reflexivity. }
  split; [|split].
  - intros j Hj. destruct (proj2 (H0 j Hj)) as (i & Hi & E).
    exists i. split; [exact Hi|]. rewrite <- E.
    eapply Qle_trans; [apply (Hub0 j Hj) | apply Q.le_max_l].
  - intros i Hi. destruct (proj2 (H1 i Hi)) as (j & Hj & E).
    exists j. split; [exact Hj|]. rewrite <- E.
    eapply Qle_trans; [apply (Hub1 i Hi) | apply Q.le_max_r].
  - destruct (Q.max_spec dxy dyx) as [[_ Em]|[_ Em]].
    + right. exists i1. split; [exact Hi1|]. intros j Hj.
      rewrite Em, <- E1. apply (proj1 (H1 i1 Hi1)). exact Hj.
    + left. exists j0. split; [exact Hj0|]. intros i Hi.
      rewrite Em, <- E0. apply (proj1 (H0 j0 Hj0)). exact Hi.
Qed.

Lemma hausdorff_cell_bound_witness :
  shapeb [[1; 5]; [4; 2]; [3; 3]]%Q 3 2 = true /\ 0 < 3 /\ 0 < 2 /\
  exists h,
    hausdorff_cell [[1; 5]; [4; 2]; [3; 3]]%Q = Ok h /\
    (forall j, j < 2 ->
       exists i, i < 3 /\ (entry [[1; 5]; [4; 2]; [3; 3]] i j <= h)%Q) /\
    (forall i, i < 3 ->
       exists j, j < 2 /\ (entry [[1; 5]; [4; 2]; [3; 3]] i j <= h)%Q) /\
    ((exists j, j < 2 /\
        forall i, i < 3 -> (h <= entry [[1; 5]; [4; 2]; [3; 3]] i j)%Q) \/
     (exists i, i < 3 /\
        forall j, j < 2 -> (h <= entry [[1; 5]; [4; 2]; [3; 3]] i j)%Q)).
Proof.
  assert (Hs : shapeb [[1; 5]; [4; 2]; [3; 3]]%Q 3 2 = true) by reflexivity.
  assert (HR : 0 < 3) by lia.
  assert (HK : 0 < 2) by lia.
  split; [exact Hs|]. split; [exact HR|]. split; [exact HK|].
  exact (hausdorff_cell_bound _ 3 2 Hs HR HK).
Defined.

(** X15: the cell returns exactly when both clouds have a point: with no row
    [np.min(., axis=0)] raises, with rows and no column [np.max] of the
    empty array of column minima raises. *)
Theorem hausdorff_cell_returns_iff (C : ndarray) (R K : nat) :
  shapeb C R K = true ->
  ((exists h, hausdorff_cell C = Ok h) <-> 0 < R /\ 0 < K) /\
  (R = 0 -> hausdorff_cell C = Raise (ValueError op_min)) /\
  (0 < R -> K = 0 -> hausdorff_cell C = Raise (ValueError op_max)).
Proof.
  intro Hs. destruct (shapeb_spec C R K Hs) as [HlenC _].
  assert (HR0 : R = 0 -> hausdorff_cell C = Raise (ValueError op_min)).
  { intro E. subst R. destruct C; [reflexivity | discriminate]. }
  assert (HK0 : 0 < R -> K = 0 ->
                hausdorff_cell C = Raise (ValueError op_max)).
  { intros HR E. subst K.
    destruct (amin_axis0_spec C R 0 Hs HR) as (c0 & Hc0 & Hl0 & _).
    destruct c0; [|discriminate].
    unfold hausdorff_cell. rewrite Hc0. reflexivity. }
  split; [|split; assumption]. split.
  - intros [h Hh].
    destruct (Nat.eq_dec R 0) as [E|E];
      [rewrite (HR0 E) in Hh; discriminate|].
    destruct (Nat.eq_dec K 0) as [E'|E'];
      [rewrite (HK0 ltac:(lia) E') in Hh; discriminate|].
    lia.
  - intros [HR HK].
    destruct (hausdorff_cell_spec_returns C R K Hs HR HK) as [h Hh].
    exists h. exact Hh.
Qed.

Lemma hausdorff_cell_returns_iff_witness :
  shapeb [[]; []] 2 0 = true /\
  ((exists h, hausdorff_cell [[]; []] = Ok h) <-> 0 < 2 /\ 0 < 0) /\
  (2 = 0 -> hausdorff_cell [[]; []] = Raise (ValueError op_min)) /\
  (0 < 2 -> 0 = 0 -> hausdorff_cell [[]; []] = Raise (ValueError op_max)).
Proof.
  assert (Hs : shapeb [[]; []] 2 0 = true) by reflexivity.
  split; [exact Hs|].
  exact (hausdorff_cell_returns_iff [[]; []] 2 0 Hs).
Defined.

(** ** The covering radius is a Hausdorff distance *)

Lemma cross_shape (M : ndarray) (L : list nat) :
  shapeb (cross M L) (len M) (length L) = true.
Proof.
  unfold shapeb, cross, len. rewrite length_map, Nat.eqb_refl. simpl.
  apply forallb_forall. intros r Hr. apply in_map_iff in Hr.
  destruct Hr as (r0 & <- & _). rewrite length_map. apply Nat.eqb_refl.
Qed.

Lemma cross_entry (M : ndarray) (L : list nat) (i j : nat) :
  i < len M -> j < length L ->
  entry (cross M L) i j = entry M i (nth j L 0).
Proof.
  intros Hi Hj. unfold entry, cross.
  rewrite (nth_indep _ [] (map (fun l => nth l [] 0%Q) L))
    by (rewrite length_map; exact Hi).
  rewrite (map_nth (fun r => map (fun l => nth l r 0%Q) L)).
  rewrite (nth_indep _ 0%Q (nth 0 (nth i M []) 0%Q))
    by (rewrite length_map; exact Hj).
  rewrite (map_nth (fun l => nth l (nth i M []) 0%Q)). reflexivity.
Qed.

(** The Hausdorff cell on the distances from the data to a set of its own
    points gives the covering radius of that set. *)
Lemma hausdorff_cross (M : ndarray) (L : list nat) (cr : Q) :
  valid M -> L <> [] -> Forall (fun l => l < len M) L ->
  amax (colmin M L) = Ok cr ->
  exists h, hausdorff_cell (cross M L) = Ok h /\ (h == cr)%Q.
Proof.
  intros Hv Hne HL Hcr. pose proof (valid_square M Hv) as Hsq.
  pose proof (colmin_length M Hsq L Hne HL) as Hlen.
  assert (Hpos : 0 < len M).
  { destruct (colmin M L); [discriminate|]. simpl in Hlen. lia. }
  assert (HK : 0 < length L) by (destruct L; [congruence | simpl; lia]).
  pose proof (cross_shape M L) as Hs.
  destruct (amin_axis0_spec _ _ _ Hs Hpos) as (c0 & Hc0 & Hl0 & H0).
  destruct (amin_axis1_spec _ _ _ Hs HK) as (c1 & Hc1 & Hl1 & H1).
  destruct (amax_ok c0) as [dxy Hdxy];
    [intro E; subst c0; simpl in Hl0; lia|].
  destruct (amax_ok c1) as [dyx Hdyx];
    [intro E; subst c1; simpl in Hl1; lia|].
  assert (HLj : forall j, j < length L -> nth j L 0 < len M).
  { intros j Hj. rewrite Forall_forall in HL. apply HL. apply nth_In.
    exact Hj. }
  (* every landmark is at distance zero from the data *)
  assert (Exy : (dxy == 0)%Q).
  { destruct (amax_spec _ _ Hdxy) as [_ (j & Hj & E)]. rewrite Hl0 in Hj.
    rewrite <- E. destruct (H0 j Hj) as [Hle (i & Hi & Ei)].
    apply Qle_antisym.
    - eapply Qle_trans; [apply (Hle (nth j L 0) (HLj j Hj))|].
      rewrite cross_entry by auto.
      rewrite (valid_zero_diagonal M _ Hv (HLj j Hj)). apply Qle_refl.
    - rewrite Ei, cross_entry by auto.
      apply valid_nonnegative; auto. }
  (* the row minima are the distance array of the sampling functions *)
  assert (Eyx : (dyx == cr)%Q).
  { apply (amax_ext _ _ cr dyx Hcr Hdyx); [lia|].
    intros p Hp. rewrite Hlen in Hp.
    destruct (H1 p Hp) as [Hle (j & Hj & Ej)].
    apply Qle_antisym.
    - destruct (colmin_is_entry M Hsq L p Hne HL Hp) as (l & Hl & El).
      destruct (In_nth L l 0 Hl) as (j' & Hj' & <-).
      rewrite El. eapply Qle_trans; [apply (Hle j' Hj')|].
      rewrite cross_entry by auto.
      rewrite (valid_symmetric M p (nth j' L 0) Hv Hp (HLj j' Hj')).
      apply Qle_refl.
    - rewrite Ej, cross_entry by auto.
      rewrite (valid_symmetric M p (nth j L 0) Hv Hp (HLj j Hj)).
      apply (colmin_le_entry M Hsq L (nth j L 0) p HL); [|exact Hp].
      apply nth_In. exact Hj. }
  assert (Hcr0 : (0 <= cr)%Q).
  { destruct (amax_spec _ _ Hcr) as [Hub _].
    destruct (colmin_is_entry M Hsq L 0 Hne HL Hpos) as (l & Hl & E).
    eapply Qle_trans; [|apply (Hub 0); lia].
    rewrite E. apply valid_nonnegative; auto.
    rewrite Forall_forall in HL. auto. }
  exists (Qmax dxy dyx). split.
  - unfold hausdorff_cell. rewrite Hc0. cbn [bind]. rewrite Hdxy. cbn [bind].
    rewrite Hc1. cbn [bind]. rewrite Hdyx. reflexivity.
  - rewrite Q.max_r; [exact Eyx|]. rewrite Exy, Eyx. exact Hcr0.
Qed.

(** X16: what the sampling cells print as d_H(X, Y): on a valid distance matrix
    the covering radius returned by [maxmin], and for n >= 1 by
    [uniform_sampling], is the value the Hausdorff cell computes from the
    distances between the data and the returned landmarks. *)
Theorem covering_radius_is_hausdorff (M : ndarray) (n : Z) (g : rng) :
  valid M -> 0 < len M ->
  (exists L cr g' h,
      maxmin M n g = Ok (L, cr, g') /\
      hausdorff_cell (cross M L) = Ok h /\ (h == cr)%Q) /\
  ((1 <= n)%Z ->
   exists L cr g' h,
     uniform_sampling M n g = Ok (L, cr, g') /\
     hausdorff_cell (cross M L) = Ok h /\ (h == cr)%Q).
Proof.
  intros Hv Hpos. pose proof (valid_square M Hv) as Hsq. split.
  - destruct (maxmin_returns M n g Hsq Hpos)
      as (r & ext & cr & g' & _ & Hrun & Hcr & _ & HL & _).
    destruct (hausdorff_cross M (r :: ext) cr Hv ltac:(discriminate) HL Hcr)
      as (h & Hh & E).
    exists (r :: ext), cr, g', h. auto.
  - intro Hn.
    destruct (uniform_sampling_returns M n g Hsq Hpos Hn)
      as (L & cr & g' & _ & Hrun & Hcr & Hlen & HL).
    assert (Hne : L <> []) by (intro E; subst L; simpl in Hlen; lia).
    destruct (hausdorff_cross M L cr Hv Hne HL Hcr) as (h & Hh & E).
    exists L, cr, g', h. auto.
Qed.

Lemma covering_radius_is_hausdorff_witness :
  valid line3 /\ 0 < len line3 /\
  exists L cr g' h,
    maxmin line3 2 (tape [1]) = Ok (L, cr, g') /\
    hausdorff_cell (cross line3 L) = Ok h /\ (h == cr)%Q.
Proof.
  assert (Hv : valid line3) by reflexivity.
  assert (Hp : 0 < len line3) by (simpl; lia).
  split; [exact Hv|]. split; [exact Hp|].
  exact (proj1 (covering_radius_is_hausdorff line3 2 (tape [1]) Hv Hp)).
Defined.

(** * The barcode figure *)

Lemma plot_state_eta (s : plot_state) : mkPlot (mem s) (fig s) = s.
Proof.
  destruct s. reflexivity.
Qed.

Lemma skipn_nth_cons (b : diagram) (i : nat) (d : fl * fl) :
  i < length b -> skipn i b = nth i b d :: skipn (S i) b.
Proof.
  revert i. induction b as [|x b IH]; intros i H; simpl in H; [lia|].
  destruct i as [|i]; [reflexivity|].
  change (skipn (S i) (x :: b)) with (skipn i b).
  change (nth (S i) (x :: b) d) with (nth i b d).
  rewrite (IH i) by lia. reflexivity.
Qed.

Lemma capped_nth (alpha_max : Q) (b : diagram) (i : nat) :
  nth i (capped alpha_max b) (Fin 0, Fin 0) =
  (if isinf (snd (nth i b (Fin 0, Fin 0)))
   then (fst (nth i b (Fin 0, Fin 0)), Fin alpha_max)
   else nth i b (Fin 0, Fin 0)).
Proof.
  unfold capped.
  change (Fin 0, Fin 0)
    with ((fun '(birth, death) =>
             if isinf death then (birth, Fin alpha_max) else (birth, death))
            (Fin 0, Fin 0)) at 1.
  rewrite map_nth. destruct (nth i b (Fin 0, Fin 0)) as [birth death].
  reflexivity.
Qed.

Lemma isinf_nth (b : diagram) (i : nat) :
  nth i (map (fun x => isinf (snd x)) b) false =
  isinf (snd (nth i b (Fin 0, Fin 0))).
Proof.
  change false with ((fun x : fl * fl => isinf (snd x)) (Fin 0, Fin 0)).
  apply map_nth.
Qed.

(** The inner loop, on the capped copy of [b0], draws the bars of [b0]. *)
Lemma plot_bars_run (K dim addr : nat) (alpha_max : Q) (b0 : diagram) :
  dim < K ->
  forall (k i : nat) (s : plot_state),
    i + k = length b0 ->
    nth addr (mem s) [] = capped alpha_max b0 ->
    plot_bars (AxesArray K) dim addr (map (fun x => isinf (snd x)) b0)
      alpha_max k i (S i) s =
    (Ok (S (i + k)),
     mkPlot (mem s) (fig s ++ bars_drawing dim alpha_max i (skipn i b0))).
Proof.
  intros Hdim. induction k as [|k IH]; intros i s Hik Hmem.
  - cbn [plot_bars]. unfold ret.
    replace i with (length b0) by lia. rewrite skipn_all. cbn [bars_drawing].
    rewrite app_nil_r, plot_state_eta, Nat.add_0_r. reflexivity.
  - cbn [plot_bars]. unfold bind_st, get_diagram, lift, emit, ret.
    cbn [subscript]. apply Nat.ltb_lt in Hdim. rewrite Hdim.
    rewrite Hmem, capped_nth, isinf_nth.
    rewrite (skipn_nth_cons b0 i (Fin 0, Fin 0)) by lia.
    cbn [bars_drawing]. unfold bar_drawing.
    destruct (isinf (snd (nth i b0 (Fin 0, Fin 0)))); cbn [mem fig].
    + rewrite (IH (S i)); [|lia|exact Hmem]. cbn [mem fig].
      replace (S i + k) with (i + S k) by lia.
      rewrite <- !app_assoc. reflexivity.
    + rewrite (IH (S i)); [|lia|exact Hmem]. cbn [mem fig].
      replace (S i + k) with (i + S k) by lia.
      rewrite <- !app_assoc. reflexivity.
Qed.

(** The outer loop from dimension [dim] on. *)
Lemma plot_dims_run (diagrams : list nat) (alpha_max : Q) (k : nat) :
  forall (dim : nat) (s : plot_state),
    dim + k = length diagrams ->
    Forall (fun a => a < length (mem s)) diagrams ->
    plot_dims (AxesArray (length diagrams)) diagrams alpha_max k dim s =
    (Ok tt,
     mkPlot
       (mem s ++ map (fun a => capped alpha_max (nth a (mem s) []))
                     (skipn dim diagrams))
       (fig s ++ dims_drawing alpha_max dim
                   (map (fun a => nth a (mem s) []) (skipn dim diagrams)))).
Proof.
  induction k as [|k IH]; intros dim s Hk Hvalid.
  - cbn [plot_dims]. unfold ret.
    replace dim with (length diagrams) by lia. rewrite skipn_all.
    cbn [map dims_drawing]. rewrite !app_nil_r, plot_state_eta. reflexivity.
  - rewrite plot_dims_step. cbv zeta.
    set (a := nth dim diagrams 0).
    set (b0 := nth a (mem s) []).
    rewrite (plot_bars_run (length diagrams) dim (length (mem s)) alpha_max b0
               ltac:(lia) (length b0) 0
               (mkPlot (mem s ++ [capped alpha_max b0]) (fig s))
               eq_refl)
      by (cbn [mem]; apply nth_app_new).
    cbn [mem fig subscript].
    assert (Hlt : (dim <? length diagrams) = true) by (apply Nat.ltb_lt; lia).
    rewrite Hlt.
    rewrite IH; [|lia|].
    + cbn [mem fig].
      rewrite (skipn_cons_nth diagrams dim) by lia. fold a.
      cbn [map dims_drawing]. fold b0. unfold dim_drawing.
      rewrite <- !app_assoc. cbn [app]. change (0 + length b0) with (length b0).
      assert (Hmap1 :
        map (fun a0 => capped alpha_max
                         (nth a0 (mem s ++ [capped alpha_max b0]) []))
            (skipn (S dim) diagrams) =
        map (fun a0 => capped alpha_max (nth a0 (mem s) []))
            (skipn (S dim) diagrams)).
      { apply map_ext_in. intros a0 Ha0. rewrite nth_app_old; [reflexivity|].
        rewrite Forall_forall in Hvalid. apply Hvalid.
        rewrite <- (firstn_skipn (S dim) diagrams). apply in_or_app.
        now right. }
      assert (Hmap2 :
        map (fun a0 => nth a0 (mem s ++ [capped alpha_max b0]) [])
            (skipn (S dim) diagrams) =
        map (fun a0 => nth a0 (mem s) []) (skipn (S dim) diagrams)).
      { apply map_ext_in. intros a0 Ha0. rewrite nth_app_old; [reflexivity|].
        rewrite Forall_forall in Hvalid. apply Hvalid.
        rewrite <- (firstn_skipn (S dim) diagrams). apply in_or_app.
        now right. }
      rewrite Hmap1, Hmap2. reflexivity.
    + cbn [mem]. apply Forall_forall. intros a0 Ha0.
      rewrite Forall_forall in Hvalid. specialize (Hvalid a0 Ha0).
      rewrite length_app. lia.
Qed.

Lemma plot_barcodes_figure_state (diagrams : list nat) (alpha_max : Q)
    (s : plot_state) :
  2 <= length diagrams ->
  Forall (fun a => a < length (mem s)) diagrams ->
  plot_barcodes diagrams alpha_max s =
  (Ok tt,
   mkPlot
     (mem s ++ map (fun a => capped alpha_max (nth a (mem s) [])) diagrams)
     (fig s ++ barcode_figure alpha_max
                 (map (fun a => nth a (mem s) []) diagrams))).
Proof.
  intros Hlen Hvalid. unfold plot_barcodes, bind_st, lift, emit.
  assert (Hsub : subplots (length diagrams) = Ok (AxesArray (length diagrams))).
  { destruct (length diagrams) as [|[|k]]; try lia. reflexivity. }
  rewrite Hsub.
  rewrite (plot_dims_run diagrams alpha_max (length diagrams) 0
             (mkPlot (mem s) (fig s ++ [Suptitle])) eq_refl Hvalid).
  cbn [mem fig skipn]. unfold barcode_figure.
  rewrite <- app_assoc. reflexivity.
Qed.

(** X17: with at least two diagrams, all of them in memory, [plot_barcodes]
    returns; it adds to the memory the capped copies of the diagrams and
    nothing else, and draws exactly the barcode figure of the diagrams: one
    segment per interval at the heights 1, 2, ..., the infinite ones cut at
    [alpha_max] and marked there, and one frame per dimension. *)
Theorem plot_barcodes_figure (diagrams : list nat) (alpha_max : Q)
    (s : plot_state) :
  2 <= length diagrams ->
  Forall (fun a => a < length (mem s)) diagrams ->
  plot_barcodes diagrams alpha_max s =
  (Ok tt,
   mkPlot
     (mem s ++ map (fun a => capped alpha_max (nth a (mem s) [])) diagrams)
     (fig s ++ barcode_figure alpha_max
                 (map (fun a => nth a (mem s) []) diagrams))).
Proof.
  exact (plot_barcodes_figure_state diagrams alpha_max s).
Qed.

Lemma plot_barcodes_figure_witness :
  2 <= length [0; 1] /\
  Forall (fun a => a < length (mem (mkPlot dgms []))) [0; 1] /\
  plot_barcodes [0; 1] 2 (mkPlot dgms []) =
  (Ok tt,
   mkPlot
     (mem (mkPlot dgms []) ++
      map (fun a => capped 2 (nth a (mem (mkPlot dgms [])) [])) [0; 1])
     (fig (mkPlot dgms []) ++
      barcode_figure 2
        (map (fun a => nth a (mem (mkPlot dgms [])) []) [0; 1]))).
Proof.
  assert (Hl : 2 <= length [0; 1]) by (simpl; lia).
  assert (Hv : Forall (fun a => a < length (mem (mkPlot dgms []))) [0; 1])
    by (repeat constructor).
  split; [exact Hl|]. split; [exact Hv|].
  exact (plot_barcodes_figure [0; 1] 2 (mkPlot dgms []) Hl Hv).
Defined.

(** ** How many diagrams plot_barcodes accepts *)

Lemma plot_bars_array (K dim addr : nat) (ind_inf : list bool)
    (alpha_max : Q) (k : nat) :
  dim < K ->
  forall (i h : nat) (s : plot_state),
  exists h',
    fst (plot_bars (AxesArray K) dim addr ind_inf alpha_max k i h s) = Ok h'.
Proof.
  intro Hdim. apply Nat.ltb_lt in Hdim.
  induction k as [|k IH]; intros i h s.
  - exists h. reflexivity.
  - cbn [plot_bars]. unfold bind_st, get_diagram, lift, emit, ret.
    cbn [subscript]. rewrite Hdim.
    destruct (nth i ind_inf false); apply IH.
Qed.

Lemma plot_dims_array (K : nat) (diagrams : list nat) (alpha_max : Q)
    (k : nat) :
  forall (dim : nat) (s : plot_state),
    dim + k <= K ->
    fst (plot_dims (AxesArray K) diagrams alpha_max k dim s) = Ok tt.
Proof.
  induction k as [|k IH]; intros dim s Hk; [reflexivity|].
  rewrite plot_dims_step. cbv zeta.
  match goal with
  | |- context [plot_bars ?a ?b ?c ?d ?e ?f ?g ?h ?st] =>
      destruct (plot_bars_array K dim c d e f ltac:(lia) g h st) as [h' Hh];
      destruct (plot_bars a b c d e f g h st) as [[h0|e0] s3];
      cbn [fst] in Hh; [|discriminate]
  end.
  cbn [subscript].
  assert (Hlt : (dim <? K) = true) by (apply Nat.ltb_lt; lia).
  rewrite Hlt. apply IH. lia.
Qed.

Lemma plot_bars_one (dim addr : nat) (ind_inf : list bool) (alpha_max : Q)
    (k i h : nat) (s : plot_state) :
  fst (plot_bars OneAxes dim addr ind_inf alpha_max k i h s) =
  match k with
  | 0 => Ok h
  | S _ => Raise (TypeError op_subscript)
  end.
Proof.
  destruct k; reflexivity.
Qed.

(** X18: [plot_barcodes] returns exactly when it is given at least two diagrams.
    With none, [plt.subplots(0)] raises [ValueError] and nothing is
    allocated or drawn; with exactly one, [plt.subplots(1)] gives a single
    [Axes], and [axs[0]] raises [TypeError], whatever the diagram holds. *)
Theorem plot_barcodes_returns_iff (diagrams : list nat) (alpha_max : Q)
    (s : plot_state) :
  (fst (plot_barcodes diagrams alpha_max s) = Ok tt <->
   2 <= length diagrams) /\
  (length diagrams = 0 ->
   plot_barcodes diagrams alpha_max s = (Raise (ValueError op_subplots), s)) /\
  (length diagrams = 1 ->
   fst (plot_barcodes diagrams alpha_max s) = Raise (TypeError op_subscript)).
Proof.
  assert (H0 : length diagrams = 0 ->
               plot_barcodes diagrams alpha_max s =
               (Raise (ValueError op_subplots), s)).
  { intro E. unfold plot_barcodes, bind_st, lift. rewrite E. reflexivity. }
  assert (H1 : length diagrams = 1 ->
               fst (plot_barcodes diagrams alpha_max s) =
               Raise (TypeError op_subscript)).
  { intro E. unfold plot_barcodes, bind_st, lift, emit. rewrite E.
    cbn [subplots]. rewrite plot_dims_step. cbv zeta.
    match goal with
    | |- context [plot_bars ?a ?b ?c ?d ?e ?f ?g ?h ?st] =>
        pose proof (plot_bars_one b c d e f g h st) as Hb;
        destruct (plot_bars a b c d e f g h st) as [[h0|e0] s3];
        cbn [fst] in Hb
    end.
    - reflexivity.
    - match type of Hb with
      | context [match ?n with 0 => _ | S _ => _ end] => destruct n
      end; [discriminate|].
      injection Hb as ->. reflexivity. }
  split; [|split; assumption]. split.
  - intro Hok.
    destruct (length diagrams) as [|[|k]] eqn:E; [| |lia].
    + rewrite (H0 eq_refl) in Hok. discriminate.
    + rewrite (H1 eq_refl) in Hok. discriminate.
  - intro Hlen. unfold plot_barcodes, bind_st, lift, emit.
    assert (Hsub : subplots (length diagrams) =
                   Ok (AxesArray (length diagrams))).
    { destruct (length diagrams) as [|[|k]]; try lia. reflexivity. }
    rewrite Hsub. apply plot_dims_array. lia.
Qed.

(** ** What reaches the plotting calls *)

Lemma in_bars_drawing (dim : nat) (alpha_max : Q) (b : diagram) :
  forall (i : nat) (d : draw),
    In d (bars_drawing dim alpha_max i b) <->
    exists j, j < length b /\
              In d (bar_drawing dim alpha_max (i + j) (nth j b (Fin 0, Fin 0))).
Proof.
  induction b as [|x b IH]; intros i d; cbn [bars_drawing].
  - split; [intros [] | intros (j & Hj & _); simpl in Hj; lia].
  - rewrite in_app_iff, IH. split.
    + intros [H | (j & Hj & H)].
      * exists 0. rewrite Nat.add_0_r. split; [simpl; lia | exact H].
      * exists (S j). split; [simpl; lia|].
        replace (i + S j) with (S i + j) by lia. exact H.
    + intros ([|j] & Hj & H).
      * left. rewrite Nat.add_0_r in H. exact H.
      * right. exists j. split; [simpl in Hj; lia|].
        replace (S i + j) with (i + S j) by lia. exact H.
Qed.

Lemma in_dims_drawing (alpha_max : Q) (ds : list diagram) :
  forall (dim : nat) (d : draw),
    In d (dims_drawing alpha_max dim ds) <->
    exists t, t < length ds /\
              In d (dim_drawing alpha_max (dim + t) (nth t ds [])).
Proof.
  induction ds as [|b ds IH]; intros dim d; cbn [dims_drawing].
  - split; [intros [] | intros (t & Ht & _); simpl in Ht; lia].
  - rewrite in_app_iff, IH. split.
    + intros [H | (t & Ht & H)].
      * exists 0. rewrite Nat.add_0_r. split; [simpl; lia | exact H].
      * exists (S t). split; [simpl; lia|].
        replace (dim + S t) with (S dim + t) by lia. exact H.
    + intros ([|t] & Ht & H).
      * left. rewrite Nat.add_0_r in H. exact H.
      * right. exists t. split; [simpl in Ht; lia|].
        replace (S dim + t) with (dim + S t) by lia. exact H.
Qed.

(** A drawing command of the barcode figure that is a segment or a marker
    comes from one interval of one diagram. *)
Lemma in_barcode_figure (alpha_max : Q) (ds : list diagram) (d : draw) :
  In d (barcode_figure alpha_max ds) <->
  d = Suptitle \/
  exists t, t < length ds /\
    (d = Frame t alpha_max (S (length (nth t ds []))) \/
     exists j, j < length (nth t ds []) /\
       In d (bar_drawing t alpha_max j (nth j (nth t ds []) (Fin 0, Fin 0)))).
Proof.
  unfold barcode_figure. cbn [In]. rewrite in_dims_drawing. split.
  - intros [H | (t & Ht & H)]; [left; auto|]. right. exists t.
    split; [exact Ht|]. unfold dim_drawing in H. cbn [Nat.add] in H.
    apply in_app_iff in H. destruct H as [H | [H|[]]].
    + right. apply in_bars_drawing in H. exact H.
    + left. auto.
  - intros [H | (t & Ht & H)]; [left; auto|]. right. exists t.
    split; [exact Ht|]. unfold dim_drawing. cbn [Nat.add].
    apply in_app_iff. destruct H as [H | H].
    + right. left. auto.
    + left. apply in_bars_drawing. exact H.
Qed.

(** X19: what [plot_barcodes] passes to the plotting calls, for at least two
    diagrams in memory.  The commands drawn are those of the barcode figure
    of the diagrams, in its order.  A segment is drawn in subplot [ax] at
    height [h] exactly when [h] is the position (1 for the first) of an
    interval of the diagram of dimension [ax]; the segment is that interval
    itself when its death is finite, and the interval with [alpha_max] in
    place of its death when its death is infinite, so no segment has an
    infinite end.  A marker is drawn, at [alpha_max] and at the height of
    its interval, exactly for the intervals with infinite death.  A frame
    is drawn exactly once per dimension, with the y-limit one above the
    number of intervals. *)
Theorem plot_barcodes_segments (diagrams : list nat) (alpha_max : Q)
    (s : plot_state) :
  2 <= length diagrams ->
  Forall (fun a => a < length (mem s)) diagrams ->
  exists drawn,
    fig (snd (plot_barcodes diagrams alpha_max s)) = fig s ++ drawn /\
    drawn = barcode_figure alpha_max
              (map (fun a => nth a (mem s) []) diagrams) /\
    (forall ax x h, In (Plot ax x h) drawn <->
       ax < length diagrams /\
       exists j, h = S j /\
         j < length (nth (nth ax diagrams 0) (mem s) []) /\
         x = (if isinf (snd (nth j (nth (nth ax diagrams 0) (mem s) [])
                                 (Fin 0, Fin 0)))
              then (fst (nth j (nth (nth ax diagrams 0) (mem s) [])
                             (Fin 0, Fin 0)), Fin alpha_max)
              else nth j (nth (nth ax diagrams 0) (mem s) [])
                       (Fin 0, Fin 0))) /\
    (forall ax x h, In (Plot ax x h) drawn -> isinf (snd x) = false) /\
    (forall ax a h, In (Scatter ax a h) drawn <->
       a = alpha_max /\ ax < length diagrams /\
       exists j, h = S j /\
         j < length (nth (nth ax diagrams 0) (mem s) []) /\
         isinf (snd (nth j (nth (nth ax diagrams 0) (mem s) [])
                         (Fin 0, Fin 0))) = true) /\
    (forall ax a h, In (Frame ax a h) drawn <->
       a = alpha_max /\ ax < length diagrams /\
       h = S (length (nth (nth ax diagrams 0) (mem s) []))).
Proof.
  intros Hlen Hvalid.
  set (ds := map (fun a => nth a (mem s) []) diagrams).
  assert (Hds : length ds = length diagrams) by (unfold ds; apply length_map).
  assert (Hnth : forall t, t < length diagrams ->
                   nth t ds [] = nth (nth t diagrams 0) (mem s) []).
  { intros t Ht. unfold ds.
    rewrite (nth_indep _ [] (nth 0 (mem s) []))
      by (rewrite length_map; exact Ht).
    apply (map_nth (fun a => nth a (mem s) [])). }
  assert (HPlot : forall ax x h,
    In (Plot ax x h) (barcode_figure alpha_max ds) <->
    ax < length diagrams /\
    exists j, h = S j /\
      j < length (nth (nth ax diagrams 0) (mem s) []) /\
      x = (if isinf (snd (nth j (nth (nth ax diagrams 0) (mem s) [])
                              (Fin 0, Fin 0)))
           then (fst (nth j (nth (nth ax diagrams 0) (mem s) [])
                          (Fin 0, Fin 0)), Fin alpha_max)
           else nth j (nth (nth ax diagrams 0) (mem s) []) (Fin 0, Fin 0))).
  { intros ax x h. rewrite in_barcode_figure. split.
    - intros [H | (t & Ht & [H | (j & Hj & H)])]; try discriminate.
      rewrite Hds in Ht. rewrite (Hnth t Ht) in Hj, H.
      unfold bar_drawing in H.
      set (row := nth j (nth (nth t diagrams 0) (mem s) []) (Fin 0, Fin 0))
        in *.
      assert (E : Plot ax x h =
                  Plot t (if isinf (snd row) then (fst row, Fin alpha_max)
                          else row) (S j)).
      { destruct H as [H|H]; [symmetry; exact H|].
        destruct (isinf (snd row)); [|destruct H].
        destruct H as [H|[]]. discriminate. }
      injection E as -> -> ->. split; [exact Ht|].
      exists j. split; [reflexivity|]. split; [exact Hj|]. reflexivity.
    - intros (Hax & j & -> & Hj & ->). right. exists ax.
      split; [lia|]. right. exists j. rewrite (Hnth ax Hax).
      split; [exact Hj|]. unfold bar_drawing. left. reflexivity. }
  exists (barcode_figure alpha_max ds).
  rewrite (plot_barcodes_figure_state diagrams alpha_max s Hlen Hvalid).
  cbn [snd fig]. split; [reflexivity|]. split; [reflexivity|].
  split; [exact HPlot|]. split; [|split].
  - intros ax x h H. apply HPlot in H.
    destruct H as (_ & j & _ & _ & ->).
    destruct (isinf (snd (nth j (nth (nth ax diagrams 0) (mem s) [])
                              (Fin 0, Fin 0)))) eqn:Ei;
      [reflexivity | exact Ei].
  - intros ax a h. rewrite in_barcode_figure. split.
    + intros [H | (t & Ht & [H | (j & Hj & H)])]; try discriminate.
      rewrite Hds in Ht. rewrite (Hnth t Ht) in Hj, H.
      unfold bar_drawing in H. destruct H as [H|H]; [discriminate|].
      destruct (isinf (snd (nth j (nth (nth t diagrams 0) (mem s) [])
                                (Fin 0, Fin 0)))) eqn:Ei; [|destruct H].
      destruct H as [H|[]]. injection H as <- <- <-.
      split; [reflexivity|]. split; [exact Ht|].
      exists j. auto.
    + intros (-> & Hax & j & -> & Hj & Hinf). right. exists ax.
      split; [lia|]. right. exists j. rewrite (Hnth ax Hax).
      split; [exact Hj|]. unfold bar_drawing. rewrite Hinf.
      right. left. reflexivity.
  - intros ax a h. rewrite in_barcode_figure. split.
    + intros [H | (t & Ht & [H | (j & Hj & H)])]; try discriminate.
      * rewrite Hds in Ht. rewrite (Hnth t Ht) in H.
        injection H as -> -> ->. auto.
      * exfalso. unfold bar_drawing in H.
        destruct H as [H|H]; [discriminate|].
        destruct (isinf _) in H; [|destruct H].
        destruct H as [H|[]]. discriminate.
    + intros (-> & Hax & ->). right. exists ax. split; [lia|]. left.
      rewrite (Hnth ax Hax). reflexivity.
Qed.

Lemma plot_barcodes_segments_witness :
  2 <= length [0; 1] /\
  Forall (fun a => a < length (mem (mkPlot dgms []))) [0; 1] /\
  exists drawn,
    fig (snd (plot_barcodes [0; 1] 2 (mkPlot dgms []))) =
    fig (mkPlot dgms []) ++ drawn /\
    drawn = barcode_figure 2
              (map (fun a => nth a (mem (mkPlot dgms [])) []) [0; 1]) /\
    (forall ax x h, In (Plot ax x h) drawn -> isinf (snd x) = false).
Proof.
  assert (Hl : 2 <= length [0; 1]) by (simpl; lia).
  assert (Hv : Forall (fun a => a < length (mem (mkPlot dgms []))) [0; 1])
    by (repeat constructor).
  split; [exact Hl|]. split; [exact Hv|].
  destruct (plot_barcodes_segments [0; 1] 2 (mkPlot dgms []) Hl Hv)
    as (drawn & Hfig & Hdrawn & _ & Hfin & _).
  exists drawn. split; [exact Hfig|]. split; [exact Hdrawn | exact Hfin].
Defined.

(** * When the covering radius of maxmin vanishes *)

(** X8: on a valid distance matrix of N >= 1 distinct points, the covering
    radius returned by [maxmin] is zero exactly when the returned list has
    at least N elements, that is when n >= N; for fewer landmarks it is
    positive. *)
Theorem maxmin_radius_zero_iff (M : ndarray) (n : Z) (g : rng) :
  valid M -> separated M -> 0 < len M ->
  exists L cr g',
    maxmin M n g = Ok (L, cr, g') /\
    Z.of_nat (length L) = Z.max n 1 /\
    ((cr == 0)%Q <-> len M <= length L) /\
    (length L < len M -> (0 < cr)%Q).
Proof.
  intros Hv Hsep Hpos. pose proof (valid_square M Hv) as Hsq.
  destruct (maxmin_returns M n g Hsq Hpos)
    as (r & ext & cr & g' & _ & Hrun & Hcr & Hlen & HL & Hgr).
  set (L := r :: ext) in *.
  assert (Hne : L <> []) by discriminate.
  pose proof (colmin_length M Hsq L Hne HL) as Hcl.
  destruct (amax_spec _ _ Hcr) as [Hub (k & Hk & Ek)]. rewrite Hcl in Hub, Hk.
  assert (Hfew : length L < len M -> (0 < cr)%Q).
  { intro Hlt.
    assert (Hnd : NoDup L)
      by (apply (greedy_NoDup M Hv Hsep); auto; lia).
    destruct (missing_index (len M) L Hnd Hlt) as (p & Hp & Hpn).
    eapply Qlt_le_trans; [|apply (Hub p Hp)].
    apply (colmin_unselected M Hv Hsep L p Hne HL Hp Hpn). }
  exists L, cr, g'. split; [exact Hrun|]. split.
  { unfold L. simpl length. rewrite Hlen. unfold range. lia. }
  split; [|exact Hfew]. split.
  - intro E. destruct (Nat.le_gt_cases (len M) (length L)) as [H|H];
      [exact H|].
    exfalso. specialize (Hfew H). rewrite E in Hfew.
    exact (Qlt_irrefl _ Hfew).
  - intro Hge. rewrite <- Ek.
    apply (colmin_selected M Hv L k HL).
    set (P := firstn (len M) L).
    assert (HP : Forall (fun i => i < len M) P)
      by (apply Forall_firstn; exact HL).
    assert (HPnd : NoDup P)
      by (apply (greedy_prefix_NoDup M Hv Hsep); auto).
    assert (HPlen : length P = len M)
      by (unfold P; rewrite length_firstn; lia).
    assert (Hincl : incl P (seq 0 (len M))).
    { intros x Hx. apply in_seq. rewrite Forall_forall in HP.
      specialize (HP x Hx). lia. }
    assert (Hincl' : incl (seq 0 (len M)) P).
    { apply (NoDup_length_incl HPnd); [rewrite length_seq; lia | exact Hincl]. }
    assert (HkP : In k P) by (apply Hincl'; apply in_seq; lia).
    rewrite <- (firstn_skipn (len M) L). apply in_or_app. left. exact HkP.
Qed.

Lemma maxmin_radius_zero_iff_witness :
  valid line3 /\ separated line3 /\ 0 < len line3 /\
  exists L cr g',
    maxmin line3 2 (tape [1]) = Ok (L, cr, g') /\
    Z.of_nat (length L) = Z.max 2 1 /\
    ((cr == 0)%Q <-> len line3 <= length L) /\
    (length L < len line3 -> (0 < cr)%Q).
Proof.
  assert (Hv : valid line3) by reflexivity.
  assert (Hs : separated line3) by reflexivity.
  assert (Hp : 0 < len line3) by (simpl; lia).
  split; [exact Hv|]. split; [exact Hs|]. split; [exact Hp|].
  exact (maxmin_radius_zero_iff line3 2 (tape [1]) Hv Hs Hp).
Defined.
